(** * sheet-atlas development scripts: a shallow embedding

    The repository holds three small Python utilities under
    [.development/scripts/].  This development embeds the text processing
    of [update-tech-debt-index.py] (frontmatter parser, title extractor,
    index section generator, README region replacer and its [main]) and
    the control flow of [session-archive.py] (project root lookup, the
    archiving [main]) and states their properties.

    Conventions.
    - A Python [str] is a list of Unicode code points ([pystr]).
    - Code that can raise returns [option]; [None] stands for the raised
      exception.
    - The clock ([datetime.now()]) and the file system are explicit
      arguments. *)

From stdpp Require Import gmap list strings sorting.
From Stdlib Require Import NArith Ascii.

Local Open Scope string_scope.
Local Open Scope list_scope.
Local Open Scope nat_scope.

Set Warnings "-clear-no-such-hyp".

(** ** Python strings *)

Module PyStr.

Abbreviation char := N (only parsing).
Abbreviation pystr := (list N) (only parsing).

(** Literals: [py "abc"] for ASCII text, [pyl] for text given line by
    line (joined with the newline character). *)
Definition nl : char := 10%N.
Definition dquote : char := 34%N.
Definition squote : char := 39%N.
Definition colon : char := 58%N.
Definition hash : char := 35%N.
Definition backslash : char := 92%N.

Definition py (s : string) : pystr :=
  map N_of_ascii (String.list_ascii_of_string s).

Arguments py : simpl never.

(** ['\n'.join(lines)] *)
Fixpoint join_nl (lines : list pystr) : pystr :=
  match lines with
  | [] => []
  | [l] => l
  | l :: ls => l ++ nl :: join_nl ls
  end.

Definition pyl (lines : list string) : pystr := join_nl (map py lines).

(** Whitespace as [str.strip], [str.rstrip] and the regular expression
    class [\s] (on [str] patterns) see it: the code points for which
    CPython's [Py_UNICODE_ISSPACE] holds. *)
Definition is_space (c : char) : bool :=
  ((9 <=? c) && (c <=? 13) || (28 <=? c) && (c <=? 32)
   || (c =? 133) || (c =? 160) || (c =? 5760)
   || (8192 <=? c) && (c <=? 8202)
   || (c =? 8232) || (c =? 8233) || (c =? 8239) || (c =? 8287)
   || (c =? 12288))%N.

(** [s.lstrip()], [s.rstrip()], [s.strip()] *)
Fixpoint lstrip (s : pystr) : pystr :=
  match s with
  | [] => []
  | c :: s' => if is_space c then lstrip s' else s
  end.

Fixpoint rstrip (s : pystr) : pystr :=
  match s with
  | [] => []
  | c :: s' =>
      match rstrip s' with
      | [] => if is_space c then [] else [c]
      | t => c :: t
      end
  end.

Definition strip (s : pystr) : pystr := rstrip (lstrip s).

(** [s.startswith(p)], [s.endswith(p)] *)
Fixpoint startswith (p s : pystr) : bool :=
  match p, s with
  | [], _ => true
  | _ :: _, [] => false
  | a :: p', b :: s' => (a =? b)%N && startswith p' s'
  end.

Definition endswith (p s : pystr) : bool :=
  startswith (reverse p) (reverse s).

(** [c in s] for a single character *)
Definition contains_char (c : char) (s : pystr) : bool :=
  existsb (N.eqb c) s.

(** [s.find(p)]: the least index at which [p] occurs in [s]; it is also
    what [re.search] returns as [start()] for a pattern that is a plain
    literal. *)
Fixpoint find (p s : pystr) : option nat :=
  if startswith p s then Some 0
  else match s with
       | [] => None
       | _ :: s' => S <$> find p s'
       end.

(** [p] occurs in [s] as a contiguous piece. *)
Definition occurs (p s : pystr) : Prop := ∃ a b, s = a ++ p ++ b.

(** [p] occurs in [s] at offset [i] and nowhere before. *)
Definition first_at (p s : pystr) (i : nat) : Prop :=
  startswith p (drop i s) = true ∧ i ≤ List.length s ∧
  ∀ j, j < i → startswith p (drop j s) = false.

(** [s.split(sep)] for a one-character separator: always at least one
    piece. *)
Fixpoint split (sep : char) (s : pystr) : list pystr :=
  match s with
  | [] => [[]]
  | c :: s' =>
      if (c =? sep)%N then [] :: split sep s'
      else match split sep s' with
           | [] => [[c]]
           | l :: ls => (c :: l) :: ls
           end
  end.

(** [s.split(sep, 1)]: at most one split, at the first separator. *)
Fixpoint split1 (sep : char) (s : pystr) : list pystr :=
  match s with
  | [] => [[]]
  | c :: s' =>
      if (c =? sep)%N then [[]; s']
      else match split1 sep s' with
           | l :: ls => (c :: l) :: ls
           | [] => [[c]]
           end
  end.

(** [s[1:-1]] *)
Definition slice_1_m1 (s : pystr) : pystr := removelast (tail s).

(** Code point order on strings, the order of [<] on [str]. *)
Fixpoint str_ltb (a b : pystr) : bool :=
  match a, b with
  | _, [] => false
  | [], _ :: _ => true
  | x :: a', y :: b' => (x <? y)%N || (x =? y)%N && str_ltb a' b'
  end.

End PyStr.
Export PyStr.

(** ** Regular expressions

    A backtracking matcher for the fragment of Python's [re] syntax that
    the scripts use.  Repetition is only ever applied to a character
    class, so the loops recurse on the remaining text.  A matcher takes
    the text still to be read, the match state and a continuation; it
    tries its alternatives in [re]'s order (greedy: longest first, lazy:
    shortest first) and yields the first one the continuation accepts. *)

Module Re.

Inductive cls : Type :=
| CChar (c : char)       (* a literal character *)
| CNotChar (c : char)    (* [^c] *)
| CDot                   (* .  without DOTALL: anything but a newline *)
| CDotAll                (* .  with DOTALL *)
| CSpace.                (* \s *)

Definition cls_match (k : cls) (x : char) : bool :=
  match k with
  | CChar c => (x =? c)%N
  | CNotChar c => negb (x =? c)%N
  | CDot => negb (x =? nl)%N
  | CDotAll => true
  | CSpace => is_space x
  end.

Inductive regex : Type :=
| REmpty
| RCls (k : cls)
| RBol                   (* ^  with MULTILINE *)
| REol                   (* $  with MULTILINE *)
| REnd                   (* \Z *)
| RSeq (r1 r2 : regex)
| RAlt (r1 r2 : regex)   (* r1|r2 *)
| RPlus (k : cls)        (* k+  *)
| RLazyStar (k : cls)    (* k*? *)
| RGroup (r : regex)     (* (r), the pattern's group 1 *)
| RAhead (r : regex).    (* (?=r) *)

(** The literal [s] as a pattern. *)
Fixpoint RLit (s : pystr) : regex :=
  match s with
  | [] => REmpty
  | c :: s' => RSeq (RCls (CChar c)) (RLit s')
  end.

(** Match state: the current offset in the subject, the character just
    before it (for [^]) and the span of group 1 once it has matched. *)
Record mstate : Type := MState {
  m_pos : nat;
  m_prev : option char;
  m_grp : option (nat * nat)
}.

Definition advance (x : char) (st : mstate) : mstate :=
  MState (S (m_pos st)) (Some x) (m_grp st).

(** The state after reading the characters of [p]. *)
Fixpoint advance_by (p : pystr) (st : mstate) : mstate :=
  match p with
  | [] => st
  | x :: p' => advance_by p' (advance x st)
  end.

Definition set_grp (b e : nat) (st : mstate) : mstate :=
  MState (m_pos st) (m_prev st) (Some (b, e)).

Definition mresult : Type := pystr * mstate.
Definition mcont : Type := pystr -> mstate -> option mresult.

Fixpoint plus_greedy (k : cls) (rest : pystr) (st : mstate) (kont : mcont)
  : option mresult :=
  match rest with
  | [] => None
  | x :: rest' =>
      if cls_match k x then
        match plus_greedy k rest' (advance x st) kont with
        | Some r => Some r
        | None => kont rest' (advance x st)
        end
      else None
  end.

Fixpoint star_lazy (k : cls) (rest : pystr) (st : mstate) (kont : mcont)
  : option mresult :=
  match kont rest st with
  | Some r => Some r
  | None =>
      match rest with
      | [] => None
      | x :: rest' =>
          if cls_match k x then star_lazy k rest' (advance x st) kont
          else None
      end
  end.

Fixpoint rmatch (r : regex) (rest : pystr) (st : mstate) (kont : mcont)
  : option mresult :=
  match r with
  | REmpty => kont rest st
  | RCls k =>
      match rest with
      | x :: rest' => if cls_match k x then kont rest' (advance x st) else None
      | [] => None
      end
  | RBol =>
      match m_prev st with
      | None => kont rest st
      | Some p => if (p =? nl)%N then kont rest st else None
      end
  | REol =>
      match rest with
      | [] => kont rest st
      | x :: _ => if (x =? nl)%N then kont rest st else None
      end
  | REnd =>
      match rest with
      | [] => kont rest st
      | _ :: _ => None
      end
  | RSeq r1 r2 => rmatch r1 rest st (fun rest' st' => rmatch r2 rest' st' kont)
  | RAlt r1 r2 =>
      match rmatch r1 rest st kont with
      | Some res => Some res
      | None => rmatch r2 rest st kont
      end
  | RPlus k => plus_greedy k rest st kont
  | RLazyStar k => star_lazy k rest st kont
  | RGroup r1 =>
      rmatch r1 rest st
        (fun rest' st' => kont rest' (set_grp (m_pos st) (m_pos st') st'))
  | RAhead r1 =>
      match rmatch r1 rest st (fun rest' st' => Some (rest', st')) with
      | Some _ => kont rest st
      | None => None
      end
  end.

(** A match of [r] that starts exactly at the current position. *)
Definition match_here (r : regex) (rest : pystr) (st : mstate)
  : option mresult :=
  rmatch r rest st (fun rest' st' => Some (rest', st')).

(** A found match: [start()], [end()], the span of [group(1)] and the
    text after the match. *)
Record rematch : Type := ReMatch {
  mt_start : nat;
  mt_end : nat;
  mt_grp : option (nat * nat);
  mt_after : pystr
}.

Fixpoint search_from (r : regex) (rest : pystr) (st : mstate)
  : option rematch :=
  match match_here r rest st with
  | Some (after, st') => Some (ReMatch (m_pos st) (m_pos st') (m_grp st') after)
  | None =>
      match rest with
      | [] => None
      | x :: rest' => search_from r rest' (advance x st)
      end
  end.

Definition st0 : mstate := MState 0 None None.

(** [re.search(r, s)]: the leftmost match. *)
Definition search (r : regex) (s : pystr) : option rematch :=
  search_from r s st0.

(** [m.group(1)] on subject [s] *)
Definition group1 (s : pystr) (m : rematch) : option pystr :=
  match mt_grp m with
  | Some (b, e) => Some (take (e - b) (drop b s))
  | None => None
  end.

(** [re.sub(r, repl, s)] for a string [repl]: every non-overlapping
    match, scanning from the left, is replaced by the expansion of the
    template [repl].  [expand repl matched] is that expansion, [None]
    when [re] rejects the template.  [skip] counts the characters of the
    current match still to be dropped.  None of the patterns below can
    match the empty string; should a pattern do so, the replacement is
    emitted and the scan moves on by one character. *)
Fixpoint sub_scan (expand : pystr -> pystr -> option pystr)
    (r : regex) (repl : pystr) (rest : pystr) (st : mstate) (skip : nat)
  : option pystr :=
  match skip with
  | S n =>
      match rest with
      | [] => Some []
      | x :: rest' => sub_scan expand r repl rest' (advance x st) n
      end
  | 0 =>
      match match_here r rest st with
      | Some (_, st') =>
          let len := m_pos st' - m_pos st in
          out ← expand repl (take len rest);
          match rest with
          | [] => Some out
          | x :: rest' =>
              match len with
              | 0 => tl ← sub_scan expand r repl rest' (advance x st) 0;
                     Some (out ++ x :: tl)
              | S n => tl ← sub_scan expand r repl rest' (advance x st) n;
                       Some (out ++ tl)
              end
          end
      | None =>
          match rest with
          | [] => Some []
          | x :: rest' =>
              tl ← sub_scan expand r repl rest' (advance x st) 0;
              Some (x :: tl)
          end
      end
  end.

Definition sub (expand : pystr -> pystr -> option pystr)
    (r : regex) (repl : pystr) (s : pystr) : option pystr :=
  sub_scan expand r repl s st0 0.

End Re.
Export Re.

(** ** update-tech-debt-index.py *)

Module TechDebt.

(** [s[a:b]] for non-negative indices *)
Definition slice (a b : nat) (s : pystr) : pystr := take (b - a) (drop a s).

(** [EXCLUDE_FILES], [PRIORITY_ORDER] *)
Definition EXCLUDE_FILES : list pystr := [py "README.md"; py "_TEMPLATE.md"].
Definition PRIORITY_ORDER : list pystr := [py "high"; py "medium"; py "low"].

(** The pattern [\n---\n] *)
Definition delim_re : regex := RLit (nl :: py "---" ++ [nl]).

(** *** parse_frontmatter *)

(** The quote removal of the loop body. *)
Definition unquote (value : pystr) : pystr :=
  if startswith [dquote] value && endswith [dquote] value then slice_1_m1 value
  else if startswith [squote] value && endswith [squote] value
       then slice_1_m1 value
       else value.

(** [key, value = parts]: raises unless there are exactly two parts. *)
Definition unpack2 (parts : list pystr) : option (pystr * pystr) :=
  match parts with
  | [a; b] => Some (a, b)
  | _ => None
  end.

(** One turn of the loop over the lines. *)
Definition parse_line (frontmatter : gmap pystr pystr) (line : pystr)
  : option (gmap pystr pystr) :=
  if contains_char colon line then
    '(key, value) ← unpack2 (split1 colon line);
    let key := strip key in
    let value := unquote (strip value) in
    Some (<[key := value]> frontmatter)
  else Some frontmatter.

Fixpoint parse_lines (frontmatter : gmap pystr pystr) (lines : list pystr)
  : option (gmap pystr pystr) :=
  match lines with
  | [] => Some frontmatter
  | line :: lines' =>
      frontmatter' ← parse_line frontmatter line;
      parse_lines frontmatter' lines'
  end.

Definition parse_frontmatter (content : pystr) : option (gmap pystr pystr) :=
  if negb (startswith (py "---") content) then Some ∅
  else
    match search delim_re (drop 3 content) with
    | None => Some ∅
    | Some end_match =>
        let yaml_content := slice 4 (mt_start end_match + 4) content in
        parse_lines ∅ (split nl (strip yaml_content))
    end.

(** The mapping as the specification words it, from the lines between
    the two delimiter lines: a line without colon is ignored; any other
    line is cut at its first colon, key and value are trimmed, one layer
    of surrounding quotes (double or single) is taken off the value when
    both of its ends carry it, and a later line overwrites an earlier one
    of the same key. *)
Fixpoint cut_at_colon (line : pystr) : option (pystr * pystr) :=
  match line with
  | [] => None
  | c :: line' =>
      if (c =? colon)%N then Some ([], line')
      else (λ kv, (c :: kv.1, kv.2)) <$> cut_at_colon line'
  end.

Definition spec_unquote (v : pystr) : pystr :=
  match v with
  | q :: _ =>
      if ((q =? dquote) || (q =? squote))%N && bool_decide (last v = Some q)
      then removelast (tail v)
      else v
  | [] => []
  end.

Definition spec_entry (m : gmap pystr pystr) (line : pystr)
  : gmap pystr pystr :=
  match cut_at_colon line with
  | Some (k, v) => <[strip k := spec_unquote (strip v)]> m
  | None => m
  end.

Definition spec_frontmatter (lines : list pystr) : gmap pystr pystr :=
  fold_left spec_entry lines ∅.

(** Lines written out as text, each ended by a newline. *)
Definition unlines (lines : list pystr) : pystr :=
  concat (map (λ l, l ++ [nl]) lines).

(** A text with a frontmatter block: the opening line, the lines of the
    block, the closing line and what follows it. *)
Definition frontmatter_text (lines : list pystr) (tail : pystr) : pystr :=
  py "---" ++ [nl] ++ unlines lines ++ py "---" ++ [nl] ++ tail.

(** An entry written out as a line: the key, a colon, a space and the
    written value. *)
Definition entry_line (k w : pystr) : pystr := k ++ py ": " ++ w.

(** [w] is a way to write the value [v] in an entry: as it is, when
    trimming and quote removal leave it alone, or between a pair of
    double or of single quotes. *)
Definition writes (v w : pystr) : Prop :=
  (w = v ∧ strip v = v ∧ unquote v = v)
  ∨ w = dquote :: v ++ [dquote] ∨ w = squote :: v ++ [squote].

(** What holds of every entry of a parsed mapping: the key is trimmed
    and has neither colon nor newline, the value has no newline. *)
Definition entry_ok (k v : pystr) : Prop :=
  strip k = k ∧ (colon ∉ k) ∧ (nl ∉ k) ∧ (nl ∉ v).

(** *** extract_title *)

(** The pattern [^#\s+(.+)$] with [re.MULTILINE] *)
Definition title_re : regex :=
  RSeq RBol
    (RSeq (RCls (CChar hash))
       (RSeq (RPlus CSpace)
          (RSeq (RGroup (RPlus CDot)) REol))).

(** The text left by the "skip frontmatter" step. *)
Definition skip_frontmatter (content : pystr) : pystr :=
  if startswith (py "---") content then
    match search delim_re (drop 3 content) with
    | Some end_match => drop (mt_end end_match + 4) content
    | None => content
    end
  else content.

Definition extract_title (content : pystr) : option pystr :=
  let content := skip_frontmatter content in
  match search title_re content with
  | Some m => g ← group1 content m; Some (strip g)
  | None => Some (py "Untitled")
  end.

(** Offset [i] of [body] is the start of a line. *)
Definition line_start (body : pystr) (i : nat) : Prop :=
  i = 0 ∨ body !! (i - 1) = Some nl.

(** At the line start [i] of [body] stands a [#], then one or more
    whitespace characters, then a character other than the newline:
    the places where the pattern of [extract_title] can match. *)
Definition heading_at (body : pystr) (i : nat) : Prop :=
  line_start body i ∧
  ∃ w c r, drop i body = hash :: w ++ c :: r ∧ w ≠ [] ∧
           Forall (λ x, is_space x = true) w ∧ c ≠ nl.

(** At the line start [i] of [body] stands a [#] followed by nothing
    but whitespace up to the end of a line. *)
Definition blank_heading_at (body : pystr) (i : nat) : Prop :=
  line_start body i ∧
  ∃ w r, drop i body = hash :: w ++ r ∧ w ≠ [] ∧
         Forall (λ x, is_space x = true) w ∧ (r = [] ∨ ∃ r', r = nl :: r').

(** The heading line of the specification: one [#], one space, then
    text. *)
Definition spec_title_line (l : pystr) : Prop :=
  ∃ t, t ≠ [] ∧ l = hash :: 32%N :: t.

(** *** scan_issues *)

(** The dictionaries built by [scan_issues]. *)
Record issue : Type := Issue {
  filename : pystr;
  title : pystr;
  priority : pystr;
  status : pystr;
  type : pystr;
  discovered : pystr
}.

(** The tech-debt directory: its entries in iteration order, each with
    its name and its text; [None] for an entry that [read_text] cannot
    read as UTF-8 text. *)
Definition directory : Type := list (pystr * option pystr).

(** [TECH_DEBT_DIR.glob("*.md")] *)
Definition glob_md (d : directory) : directory :=
  filter (fun e => endswith (py ".md") e.1 = true) d.

(** [d.get(key, default)] *)
Definition get (d : gmap pystr pystr) (key default : pystr) : pystr :=
  match d !! key with Some v => v | None => default end.

Definition scan_file (name content : pystr) : option issue :=
  frontmatter ← parse_frontmatter content;
  title ← extract_title content;
  Some {| filename := name;
          title := title;
          priority := get frontmatter (py "priority") (py "low");
          status := get frontmatter (py "status") (py "open");
          type := get frontmatter (py "type") (py "unknown");
          discovered := get frontmatter (py "discovered") [] |}.

Fixpoint scan_entries (entries : directory) : option (list issue) :=
  match entries with
  | [] => Some []
  | (name, text) :: entries' =>
      if bool_decide (name ∈ EXCLUDE_FILES) then scan_entries entries'
      else
        content ← text;
        i ← scan_file name content;
        issues ← scan_entries entries';
        Some (i :: issues)
  end.

Definition scan_issues (d : directory) : option (list issue) :=
  scan_entries (glob_md d).

(** *** generate_index_section *)

(** [str.lower] and [str.capitalize] on ASCII text. *)
Definition ascii_lower_char (c : char) : char :=
  if ((65 <=? c) && (c <=? 90))%N then (c + 32)%N else c.
Definition ascii_upper_char (c : char) : char :=
  if ((97 <=? c) && (c <=? 122))%N then (c - 32)%N else c.
Definition ascii_lower (s : pystr) : pystr := map ascii_lower_char s.
Definition capitalize (s : pystr) : pystr :=
  match s with
  | [] => []
  | c :: s' => ascii_upper_char c :: ascii_lower s'
  end.

(** [l.sort(key=lambda x: x['filename'])]: a stable sort by code point
    order of the file names. *)
Fixpoint insert_by_filename (x : issue) (l : list issue) : list issue :=
  match l with
  | [] => [x]
  | y :: l' =>
      if str_ltb (filename y) (filename x) then y :: insert_by_filename x l'
      else x :: l
  end.

Fixpoint sort_by_filename (l : list issue) : list issue :=
  match l with
  | [] => []
  | x :: l' => insert_by_filename x (sort_by_filename l')
  end.

(** The f-string [- `{filename}` - {title}] *)
Definition item_line (i : issue) : pystr :=
  py "- `" ++ filename i ++ py "` - " ++ title i.

(** A line of the section that lists an issue. *)
Definition is_item_line (l : pystr) : Prop := startswith (py "- `") l = true.

(** The order the buckets are sorted in: [a] does not come after [b]. *)
Definition filename_le (a b : issue) : Prop :=
  str_ltb (filename b) (filename a) = false.

Section Generator.

(** [str.lower]; on ASCII text it is [ascii_lower]. *)
Variable lower : pystr -> pystr.

(** [{p: [] for p in PRIORITY_ORDER}] *)
Definition by_priority_init : gmap pystr (list issue) :=
  list_to_map (map (fun p => (p, [])) PRIORITY_ORDER).

(** The grouping dictionary holds exactly the three declared keys. *)
Definition three_keys (by_priority : gmap pystr (list issue)) : Prop :=
  ∀ k, is_Some (by_priority !! k) ↔ k ∈ PRIORITY_ORDER.

(** The key under which the grouping loop files an issue. *)
Definition bucket_of (i : issue) : pystr :=
  if bool_decide (lower (priority i) ∈ PRIORITY_ORDER) then lower (priority i)
  else py "low".

(** One turn of the grouping loop. *)
Definition group_issue (by_priority : gmap pystr (list issue)) (i : issue)
  : option (gmap pystr (list issue)) :=
  let p := lower (priority i) in
  match by_priority !! p with
  | Some l => Some (<[p := l ++ [i]]> by_priority)
  | None =>
      l ← by_priority !! py "low";
      Some (<[py "low" := l ++ [i]]> by_priority)
  end.

Fixpoint group_issues (by_priority : gmap pystr (list issue))
    (issues : list issue) : option (gmap pystr (list issue)) :=
  match issues with
  | [] => Some by_priority
  | i :: issues' =>
      by_priority' ← group_issue by_priority i;
      group_issues by_priority' issues'
  end.

(** The grouped and sorted buckets. *)
Definition buckets (issues : list issue) : option (gmap pystr (list issue)) :=
  match group_issues by_priority_init issues with
  | Some by_priority => Some (sort_by_filename <$> by_priority)
  | None => None
  end.

(** The lines appended for one priority. *)
Definition priority_lines (by_priority : gmap pystr (list issue))
    (p : pystr) : option (list pystr) :=
  priority_issues ← by_priority !! p;
  let label := capitalize p in
  Some ((match priority_issues with
         | [] => [py "**" ++ label ++ py " Priority:** None currently"]
         | _ :: _ => (py "**" ++ label ++ py " Priority:**")
                       :: map item_line priority_issues
         end) ++ [[]]).

Fixpoint sections_lines (by_priority : gmap pystr (list issue))
    (ps : list pystr) : option (list pystr) :=
  match ps with
  | [] => Some []
  | p :: ps' =>
      ls ← priority_lines by_priority p;
      rest ← sections_lines by_priority ps';
      Some (ls ++ rest)
  end.

(** The list [lines] at the end of [generate_index_section]; [now] is
    [datetime.now().strftime('%Y-%m-%d %H:%M')]. *)
Definition index_lines (now : pystr) (issues : list issue)
  : option (list pystr) :=
  by_priority ← buckets issues;
  body ← sections_lines by_priority PRIORITY_ORDER;
  Some ([py "## Current Issues by Priority"; [];
         py "*Auto-updated: " ++ now ++ py "*"; []] ++ body).

Definition generate_index_section (now : pystr) (issues : list issue)
  : option pystr :=
  lines ← index_lines now issues;
  Some (join_nl lines).

End Generator.

(** *** update_readme *)

Definition HEADING : pystr := py "## Current Issues by Priority".

(** The pattern [## Current Issues by Priority.*?(?=\n## [^#]|\Z)] with
    [re.DOTALL] *)
Definition section_re : regex :=
  RSeq (RLit HEADING)
    (RSeq (RLazyStar CDotAll)
       (RAhead (RAlt (RSeq (RLit (nl :: py "## ")) (RCls (CNotChar hash)))
                     REnd))).

(** The pattern [\n## Integration] *)
Definition integration_re : regex := RLit (nl :: py "## Integration").

(** Where the region of [section_re] may end: at the end of the text,
    or just before a newline, [## ] and a character other than [#]
    (the lookahead of the pattern). *)
Definition boundary_at (t : pystr) : Prop :=
  t = [] ∨ ∃ c t', t = nl :: py "## " ++ c :: t' ∧ c ≠ hash.

Definition at_boundary (t : pystr) : bool :=
  match t with
  | [] => true
  | _ :: _ =>
      startswith (nl :: py "## ") t &&
      match drop 4 t with
      | c :: _ => negb (c =? hash)%N
      | [] => false
      end
  end.

(** The length of the text that [.*?] takes before the lookahead holds. *)
Fixpoint region_len (t : pystr) : nat :=
  if at_boundary t then 0
  else match t with
       | [] => 0
       | _ :: t' => S (region_len t')
       end.

(** [regions_replaced repl s out]: [out] is [s] with every region, from
    an occurrence of the heading text to the next boundary, replaced by
    [repl], the regions taken from the left and without overlap. *)
Inductive regions_replaced (repl : pystr) : pystr → pystr → Prop :=
| replaced_none s :
    find HEADING s = None → regions_replaced repl s s
| replaced_some s i out :
    find HEADING s = Some i →
    regions_replaced repl
      (drop (i + List.length HEADING
             + region_len (drop (i + List.length HEADING) s)) s) out →
    regions_replaced repl s (take i s ++ repl ++ out).

(** The first line of [frag] is the heading. *)
Definition first_line_is_heading (frag : pystr) : Prop :=
  ∃ tl, frag = HEADING ++ tl ∧ (tl = [] ∨ ∃ tl', tl = nl :: tl').

(** [s] holds no newline, [## ] and then a character other than [#]. *)
Definition no_inner_heading (s : pystr) : Prop :=
  ∀ a c b, s = a ++ nl :: py "## " ++ c :: b → c = hash.

(** [no_inner_heading] as a test. *)
Fixpoint inner_heading_free (s : pystr) : bool :=
  match s with
  | [] => true
  | _ :: s' => negb (at_boundary s) && inner_heading_free s'
  end.

(** A line without newline that is no second-level heading. *)
Definition plain_line (l : pystr) : Prop :=
  (nl ∉ l) ∧ startswith (py "## ") l = false.

(** An issue whose file name and title hold no newline. *)
Definition issue_plain (i : issue) : Prop :=
  (nl ∉ filename i) ∧ (nl ∉ title i).

(** Standard output, one constructor per [print] call of the script. *)
Inductive message : Type :=
| MsgScanning                              (* Scanning {TECH_DEBT_DIR}... *)
| MsgFound (n : nat)                       (* Found {n} issues *)
| MsgCount (label : pystr) (count : nat)   (*   {label}: {count} *)
| MsgReadmeNotFound                        (* ERROR: README not found at ... *)
| MsgUpdated                               (* Updated {README_FILE} *)
| MsgFailed.                               (* Failed to update README *)

(** How the process ends: [exit(code)] with the value [main] returned,
    or an exception nobody caught, on which the interpreter prints a
    traceback and ends with status 1. *)
Inductive outcome : Type :=
| Exit (code : nat)
| Uncaught.

Definition exit_status (o : outcome) : nat :=
  match o with
  | Exit code => code
  | Uncaught => 1
  end.

Definition README : pystr := py "README.md".

(** [README_FILE.exists()], [README_FILE.read_text()] and
    [README_FILE.write_text(text)] *)
Definition readme_entry (d : directory) : option (option pystr) :=
  snd <$> List.find (fun e => bool_decide (e.1 = README)) d.

Definition write_readme (text : pystr) (d : directory) : directory :=
  map (fun e => if bool_decide (e.1 = README) then (e.1, Some text) else e) d.

Section Replacer.

(** What [re.sub] makes of a replacement template in which a backslash
    occurs (escapes and group references), given the matched text;
    [None] when [re] raises on the template.  A template without
    backslash stands for itself. *)
Variable expand_escapes : pystr -> pystr -> option pystr.

Definition expand_template (repl matched : pystr) : option pystr :=
  if contains_char backslash repl then expand_escapes repl matched
  else Some repl.

(** The text transform inside [update_readme]: from the README's
    [content] and the new section to [new_content]. *)
Definition update_readme_text (content new_section : pystr) : option pystr :=
  match search section_re content with
  | Some _ =>
      sub expand_template section_re (rstrip new_section ++ [nl]) content
  | None =>
      match search integration_re content with
      | Some integration_match =>
          let insert_pos := mt_start integration_match in
          Some (take insert_pos content ++ [nl] ++ new_section ++ [nl]
                  ++ drop insert_pos content)
      | None => Some (rstrip content ++ [nl; nl] ++ new_section)
      end
  end.

(** [update_readme]: the directory afterwards, what was printed, and the
    returned flag ([None]: an exception went through). *)
Definition update_readme (new_section : pystr) (d : directory)
  : directory * list message * option bool :=
  match readme_entry d with
  | None => (d, [MsgReadmeNotFound], Some false)
  | Some None => (d, [], None)
  | Some (Some content) =>
      match update_readme_text content new_section with
      | Some new_content => (write_readme new_content d, [], Some true)
      | None => (d, [], None)
      end
  end.

(** *** main *)

Variable lower : pystr -> pystr.

(** The counts printed per priority: [main] counts the stored priority
    strings as they are. *)
Definition count_priority (p : pystr) (issues : list issue) : nat :=
  length (filter (fun i => priority i = p) issues).

Definition count_messages (issues : list issue) : list message :=
  omap (fun p =>
          let count := count_priority p issues in
          if bool_decide (0 < count) then Some (MsgCount (capitalize p) count)
          else None)
       PRIORITY_ORDER.

Definition main (now : pystr) (d : directory)
  : directory * list message * outcome :=
  match scan_issues d with
  | None => (d, [MsgScanning], Uncaught)
  | Some issues =>
      let out := [MsgScanning; MsgFound (length issues)]
                   ++ count_messages issues in
      match generate_index_section lower now issues with
      | None => (d, out, Uncaught)
      | Some new_section =>
          match update_readme new_section d with
          | (d', msgs, Some true) => (d', out ++ msgs ++ [MsgUpdated], Exit 0)
          | (d', msgs, Some false) => (d', out ++ msgs ++ [MsgFailed], Exit 1)
          | (d', msgs, None) => (d', out ++ msgs, Uncaught)
          end
      end
  end.

End Replacer.

End TechDebt.

(** ** session-archive.py *)

Module SessionArchive.

Definition slash : char := 47%N.
Definition dotdot : pystr := py "..".

(** *** Paths and the file system

    A [pathlib.Path] on POSIX: whether it starts at the root, and its
    components.  The constructor drops empty components and [.]
    components; [Path("")] is [Path(".")]. *)
Record path : Type := MkPath {
  absolute : bool;
  parts : list pystr
}.

Definition Path (s : pystr) : path :=
  MkPath (startswith [slash] s)
         (filter (λ c, c ≠ [] ∧ c ≠ py ".") (split slash s)).

(** The file system: a tree of directories and regular files, given by
    the node at each absolute location (a list of names from the root).
    There are no symbolic links, and every file can be read and every
    directory written to. *)
Inductive node : Type :=
| File (content : pystr)
| Dir.

Abbreviation filesystem := (gmap (list pystr) node) (only parsing).

Definition node_at (fs : filesystem) (p : list pystr) : option node :=
  match p with
  | [] => Some Dir
  | _ :: _ => fs !! p
  end.

Definition is_dir (fs : filesystem) (p : list pystr) : bool :=
  match node_at fs p with
  | Some Dir => true
  | _ => false
  end.

(** Every node but the root sits in a directory. *)
Definition well_formed (fs : filesystem) : Prop :=
  ∀ p n, fs !! p = Some n → p ≠ [] ∧ is_dir fs (removelast p) = true.

(** Path lookup as the operating system does it: from the location
    [cur], one component at a time, each step out of a directory; [..]
    leads to the parent (the root is its own parent). *)
Fixpoint walk (fs : filesystem) (cur : list pystr) (comps : list pystr)
  : option (list pystr) :=
  match comps with
  | [] => Some cur
  | c :: comps' =>
      if is_dir fs cur then
        walk fs (if bool_decide (c = dotdot) then removelast cur
                 else cur ++ [c]) comps'
      else None
  end.

(** The location a path names for a process whose working directory is
    [cwd]. *)
Definition locate (fs : filesystem) (cwd : list pystr) (p : path)
  : option (list pystr) :=
  walk fs (if absolute p then [] else cwd) (parts p).

(** [p.exists()] *)
Definition path_exists (fs : filesystem) (cwd : list pystr) (p : path)
  : bool :=
  match locate fs cwd p with
  | Some q => bool_decide (is_Some (node_at fs q))
  | None => false
  end.

(** [p.resolve()]: the absolute path with [..] taken out; without
    symbolic links this works on the names alone. *)
Definition normalize (comps : list pystr) : list pystr :=
  fold_left (λ acc c, if bool_decide (c = dotdot) then removelast acc
                      else acc ++ [c]) comps [].

Definition resolve (cwd : list pystr) (p : path) : list pystr :=
  normalize ((if absolute p then [] else cwd) ++ parts p).

(** [p.mkdir(parents=True, exist_ok=True)] for an absolute location
    [p]: [None] when a regular file is in the way. *)
Fixpoint mkdir_from (fs : filesystem) (cur : list pystr) (comps : list pystr)
  : option filesystem :=
  match comps with
  | [] => Some fs
  | c :: comps' =>
      match node_at fs (cur ++ [c]) with
      | Some Dir => mkdir_from fs (cur ++ [c]) comps'
      | Some (File _) => None
      | None =>
          if is_dir fs cur
          then mkdir_from (<[cur ++ [c] := Dir]> fs) (cur ++ [c]) comps'
          else None
      end
  end.

Definition mkdir_parents (fs : filesystem) (p : list pystr)
  : option filesystem :=
  mkdir_from fs [] p.

(** Where a file opened for writing under the absolute name [raw]
    lands: its directory must exist, and the name must not be one of a
    directory. *)
Definition open_for_writing (fs : filesystem) (raw : list pystr)
  : option (list pystr) :=
  d ← walk fs [] (removelast raw);
  c ← last raw;
  if is_dir fs d && negb (bool_decide (c = dotdot))
                 && negb (is_dir fs (d ++ [c]))
  then Some (d ++ [c]) else None.

(** [shutil.copy2(src, dst)] for an absolute [dst] given by its
    components: the source must be a regular file; a destination that is
    a directory receives the file under the source's name; source and
    target must differ.  [None] stands for the exception. *)
Definition copy2 (fs : filesystem) (cwd : list pystr) (src : path)
    (dst : list pystr) : option filesystem :=
  q ← locate fs cwd src;
  match node_at fs q with
  | Some (File content) =>
      let dst' :=
        match walk fs [] dst with
        | Some d => if is_dir fs d then dst ++ [default [] (last (parts src))]
                    else dst
        | None => dst
        end in
      target ← open_for_writing fs dst';
      if bool_decide (target = q) then None
      else Some (<[target := File content]> fs)
  | _ => None
  end.

(** *** find_project_root

    The loop climbs from the resolved start towards the root and stops
    at the root without testing it; [rev_current] is the current
    location, innermost name first. *)
Fixpoint search_up (fs : filesystem) (rev_current : list pystr)
  : option (list pystr) :=
  match rev_current with
  | [] => None
  | _ :: rev_parent =>
      let current := reverse rev_current in
      if path_exists fs [] (MkPath true (current ++ [py ".memory-bank"]))
      then Some current
      else search_up fs rev_parent
  end.

Definition find_project_root (fs : filesystem) (cwd : list pystr)
    (start_path : path) : list pystr :=
  match search_up fs (reverse (resolve cwd start_path)) with
  | Some current => current
  | None => resolve cwd start_path
  end.

(** [(current / ".memory-bank").exists()] *)
Definition has_memory_bank (fs : filesystem) (current : list pystr) : bool :=
  path_exists fs [] (MkPath true (current ++ [py ".memory-bank"])).

(** *** The clock

    [datetime.now()] and [strftime("%Y-%m-%d_%H%M")] (years of four
    digits). *)
Record datetime : Type := DateTime {
  year : nat; month : nat; day : nat; hour : nat; minute : nat
}.

Definition digit (n : nat) : char := N.of_nat (48 + n `mod` 10).

Fixpoint decimal_from (fuel n : nat) (acc : pystr) : pystr :=
  match fuel with
  | 0 => acc
  | S fuel' =>
      if n <? 10 then digit n :: acc
      else decimal_from fuel' (n `div` 10) (digit n :: acc)
  end.

(** [str(n)] *)
Definition decimal (n : nat) : pystr := decimal_from (S n) n [].

(** What a time stamp is made of: no slash. *)
Definition stamp_char (x : char) : Prop := x ≠ slash.

(** A field of two digits *)
Definition pad2 (n : nat) : pystr :=
  if n <? 10 then [48%N; digit n] else decimal n.

Definition strftime (t : datetime) : pystr :=
  decimal (year t) ++ py "-" ++ pad2 (month t) ++ py "-" ++ pad2 (day t)
    ++ py "_" ++ pad2 (hour t) ++ pad2 (minute t).

(** *** main *)

(** What the script prints, to standard output or standard error. *)
Inductive message : Type :=
| MsgParseError                      (* Failed to parse JSON input: ... *)
| MsgNotFound (transcript : path)    (* Transcript file not found: ... *)
| MsgArchived (root_name filename reason : pystr)
                                     (* Session archived to ... *)
| MsgCopyFailed.                     (* Failed to copy transcript: ... *)

(** How the process ends: [main] returns (status 0), [sys.exit(code)],
    or an exception nobody caught (a traceback and status 1). *)
Inductive outcome : Type :=
| Finished
| SysExit (code : nat)
| Uncaught.

Definition exit_status (o : outcome) : nat :=
  match o with
  | Finished => 0
  | SysExit code => code
  | Uncaught => 1
  end.

(** [data.get(key, default)] *)
Definition get (data : gmap pystr pystr) (key default : pystr) : pystr :=
  match data !! key with Some v => v | None => default end.

(** [session_id[:8] if len(session_id) >= 8 else session_id] *)
Definition short_id (session_id : pystr) : pystr :=
  if 8 <=? List.length session_id then take 8 session_id else session_id.

(** [main].  [stdin] is what [json.load] makes of the input: [None] for
    text that is not JSON, else the object, whose fields are strings.
    The result is the file system afterwards, the messages and the way
    the process ends. *)
Definition main (now : datetime) (stdin : option (gmap pystr pystr))
    (fs : filesystem) (cwd : list pystr)
  : gmap (list pystr) node * list message * outcome :=
  match stdin with
  | None => (fs, [MsgParseError], SysExit 1)
  | Some data =>
      let session_id := get data (py "session_id") (py "unknown") in
      let transcript_path := Path (get data (py "transcript_path") []) in
      let reason := get data (py "reason") (py "unknown") in
      let cwd_path := Path (get data (py "cwd") (py ".")) in
      let project_root := find_project_root fs cwd cwd_path in
      let destination_dir :=
        project_root ++ [py ".memory-bank"; py "sessions"] in
      match mkdir_parents fs destination_dir with
      | None => (fs, [], Uncaught)
      | Some fs1 =>
          if negb (path_exists fs1 cwd transcript_path) then
            (fs1, [MsgNotFound transcript_path], SysExit 1)
          else
            let timestamp := strftime now in
            let filename :=
              timestamp ++ py "_" ++ short_id session_id ++ py ".jsonl" in
            let destination_path :=
              destination_dir ++ parts (Path filename) in
            match copy2 fs1 cwd transcript_path destination_path with
            | Some fs2 =>
                (fs2,
                 [MsgArchived (default [] (last project_root)) filename reason],
                 Finished)
            | None => (fs1, [MsgCopyFailed], SysExit 1)
            end
      end
  end.

(** The input of the specification's example:
    [{"session_id":"abcdef1234","transcript_path":"/tmp/t.jsonl",
      "cwd":"/proj","reason":"exit"}] *)
Definition example_input : gmap pystr pystr :=
  <[py "session_id" := py "abcdef1234"]>
    (<[py "transcript_path" := py "/tmp/t.jsonl"]>
       (<[py "cwd" := py "/proj"]>
          (<[py "reason" := py "exit"]> ∅))).

(** A file system for the example: [/proj/.memory-bank] and
    [/tmp/t.jsonl]. *)
Definition example_fs : gmap (list pystr) node :=
  <[[py "proj"] := Dir]>
    (<[[py "proj"; py ".memory-bank"] := Dir]>
       (<[[py "tmp"] := Dir]>
          (<[[py "tmp"; py "t.jsonl"] := File (py "transcript")]> ∅))).

(** [/proj/.memory-bank/sessions] *)
Definition example_sessions : list pystr :=
  [py "proj"; py ".memory-bank"; py "sessions"].

End SessionArchive.

(** ** generate-index.py *)

Module GenerateIndex.

(** [DAYS_RECENT], [EXCLUDE_FOLDERS], [QUICK_LINKS] *)
Definition DAYS_RECENT : nat := 7.

Definition EXCLUDE_FOLDERS : list pystr := [py "scripts"; py "__pycache__"].

Definition QUICK_LINKS : list (pystr * pystr) :=
  [(py "Current Status", py "CURRENT-STATUS.md");
   (py "Tech Debt", py "tech-debt/README.md");
   (py "Specs", py "specs/README.md");
   (py "ADR", py "reference/decisions/README.md")].

(** *** Time

    A naive [datetime]: its day, as the proleptic Gregorian ordinal
    ([toordinal()], 1 for 0001-01-01), and the time of day in
    microseconds. *)
Record datetime : Type := Stamp {
  toordinal : nat;
  time_of_day : nat
}.

(** [(a - b).days]: the difference is normalised to days and a time of
    day that is not negative. *)
Definition days_between (a b : datetime) : Z :=
  (Z.of_nat (toordinal a) - Z.of_nat (toordinal b)
   + (if (time_of_day a <? time_of_day b)%nat then -1 else 0))%Z.

(** [a < b] on datetimes *)
Definition earlier (a b : datetime) : bool :=
  (toordinal a <? toordinal b)
  || (toordinal a =? toordinal b) && (time_of_day a <? time_of_day b).

(** [a - timedelta(days=n)]; [None] is the [OverflowError] for a result
    before 0001-01-01. *)
Definition minus_days (a : datetime) (n : nat) : option datetime :=
  if n <? toordinal a then Some (Stamp (toordinal a - n) (time_of_day a))
  else None.

(** [str(z)] for an integer *)
Definition str_int (z : Z) : pystr :=
  if (z <? 0)%Z then py "-" ++ SessionArchive.decimal (Z.to_nat (- z))
  else SessionArchive.decimal (Z.to_nat z).

(** *** The directory tree

    What the script sees of a directory entry: a regular file with its
    size in bytes and its modification time (as [datetime.fromtimestamp]
    gives it), a directory with its entries in the order [iterdir]
    yields them, or something that is neither.  There are no symbolic
    links, and every entry can be listed and [stat]ed. *)
#[local] Unset Elimination Schemes.
Inductive entry : Type :=
| File (st_size : nat) (st_mtime : datetime)
| Dir (children : list (pystr * entry))
| Other.
#[local] Set Elimination Schemes.

(** Induction on an entry, with the property at hand for the children
    of a directory. *)
Fixpoint entry_ind (P : entry -> Prop)
    (HFile : forall st_size st_mtime, P (File st_size st_mtime))
    (HDir : forall children, Forall (fun item => P item.2) children ->
                             P (Dir children))
    (HOther : P Other) (e : entry) : P e :=
  match e with
  | File st_size st_mtime => HFile st_size st_mtime
  | Dir children =>
      HDir children
        ((fix children_ind (l : list (pystr * entry))
            : Forall (fun item => P item.2) l :=
            match l with
            | [] => @List.Forall_nil _ _
            | item :: l' =>
                @List.Forall_cons _ _ item l'
                  (entry_ind P HFile HDir HOther item.2) (children_ind l')
            end) children)
  | Other => HOther
  end.

(** [e'] is what stands in [e] under the relative path [parts]. *)
Inductive at_path : entry -> list pystr -> entry -> Prop :=
| at_here e : at_path e [] e
| at_child children c e parts e' :
    (c, e) ∈ children -> at_path e parts e' ->
    at_path (Dir children) (c :: parts) e'.

(** The dictionaries of [scan_directory] *)
Record file_info : Type := FileInfo {
  name : pystr;
  path : pystr;
  size_kb : nat;
  mtime : datetime
}.

(** [sorted] and [list.sort]: a stable sort; [before y x] says that [y]
    has to come strictly before [x]. *)
Fixpoint insert_sorted {A : Type} (before : A -> A -> bool) (x : A)
    (l : list A) : list A :=
  match l with
  | [] => [x]
  | y :: l' => if before y x then y :: insert_sorted before x l' else x :: l
  end.

Fixpoint sort_stable {A : Type} (before : A -> A -> bool) (l : list A)
  : list A :=
  match l with
  | [] => []
  | x :: l' => insert_sorted before x (sort_stable before l')
  end.

(** A [dict] with string keys, in insertion order. *)
Definition dict (V : Type) : Type := list (pystr * V).

Fixpoint dict_get {V : Type} (d : dict V) (k : pystr) : option V :=
  match d with
  | [] => None
  | (k', v) :: d' => if bool_decide (k' = k) then Some v else dict_get d' k
  end.

(** [d[k] = v]: a key that is there keeps its place. *)
Fixpoint dict_set {V : Type} (d : dict V) (k : pystr) (v : V) : dict V :=
  match d with
  | [] => [(k, v)]
  | (k', v') :: d' =>
      if bool_decide (k' = k) then (k', v) :: d'
      else (k', v') :: dict_set d' k v
  end.

(** [d.update(other)] *)
Definition dict_update {V : Type} (d other : dict V) : dict V :=
  fold_left (fun d kv => dict_set d kv.1 kv.2) other d.

(** [if folder not in result: result[folder] = []] and then
    [result[folder].append(x)] *)
Definition dict_append {V : Type} (d : dict (list V)) (k : pystr) (x : V)
  : dict (list V) :=
  dict_set d k (default [] (dict_get d k) ++ [x]).

(** [str(p)] for a relative path given by its components; the path
    without components is [.]. *)
Definition slash : char := 47%N.
Definition dot : char := 46%N.

Fixpoint join_slash (parts : list pystr) : pystr :=
  match parts with
  | [] => []
  | [c] => c
  | c :: cs => c ++ slash :: join_slash cs
  end.

Definition path_str (parts : list pystr) : pystr :=
  match parts with
  | [] => py "."
  | _ :: _ => join_slash parts
  end.

(** [s.rfind(c)] *)
Fixpoint rfind (c : char) (s : pystr) : option nat :=
  match s with
  | [] => None
  | x :: s' =>
      match rfind c s' with
      | Some i => Some (S i)
      | None => if (x =? c)%N then Some 0 else None
      end
  end.

(** [PurePath.suffix] of a file name *)
Definition suffix (file_name : pystr) : pystr :=
  match rfind dot file_name with
  | Some i =>
      if (0 <? i) && (i <? List.length file_name - 1) then drop i file_name
      else []
  | None => []
  end.

(** [get_file_info] *)
Definition get_file_info (file_name : pystr) (st_size : nat)
    (st_mtime : datetime) : pystr * nat * datetime :=
  (file_name, st_size / 1024, st_mtime).

(** The key under which the files of the directory [parent] (its
    components relative to [relative_to]) are filed. *)
Definition folder_key (parent : list pystr) : pystr :=
  match parent with
  | [] => py "root"
  | _ :: _ => join_slash parent
  end.

(** [item.name.startswith(".") or item.name in EXCLUDE_FOLDERS] *)
Definition skipped (item_name : pystr) : bool :=
  startswith (py ".") item_name || bool_decide (item_name ∈ EXCLUDE_FOLDERS).

(** One turn of the loop of [scan_directory], for an item of the
    directory at [base] (components relative to [relative_to]): its
    name, what it is, and what the recursive call on it returns. *)
Definition scan_item (base : list pystr) (result : dict (list file_info))
    (item : pystr * (entry * dict (list file_info)))
  : dict (list file_info) :=
  let '(item_name, (e, sub_result)) := item in
  if skipped item_name then result
  else
    let rel_path := base ++ [item_name] in
    match e with
    | File st_size st_mtime =>
        if bool_decide (suffix item_name = py ".md") then
          let folder := folder_key base in
          let '(n, size, mt) := get_file_info item_name st_size st_mtime in
          dict_append result folder
            {| name := n; path := path_str rel_path; size_kb := size;
               mtime := mt |}
        else result
    | Dir _ => dict_update result sub_result
    | Other => result
    end.

(** The items of a directory in the order of [sorted(base_dir.iterdir())]:
    paths of one directory compare by their last component, in code
    point order. *)
Definition sorted_items {A : Type} (items : list (pystr * A))
  : list (pystr * A) :=
  sort_stable (fun y x => str_ltb y.1 x.1) items.

(** [scan_directory(base_dir, relative_to)] for a directory [base_dir]
    that exists, [base] being its components relative to [relative_to].
    The recursive calls are made along the list of children and their
    results used in the sorted order; a scan has no effect, so this is
    the loop of the source. *)
Fixpoint scan_entry (base : list pystr) (e : entry) : dict (list file_info) :=
  match e with
  | Dir children =>
      fold_left (scan_item base)
        (sorted_items
           (map (fun item =>
                   (item.1, (item.2, scan_entry (base ++ [item.1]) item.2)))
              children))
        []
  | _ => []
  end.

(** [scan_directory]: an empty result for a path that does not exist,
    [NotADirectoryError] ([None]) for one that is no directory. *)
Definition scan_directory (base_dir : option entry) (base : list pystr)
  : option (dict (list file_info)) :=
  match base_dir with
  | None => Some []
  | Some (Dir children) => Some (scan_entry base (Dir children))
  | Some _ => None
  end.

(** [(base_dir / path).exists()] for a relative path *)
Fixpoint lookup_path (e : entry) (parts : list pystr) : option entry :=
  match parts with
  | [] => Some e
  | c :: parts' =>
      match e with
      | Dir children =>
          match List.find (fun item => bool_decide (item.1 = c)) children with
          | Some item => lookup_path item.2 parts'
          | None => None
          end
      | _ => None
      end
  end.

Definition path_exists (base_dir : option entry) (p : pystr) : bool :=
  match base_dir with
  | Some e =>
      bool_decide
        (is_Some (lookup_path e
                    (filter (fun c => c ≠ [] ∧ c ≠ py ".") (split slash p))))
  | None => false
  end.

(** *** Predicates on trees and results

    A tree as a file system has it: no slash in a name, and no two
    entries of a directory under one name. *)
#[local] Unset Elimination Schemes.
Inductive proper : entry -> Prop :=
| proper_file st_size st_mtime : proper (File st_size st_mtime)
| proper_other : proper Other
| proper_dir children :
    NoDup (map fst children) ->
    Forall (fun item => (slash ∉ item.1) /\ proper item.2) children ->
    proper (Dir children).
#[local] Set Elimination Schemes.

(** A directory named [root] stands directly in [e]. *)
Definition has_root_folder (e : entry) : bool :=
  match e with
  | Dir children =>
      existsb (fun item =>
                 match item.2 with
                 | Dir _ => bool_decide (item.1 = py "root")
                 | _ => false
                 end)
        children
  | _ => false
  end.

Definition no_root_folder (base : list pystr) (e : entry) : Prop :=
  base = [] ->
  forall children ch, e = Dir children -> (py "root", Dir ch) ∉ children.

(** [d] is there and is no directory. *)
Definition not_a_directory (d : option entry) : bool :=
  match d with
  | Some (Dir _) | None => false
  | Some _ => true
  end.

(** What is said of a file [f] listed under [folder] by a scan of [e]
    at [base]: it is a Markdown file of [e] that no skipped name hides,
    filed under the key of its folder with its name, path, size and
    time. *)
Definition listed_ok (base : list pystr) (e : entry) (folder : pystr)
    (f : file_info) : Prop :=
  exists parent file_name st_size,
    at_path e (parent ++ [file_name]) (File st_size (mtime f)) /\
    Forall (fun c => skipped c = false) (parent ++ [file_name]) /\
    suffix file_name = py ".md" /\
    folder = folder_key (base ++ parent) /\
    f = {| name := file_name; path := path_str (base ++ parent ++ [file_name]);
           size_kb := st_size / 1024; mtime := mtime f |}.

(** The keys of a result: the folder itself, or a folder below one of
    [names]. *)
Definition keys_ok (base names : list pystr) (result : dict (list file_info))
  : Prop :=
  forall k, k ∈ map fst result ->
    k = folder_key base
    \/ exists n p, n ∈ names /\ k = folder_key (base ++ n :: p)
                   /\ Forall (fun c => slash ∉ c) (n :: p).

(** An item of the loop as the scan of a proper directory has it. *)
Definition item_ok (base : list pystr)
    (item : pystr * (entry * dict (list file_info))) : Prop :=
  (slash ∉ item.1) /\ proper item.2.1 /\
  item.2.2 = scan_entry (base ++ [item.1]) item.2.1.

Definition no_root_item (base : list pystr)
    (item : pystr * (entry * dict (list file_info))) : Prop :=
  base = [] -> forall ch, item.2.1 = Dir ch -> item.1 <> py "root".

Definition filed (result : dict (list file_info)) (folder : pystr)
    (x : file_info) : Prop :=
  exists files, dict_get result folder = Some files /\ x ∈ files.

(** From [result] to [result']: the folder's own list keeps its files,
    and the lists of the other folders stay as they are. *)
Definition grows (base : list pystr) (result result' : dict (list file_info))
  : Prop :=
  (forall x, filed result (folder_key base) x ->
             filed result' (folder_key base) x)
  /\ (forall k v, k <> folder_key base ->
                  dict_get result k = Some v -> dict_get result' k = Some v).

Section Index.

(** [dt.strftime(fmt)] *)
Variable strftime : pystr -> datetime -> pystr.

(** [format_file_entry] *)
Definition format_file_entry (info : file_info) (now : datetime) : pystr :=
  let days_ago := days_between now (mtime info) in
  let recent_marker :=
    if (days_ago <=? Z.of_nat DAYS_RECENT)%Z then py " **RECENT**" else [] in
  let date_str := strftime (py "%Y-%m-%d") (mtime info) in
  let size_str :=
    if 0 <? size_kb info then SessionArchive.decimal (size_kb info) ++ py "KB"
    else py "<1KB" in
  py "- [" ++ name info ++ py "](" ++ path info ++ py ") (" ++ size_str
    ++ py ", " ++ date_str ++ py ")" ++ recent_marker.

(** The quick link lines *)
Definition quick_link_line (development_dir : option entry)
    (link : pystr * pystr) : pystr :=
  let '(title, p) := link in
  if path_exists development_dir p then
    py "- [" ++ title ++ py "](" ++ p ++ py ")"
  else py "- " ++ title ++ py " *(file not found: " ++ p ++ py ")*".

(** The sort key of a folder: its place in [folder_order] by its first
    component, 99 for any other, and then the folder itself. *)
Definition folder_order : list pystr :=
  [py "root"; py "specs"; py "tech-debt"; py "reference"; py "archive"].

Fixpoint index_of (x : pystr) (l : list pystr) : option nat :=
  match l with
  | [] => None
  | y :: l' => if bool_decide (y = x) then Some 0 else S <$> index_of x l'
  end.

Definition folder_rank (folder : pystr) : nat :=
  default 99 (index_of (default [] (head (split slash folder))) folder_order).

Definition folder_before (y x : pystr) : bool :=
  (folder_rank y <? folder_rank x)
  || (folder_rank y =? folder_rank x) && str_ltb y x.

(** [files.sort(key=lambda x: x["mtime"], reverse=True)] *)
Definition newest_first (files : list file_info) : list file_info :=
  sort_stable (fun y x => earlier (mtime x) (mtime y)) files.

(** The lines of one folder of the development documentation; none for
    a folder without files. *)
Definition dev_folder_lines (now : datetime) (folder : pystr)
    (files : list file_info) : list pystr :=
  match files with
  | [] => []
  | _ :: _ =>
      let folder_display :=
        if bool_decide (folder = py "root") then py "(root)" else folder in
      [py "### " ++ folder_display ++ py "/ ("
         ++ SessionArchive.decimal (List.length files) ++ py " files)"; []]
        ++ map (fun f => format_file_entry f now) (newest_first files)
        ++ [[]]
  end.

(** The lines of one folder of the public documentation *)
Definition docs_folder_lines (now : datetime) (folder : pystr)
    (files : list file_info) : list pystr :=
  match files with
  | [] => []
  | _ :: _ =>
      [py "### " ++ folder ++ py "/"; []]
        ++ map (fun f => format_file_entry f now) files ++ [[]]
  end.

(** The files of the "Recently Modified" list: [recent_files[:10]] *)
Definition recent_files (cutoff : datetime) (all_files : list file_info)
  : list file_info :=
  take 10 (newest_first
             (filter (fun f => earlier cutoff (mtime f) = true) all_files)).

Definition recent_line (now : datetime) (i : nat) (f : file_info) : pystr :=
  let days := days_between now (mtime f) in
  let days_str :=
    if (days =? 0)%Z then py "today" else str_int days ++ py "d ago" in
  SessionArchive.decimal i ++ py ". [" ++ name f ++ py "](" ++ path f
    ++ py ") (" ++ days_str ++ py ")".

(** [generate_index], as the list of its lines.  [development_dir] and
    [docs_dir] are the two directories, [None] for one that does not
    exist; [now] is [datetime.now()]. *)
Definition index_lines (now : datetime) (development_dir docs_dir : option entry)
  : option (list pystr) :=
  let header :=
    [py "# INDEX - Sheet Atlas Development Documentation"; [];
     py "*Auto-generated: " ++ strftime (py "%Y-%m-%d %H:%M") now ++ py "*"; [];
     py "---"; []] in
  let quick :=
    [py "## Quick Links"; []]
      ++ map (quick_link_line development_dir) QUICK_LINKS
      ++ [[]; py "---"; []] in
  dev_files ← scan_directory development_dir [];
  let sorted_folders := sort_stable folder_before (map fst dev_files) in
  let dev :=
    [py "## Development Documentation (.development/)"; [];
     py "*Not committed to git - specs, tech-debt, decisions*"; []]
      ++ concat (map (fun folder =>
                        dev_folder_lines now folder
                          (default [] (dict_get dev_files folder)))
                   sorted_folders)
      ++ [py "---"; []] in
  (* the lists of [dev_files] are sorted in place by the loop above *)
  let dev_files := map (fun kv => (kv.1, newest_first kv.2)) dev_files in
  docs ←
    match docs_dir with
    | Some _ =>
        docs_files ← scan_directory docs_dir [py "docs"];
        Some (concat (map (fun folder =>
                             docs_folder_lines now folder
                               (default [] (dict_get docs_files folder)))
                        (sort_stable str_ltb (map fst docs_files))))
    | None => Some [py "*docs/ folder not found*"; []]
    end;
  let docs :=
    [py "## Public Documentation (docs/)"; [];
     py "*Committed to git - user-facing documentation*"; []]
      ++ docs ++ [py "---"; []] in
  let all_files := concat (map snd dev_files) in
  recent_cutoff ← minus_days now DAYS_RECENT;
  let recent :=
    match recent_files recent_cutoff all_files with
    | [] => [py "*No files modified in the last 7 days*"]
    | shown => imap (fun i f => recent_line now (S i) f) shown
    end in
  Some (header ++ quick ++ dev ++ docs
          ++ [py "## Recently Modified (last 7 days)"; []] ++ recent
          ++ [[]; py "---"; [];
              py "*Run `python .development/scripts/generate-index.py` to regenerate*"]).

Definition generate_index (now : datetime)
    (development_dir docs_dir : option entry) : option pystr :=
  lines ← index_lines now development_dir docs_dir;
  Some (join_nl lines).

End Index.

End GenerateIndex.

(** * Properties *)

(** A closed decidable proposition, settled by evaluating its decision
    procedure. *)
Ltac decide_by_compute :=
  match goal with
  | |- ?P => apply (@bool_decide_unpack P _); vm_compute; exact I
  end.

(** ** Strings *)

Section StringFacts.

Implicit Types (s t p : pystr) (c : char).

Lemma startswith_true p s : startswith p s = true ↔ ∃ t, s = p ++ t.
Proof.
  revert s. induction p as [|a p IH]; intros s; simpl.
  - split; [eauto | done].
  - destruct s as [|b s].
    + split; [done | intros [t Ht]; discriminate].
    + rewrite andb_true_iff, N.eqb_eq, IH. split.
      * intros [-> [t ->]]. eauto.
      * intros [t Ht]. injection Ht as -> ->. eauto.
Qed.

Lemma startswith_app p t : startswith p (p ++ t) = true.
Proof. apply startswith_true. eauto. Qed.

Lemma startswith_false p s : startswith p s = false ↔ ¬ ∃ t, s = p ++ t.
Proof.
  rewrite <- startswith_true. destruct (startswith p s); split; congruence.
Qed.

Lemma find_first_at p s i : find p s = Some i ↔ first_at p s i.
Proof.
  revert i. induction s as [|x s IH]; intros i.
  - cbn [find]. destruct (startswith p []) eqn:E.
    + split.
      * intros [= <-]. split_and!; [done | simpl; lia | intros; lia].
      * intros (H1 & H2 & H3). destruct i; [done|]. simpl in H2. lia.
    + split; [done|]. intros (H1 & H2 & H3).
      rewrite drop_nil in H1. congruence.
  - cbn [find]. destruct (startswith p (x :: s)) eqn:E.
    + split.
      * intros [= <-]. split_and!; [done | simpl; lia | intros; lia].
      * intros (H1 & H2 & H3). destruct i; [done|].
        specialize (H3 0 ltac:(lia)). simpl in H3. congruence.
    + destruct (find p s) as [k|]; simpl.
      * split.
        -- intros [= <-]. destruct (proj1 (IH k) eq_refl) as (H1 & H2 & H3).
           split_and!; [done | simpl; lia |].
           intros [|j] Hj; [done|]. simpl. apply H3. lia.
        -- intros (H1 & H2 & H3). destruct i as [|i]; [simpl in H1; congruence|].
           f_equal. enough (Some k = Some i) by congruence.
           apply IH. split_and!; [done | simpl in H2; lia |].
           intros j Hj. apply (H3 (S j)). lia.
      * split; [done|]. intros (H1 & H2 & H3).
        destruct i as [|i]; [simpl in H1; congruence|].
        enough (None = Some i) by done.
        apply IH. split_and!; [done | simpl in H2; lia |].
        intros j Hj. apply (H3 (S j)). lia.
Qed.

Lemma find_some_occurs p s i : find p s = Some i → occurs p s.
Proof.
  intros (H & _ & _)%find_first_at. apply startswith_true in H as [t Ht].
  exists (take i s), t. by rewrite <- Ht, take_drop.
Qed.

Lemma find_here p s : startswith p s = true → find p s = Some 0.
Proof. intros H. destruct s; simpl; by rewrite H. Qed.

Lemma occurs_find p a b :
  ∃ i, find p (a ++ p ++ b) = Some i ∧ i ≤ List.length a.
Proof.
  induction a as [|x a (i & IH & Hi)].
  - exists 0. split; [|simpl; lia]. simpl. apply find_here, startswith_app.
  - cbn [find app]. destruct (startswith p (x :: a ++ p ++ b)).
    + exists 0. split; [done | simpl; lia].
    + rewrite IH. exists (S i). split; [done | simpl; lia].
Qed.

Lemma find_none p s : find p s = None ↔ ¬ occurs p s.
Proof.
  split.
  - intros F (a & b & ->). destruct (occurs_find p a b) as (i & Hi & _).
    congruence.
  - intros N. destruct (find p s) as [i|] eqn:F; [|done].
    exfalso. eauto using find_some_occurs.
Qed.

End StringFacts.

(** ** The matcher on literal patterns *)

Section LiteralFacts.

Implicit Types (s t p rest : pystr) (st : mstate) (kont : mcont).

Lemma advance_by_pos p st : m_pos (advance_by p st) = m_pos st + List.length p.
Proof.
  revert st. induction p as [|x p IH]; intros st; simpl; [lia|].
  rewrite IH. simpl. lia.
Qed.

Lemma advance_by_grp p st : m_grp (advance_by p st) = m_grp st.
Proof. revert st. induction p as [|x p IH]; intros st; simpl; [done|]. by rewrite IH. Qed.

Lemma advance_by_app p q st :
  advance_by (p ++ q) st = advance_by q (advance_by p st).
Proof. revert st. induction p as [|x p IH]; intros st; simpl; [done|]. by rewrite IH. Qed.

(** A literal matches exactly when the text starts with it. *)
Lemma rmatch_lit p rest st kont :
  rmatch (RLit p) rest st kont =
  if startswith p rest then kont (drop (List.length p) rest) (advance_by p st)
  else None.
Proof.
  revert rest st. induction p as [|a p IH]; intros rest st; simpl.
  - by rewrite drop_0.
  - destruct rest as [|x rest]; [done|]. simpl.
    rewrite (N.eqb_sym a x). destruct (x =? a)%N eqn:E; [|done].
    apply N.eqb_eq in E as ->. simpl. apply IH.
Qed.

(** [re.search] of a literal is [str.find]. *)
Lemma search_from_lit p rest st :
  search_from (RLit p) rest st =
  (λ i, ReMatch (m_pos st + i) (m_pos st + i + List.length p) (m_grp st)
          (drop (i + List.length p) rest)) <$> find p rest.
Proof.
  revert st. induction rest as [|x rest IH]; intros st.
  - cbn [search_from find]. unfold match_here. rewrite rmatch_lit.
    destruct (startswith p []); simpl; [|done].
    rewrite advance_by_pos, advance_by_grp. do 2 f_equal; lia.
  - cbn [search_from find]. unfold match_here. rewrite rmatch_lit.
    destruct (startswith p (x :: rest)); simpl.
    + rewrite advance_by_pos, advance_by_grp. do 2 f_equal; lia.
    + rewrite IH. destruct (find p rest) as [i|]; simpl; [|done].
      do 2 f_equal; lia.
Qed.

Lemma search_lit p s :
  search (RLit p) s =
  (λ i, ReMatch i (i + List.length p) None (drop (i + List.length p) s))
    <$> find p s.
Proof. unfold search. by rewrite search_from_lit. Qed.

End LiteralFacts.

Import TechDebt.

(** ** parse_frontmatter *)

Section ParseFrontmatterFacts.

Implicit Types (line s : pystr) (fm : gmap pystr pystr).

(** [line.split(':', 1)] yields two parts whenever the line holds a
    colon, so the unpacking [key, value = ...] cannot raise. *)
Lemma split1_contains c line :
  contains_char c line = true →
  ∃ a b, split1 c line = [a; b] ∧ line = a ++ c :: b ∧ contains_char c a = false.
Proof.
  induction line as [|x line IH]; simpl; [done|].
  rewrite (N.eqb_sym c x). destruct (x =? c)%N eqn:E; simpl.
  - intros _. apply N.eqb_eq in E as ->. by exists [], line.
  - intros (a & b & -> & Hl & Ha)%IH. exists (x :: a), b.
    split_and!; [done | by rewrite Hl |].
    simpl. by rewrite (N.eqb_sym c x), E.
Qed.

Lemma parse_line_total fm line : ∃ fm', parse_line fm line = Some fm'.
Proof.
  unfold parse_line. destruct (contains_char colon line) eqn:E; [|eauto].
  apply split1_contains in E as (a & b & -> & _). simpl. eauto.
Qed.

Lemma parse_lines_total lines fm : ∃ fm', parse_lines fm lines = Some fm'.
Proof.
  revert fm. induction lines as [|l lines IH]; intros fm; simpl; [eauto|].
  destruct (parse_line_total fm l) as [fm' ->]. simpl. apply IH.
Qed.

Lemma search_delim_none s :
  ¬ occurs (nl :: py "---" ++ [nl]) s → search delim_re s = None.
Proof.
  intros H%find_none. unfold delim_re. by rewrite search_lit, H.
Qed.

Lemma parse_frontmatter_total (content : pystr) :
  ∃ frontmatter, parse_frontmatter content = Some frontmatter.
Proof.
  unfold parse_frontmatter. destruct (startswith _ content); simpl; [|eauto].
  destruct (search _ _); [apply parse_lines_total | eauto].
Qed.

(** C6.  [parse_frontmatter] is total: on every input it returns a mapping
    and raises nothing.  The mapping is empty when the text does not
    begin with the three characters [---], and when the text after those
    three characters holds no closing delimiter (a newline, [---] and a
    newline). *)
Theorem parse_frontmatter_never_raises (content : pystr) :
  (∃ frontmatter, parse_frontmatter content = Some frontmatter) ∧
  ((¬ ∃ t, content = py "---" ++ t) → parse_frontmatter content = Some ∅) ∧
  (¬ occurs (nl :: py "---" ++ [nl]) (drop 3 content) →
   parse_frontmatter content = Some ∅).
Proof.
  split; [apply parse_frontmatter_total|].
  unfold parse_frontmatter. split.
  - intros H%startswith_false. by rewrite H.
  - intros H%search_delim_none. rewrite H. by destruct (startswith _ _).
Qed.

Lemma parse_frontmatter_never_raises_witness :
  parse_frontmatter (py "# Title only") = Some ∅ ∧
  parse_frontmatter (pyl ["---"; "priority: high"; "no closing line"]) = Some ∅.
Proof.
  split.
  - apply (proj1 (proj2 (parse_frontmatter_never_raises (py "# Title only")))).
    intros [t Ht]. vm_compute in Ht. discriminate Ht.
  - apply (proj2 (proj2 (parse_frontmatter_never_raises
                           (pyl ["---"; "priority: high"; "no closing line"])))).
    apply find_none. vm_compute. reflexivity.
Defined.

End ParseFrontmatterFacts.

(** ** The example file of the specification *)

(** C2.  On the file text
    [---\npriority: High\nstatus: open\n---\n# Fix race condition\nDetails...]
    the scan builds a record with priority [High] and status [open], and
    the generator puts it in the bucket [high]; but the title of the
    record is the placeholder [Untitled], not [Fix race condition]: the
    frontmatter skip of [extract_title] drops one character more than
    the closing delimiter line, here the [#] of the heading. *)
Theorem scan_example_record :
  let content := pyl ["---"; "priority: High"; "status: open"; "---";
                      "# Fix race condition"; "Details..."] in
  let record := {| filename := py "file.md"; title := py "Untitled";
                   priority := py "High"; status := py "open";
                   type := py "unknown"; discovered := [] |} in
  skip_frontmatter content = pyl [" Fix race condition"; "Details..."] ∧
  extract_title content = Some (py "Untitled") ∧
  scan_file (py "file.md") content = Some record ∧
  (by_priority ← buckets ascii_lower [record]; by_priority !! py "high")
    = Some [record].
Proof. vm_compute. done. Qed.

(** ** extract_title *)

Section ExtractTitleFacts.

Implicit Types (s t rest body : pystr) (st : mstate) (kont : mcont).

Lemma lstrip_nil s : lstrip s = [] ↔ Forall (λ x, is_space x = true) s.
Proof.
  induction s as [|x s IH]; simpl; [by split|].
  destruct (is_space x) eqn:E.
  - rewrite IH. split; [by constructor | by inversion 1].
  - split; [done|]. inversion 1; congruence.
Qed.

Lemma rstrip_nil s : rstrip s = [] ↔ Forall (λ x, is_space x = true) s.
Proof.
  induction s as [|x s IH]; simpl; [by split|].
  destruct (rstrip s) eqn:R.
  - destruct (is_space x) eqn:E.
    + split; [intros _; constructor; [done | by apply IH] | done].
    + split; [done|]. inversion 1; congruence.
  - split; [done|]. inversion 1 as [|? ? _ H2]. apply IH in H2. done.
Qed.

Lemma Forall_space_lstrip s :
  Forall (λ x, is_space x = true) (lstrip s) → Forall (λ x, is_space x = true) s.
Proof.
  induction s as [|x s IH]; simpl; [done|].
  destruct (is_space x) eqn:E; [|done]. intros H. constructor; auto.
Qed.

Lemma strip_nil s : strip s = [] ↔ Forall (λ x, is_space x = true) s.
Proof.
  unfold strip. rewrite rstrip_nil. split.
  - apply Forall_space_lstrip.
  - intros H. apply lstrip_nil in H. rewrite H. constructor.
Qed.

(** What a successful greedy repetition has read. *)
Lemma plus_greedy_sound k rest st kont res :
  plus_greedy k rest st kont = Some res →
  ∃ w rest1, rest = w ++ rest1 ∧ w ≠ [] ∧
             Forall (λ x, cls_match k x = true) w ∧
             kont rest1 (advance_by w st) = Some res.
Proof.
  revert st. induction rest as [|x rest IH]; intros st; simpl; [done|].
  destruct (cls_match k x) eqn:E; [|done].
  destruct (plus_greedy k rest (advance x st) kont) as [r|] eqn:P.
  - intros [= <-]. apply IH in P as (w & rest1 & -> & _ & Hw & Hk).
    exists (x :: w), rest1. split_and!; [done | done | by constructor | done].
  - intros Hk. exists [x], rest. split_and!; [done | done | by repeat constructor | done].
Qed.

(** A match of the title pattern at the current position. *)
Lemma match_title_sound rest st after st' :
  match_here title_re rest st = Some (after, st') →
  (m_prev st = None ∨ m_prev st = Some nl) ∧
  ∃ w g, rest = hash :: w ++ g ++ after ∧
         w ≠ [] ∧ Forall (λ x, is_space x = true) w ∧
         g ≠ [] ∧ Forall (λ x, x ≠ nl) g ∧
         (after = [] ∨ ∃ r, after = nl :: r) ∧
         m_grp st' = Some (m_pos st + 1 + List.length w,
                           m_pos st + 1 + List.length w + List.length g).
Proof.
  unfold match_here, title_re. cbn [rmatch]. intros H.
  assert ((m_prev st = None ∨ m_prev st = Some nl) ∧
          rmatch (RCls (CChar hash)) rest st
            (λ rest' st', plus_greedy CSpace rest' st'
               (λ rest'0 st'0, plus_greedy CDot rest'0 st'0
                  (λ rest'1 st'1, rmatch REol rest'1 st'1
                     (λ rest'2 st'2,
                        Some (rest'2, set_grp (m_pos st'0) (m_pos st'2) st'2)))))
          = Some (after, st')) as [Hp H'].
  { destruct (m_prev st) as [p|]; [|by auto].
    destruct (p =? nl)%N eqn:E; [|done]. apply N.eqb_eq in E as ->. auto. }
  clear H. split; [done|]. cbn [rmatch] in H'.
  destruct rest as [|x rest]; [done|]. cbn [cls_match] in H'.
  destruct (x =? hash)%N eqn:E; [|done]. apply N.eqb_eq in E as ->.
  apply plus_greedy_sound in H' as (w & rest1 & -> & Hw1 & Hw2 & H').
  apply plus_greedy_sound in H' as (g & rest2 & -> & Hg1 & Hg2 & H').
  exists w, g. cbn [rmatch] in H'.
  assert (rest2 = after ∧ (after = [] ∨ ∃ r, after = nl :: r) ∧
          m_grp st' = Some (m_pos (advance_by w (advance hash st)),
                            m_pos (advance_by g (advance_by w (advance hash st)))))
    as (-> & Ha & Hgrp).
  { destruct rest2 as [|y rest2].
    - injection H' as <- <-. auto.
    - destruct (y =? nl)%N eqn:E; [|done]. apply N.eqb_eq in E as ->.
      injection H' as <- <-. eauto. }
  split_and!; try done.
  - eapply Forall_impl; [exact Hg2|]. simpl. intros y Hy ->. done.
  - rewrite Hgrp, !advance_by_pos. simpl. do 2 f_equal; lia.
Qed.

(** The leftmost match of the title pattern in [body], searched from
    offset [i] on. *)
Lemma search_title_sound body rest i st m :
  rest = drop i body → i ≤ List.length body → m_pos st = i →
  m_prev st = match i with 0 => None | S j => body !! j end →
  search_from title_re rest st = Some m →
  ∃ j w g after,
    mt_start m = j ∧ line_start body j ∧
    drop j body = hash :: w ++ g ++ after ∧
    w ≠ [] ∧ Forall (λ x, is_space x = true) w ∧
    g ≠ [] ∧ Forall (λ x, x ≠ nl) g ∧
    (after = [] ∨ ∃ r, after = nl :: r) ∧
    mt_grp m = Some (j + 1 + List.length w,
                     j + 1 + List.length w + List.length g).
Proof.
  revert i st m. induction rest as [|x rest IH]; intros i st m Hr Hi Hpos Hprev.
  - cbn [search_from]. destruct (match_here title_re [] st) as [[a s']|] eqn:M; [|done].
    apply match_title_sound in M as (_ & w & g & H & _). discriminate H.
  - cbn [search_from].
    destruct (match_here title_re (x :: rest) st) as [[a s']|] eqn:M.
    + intros [= <-]. simpl.
      apply match_title_sound in M as (Hp & w & g & H & Hw1 & Hw2 & Hg1 & Hg2 & Ha & Hgrp).
      exists i, w, g, a. rewrite Hpos in *. split_and!; try done.
      * unfold line_start. destruct i as [|i]; [by left | right].
        rewrite Hprev in Hp. destruct Hp as [Hp|Hp]; [|by rewrite Nat.sub_1_r].
        apply lookup_ge_None in Hp. exfalso. lia.
      * by rewrite <- Hr.
    + assert (body !! i = Some x) as Hx.
      { rewrite <- (Nat.add_0_r i), <- lookup_drop, <- Hr. done. }
      apply (IH (S i)).
      * rewrite (drop_S _ _ _ Hx) in Hr. congruence.
      * apply lookup_lt_Some in Hx. lia.
      * simpl. lia.
      * done.
Qed.

(** The two ways [extract_title] ends: no match and the placeholder, or
    the leftmost match and its trimmed capture. *)
Lemma extract_title_cases (content : pystr) :
  let body := skip_frontmatter content in
  (search title_re body = None ∧ extract_title content = Some (py "Untitled")) ∨
  (∃ j w g after,
     line_start body j ∧
     drop j body = hash :: w ++ g ++ after ∧
     w ≠ [] ∧ Forall (λ x, is_space x = true) w ∧
     g ≠ [] ∧ Forall (λ x, x ≠ nl) g ∧
     (after = [] ∨ ∃ r, after = nl :: r) ∧
     extract_title content = Some (strip g)).
Proof.
  intros body. unfold extract_title. fold body. unfold search.
  destruct (search_from title_re body st0) as [m|] eqn:S; [right | by left].
  apply (search_title_sound body body 0) in S
    as (j & w & g & after & Hj & Hl & Hd & Hw1 & Hw2 & Hg1 & Hg2 & Ha & Hgrp);
    [|done | lia | done | done].
  exists j, w, g, after. split_and!; try done.
  assert (group1 body m = Some g) as ->; [|done].
  unfold group1. rewrite Hgrp. f_equal.
  replace (j + 1 + List.length w + List.length g - (j + 1 + List.length w))
    with (List.length g) by lia.
  replace (j + 1 + List.length w) with (j + List.length (hash :: w))
    by (simpl; lia).
  rewrite <- drop_drop, Hd. cbn [drop List.length].
  by rewrite drop_app_length, take_app_length.
Qed.

Lemma extract_title_total (content : pystr) :
  ∃ t, extract_title content = Some t.
Proof.
  destruct (extract_title_cases content)
    as [[_ ->]|(j & w & g & after & _ & _ & _ & _ & _ & _ & _ & ->)]; eauto.
Qed.

(** C3 (as amended).  [extract_title] always returns a string.  It
    returns the placeholder [Untitled] when the text left by the
    frontmatter skip has no line start at which a [#] is followed by one
    or more whitespace characters and then by a character other than
    the newline.  It returns the empty string only when some line start
    carries a [#] followed by nothing but whitespace up to the end of a
    line. *)
Theorem extract_title_placeholder (content : pystr) :
  let body := skip_frontmatter content in
  (∃ t, extract_title content = Some t) ∧
  ((∀ i, ¬ heading_at body i) → extract_title content = Some (py "Untitled")) ∧
  (extract_title content = Some [] → ∃ i, blank_heading_at body i).
Proof.
  intros body. unfold body. clear body.
  split; [apply extract_title_total|].
  destruct (extract_title_cases content)
    as [[_ E]|(j & w & g & after & Hl & Hd & Hw1 & Hw2 & Hg1 & Hg2 & Ha & E)];
    rewrite E.
  - split; [done|]. intros [=].
  - split.
    + intros H. exfalso. apply (H j). split; [done|].
      destruct g as [|c g]; [done|]. exists w, c, (g ++ after).
      split_and!; try done. by inversion Hg2.
    + intros [= Hs]. apply strip_nil in Hs. exists j. split; [done|].
      exists (w ++ g), after. split_and!.
      * by rewrite <- app_assoc.
      * by destruct w.
      * by apply Forall_app.
      * done.
Qed.

Lemma extract_title_placeholder_witness :
  extract_title (py "text") = Some (py "Untitled") ∧
  ∃ i, blank_heading_at (py "#  ") i.
Proof.
  split.
  - apply (proj1 (proj2 (extract_title_placeholder (py "text")))).
    intros i (_ & w & c & r & H & _).
    do 4 (destruct i as [|i]; [discriminate H|]).
    destruct i; discriminate H.
  - apply (proj2 (proj2 (extract_title_placeholder (py "#  ")))).
    reflexivity.
Defined.

(** C3, as stated, fails.  The text [#] followed by two spaces has the
    title [""]; and the one-line text [#<TAB>foo] has no line of the form
    "one [#], one space, then text", yet its title is [foo]. *)
Lemma extract_title_counterexample :
  extract_title (py "#  ") = Some [] ∧
  (let content := [hash; 9%N] ++ py "foo" in
   (∀ l, l ∈ split nl (skip_frontmatter content) → ¬ spec_title_line l) ∧
   extract_title content = Some (py "foo")).
Proof.
  split; [reflexivity|]. split; [|reflexivity].
  intros l Hl [t [_ Ht]]. vm_compute in Hl.
  apply list_elem_of_singleton in Hl. subst l. discriminate Ht.
Qed.

End ExtractTitleFacts.

(** ** generate_index_section *)

Section GeneratorFacts.

Variable lower : pystr → pystr.

Implicit Types (i : issue) (l issues : list issue)
  (bp : gmap pystr (list issue)).

Lemma three_keys_init : three_keys by_priority_init.
Proof.
  intros k. unfold by_priority_init, PRIORITY_ORDER. simpl.
  rewrite !lookup_insert. repeat case_decide; subst.
  - split; [intros _; set_solver | eauto].
  - split; [intros _; set_solver | eauto].
  - split; [intros _; set_solver | eauto].
  - rewrite lookup_empty. split; [by intros [? ?]|].
    intros Hin. set_unfold in Hin. naive_solver.
Qed.

Lemma three_keys_insert bp k l :
  three_keys bp → k ∈ PRIORITY_ORDER → three_keys (<[k := l]> bp).
Proof.
  intros H Hk k'. rewrite lookup_insert. case_decide; subst.
  - split; eauto.
  - apply H.
Qed.

(** One grouping step: it cannot raise, each bucket keeps what it had,
    and a record of undeclared priority is appended to [low]. *)
Lemma group_issue_spec bp i :
  three_keys bp →
  ∃ bp', group_issue lower bp i = Some bp' ∧ three_keys bp' ∧
         (∀ k l x, bp !! k = Some l → x ∈ l →
                   ∃ l', bp' !! k = Some l' ∧ x ∈ l') ∧
         (lower (priority i) ∉ PRIORITY_ORDER →
          ∃ l', bp' !! py "low" = Some l' ∧ i ∈ l').
Proof.
  intros Hk. unfold group_issue.
  destruct (bp !! lower (priority i)) as [l|] eqn:E.
  - assert (lower (priority i) ∈ PRIORITY_ORDER) as Hin by (apply Hk; eauto).
    eexists. split_and!; [done | by apply three_keys_insert | | done].
    intros k l0 x Hl Hx. rewrite lookup_insert. case_decide; subst.
    + rewrite E in Hl. injection Hl as ->. eexists. split; [done|].
      set_solver.
    + eauto.
  - assert (py "low" ∈ PRIORITY_ORDER) as Hlow by (unfold PRIORITY_ORDER; set_solver).
    destruct (proj2 (Hk _) Hlow) as [l Hl]. rewrite Hl. simpl.
    eexists. split_and!; [done | by apply three_keys_insert | |].
    + intros k l0 x Hl0 Hx. rewrite lookup_insert. case_decide; subst.
      * rewrite Hl in Hl0. injection Hl0 as ->. eexists. split; [done|].
        set_solver.
      * eauto.
    + intros _. rewrite lookup_insert_eq. eexists. split; [done|]. set_solver.
Qed.

Lemma group_issues_spec issues bp :
  three_keys bp →
  ∃ bp', group_issues lower bp issues = Some bp' ∧ three_keys bp' ∧
         (∀ k l x, bp !! k = Some l → x ∈ l →
                   ∃ l', bp' !! k = Some l' ∧ x ∈ l') ∧
         (∀ i, i ∈ issues → lower (priority i) ∉ PRIORITY_ORDER →
               ∃ l', bp' !! py "low" = Some l' ∧ i ∈ l').
Proof.
  revert bp. induction issues as [|j issues IH]; intros bp Hk; simpl.
  - exists bp. split_and!; [done | done | eauto | intros i Hi; set_solver].
  - destruct (group_issue_spec bp j Hk) as (bp1 & -> & Hk1 & Hkeep1 & Hlow1).
    simpl. destruct (IH bp1 Hk1) as (bp2 & -> & Hk2 & Hkeep2 & Hlow2).
    exists bp2. split_and!; [done | done | |].
    + intros k l x Hl Hx. destruct (Hkeep1 k l x Hl Hx) as (l1 & Hl1 & Hx1).
      eauto.
    + intros i Hi Hp. apply elem_of_cons in Hi as [->|Hi]; [|eauto].
      destruct (Hlow1 Hp) as (l1 & Hl1 & Hx1). eauto.
Qed.

(** The sort keeps the elements. *)
Lemma insert_by_filename_elem x y l :
  x ∈ insert_by_filename y l ↔ x = y ∨ x ∈ l.
Proof.
  induction l as [|z l IH]; simpl; [set_solver|].
  destruct (str_ltb (filename z) (filename y)); set_solver.
Qed.

Lemma sort_by_filename_elem x l : x ∈ sort_by_filename l ↔ x ∈ l.
Proof.
  induction l as [|y l IH]; simpl; [done|].
  rewrite insert_by_filename_elem. set_solver.
Qed.

Lemma priority_lines_nonempty bp p x l :
  bp !! p = Some (x :: l) →
  priority_lines bp p =
  Some (((py "**" ++ capitalize p ++ py " Priority:**")
           :: map item_line (x :: l)) ++ [[]]).
Proof. intros H. unfold priority_lines. by rewrite H. Qed.

Lemma priority_lines_total bp p :
  three_keys bp → p ∈ PRIORITY_ORDER → ∃ ls, priority_lines bp p = Some ls.
Proof.
  intros Hk Hp. destruct (proj2 (Hk p) Hp) as [l Hl].
  unfold priority_lines. rewrite Hl. simpl. eauto.
Qed.

Lemma three_keys_fmap bp (f : list issue → list issue) :
  three_keys bp → three_keys (f <$> bp).
Proof.
  intros H k. rewrite lookup_fmap, <- (H k). unfold is_Some.
  destruct (bp !! k); simpl; naive_solver.
Qed.

Lemma sections_lines_total bp ps :
  three_keys bp → Forall (λ p, p ∈ PRIORITY_ORDER) ps →
  ∃ ls, sections_lines bp ps = Some ls.
Proof.
  intros Hk. induction 1 as [|p ps Hp _ [ls IH]]; simpl; [eauto|].
  destruct (priority_lines_total bp p Hk Hp) as [l ->]. rewrite IH.
  simpl. eauto.
Qed.

(** [generate_index_section] raises on no list of records. *)
Lemma generate_index_section_total now issues :
  ∃ text, generate_index_section lower now issues = Some text.
Proof.
  destruct (group_issues_spec issues by_priority_init three_keys_init)
    as (bp & Hg & Hk & _).
  destruct (sections_lines_total (sort_by_filename <$> bp) PRIORITY_ORDER)
    as [ls Hls]; [by apply three_keys_fmap | by apply Forall_forall |].
  unfold generate_index_section, index_lines, buckets.
  rewrite Hg. cbn [mbind option_bind]. rewrite Hls. cbn [mbind option_bind].
  eauto.
Qed.


End GeneratorFacts.


(** ** parse_frontmatter against the specification's wording *)

Section FrontmatterRefinement.

Implicit Types (line l s t v k : pystr) (m : gmap pystr pystr) (w c : char).

Lemma is_space_colon w : is_space w = true → w ≠ colon.
Proof. by intros H ->. Qed.

Lemma rstrip_snoc_space s w : is_space w = true → rstrip (s ++ [w]) = rstrip s.
Proof.
  intros Hw. induction s as [|x s IH]; simpl; [by rewrite Hw|]. by rewrite IH.
Qed.

Lemma lstrip_snoc_space s w :
  is_space w = true →
  lstrip (s ++ [w]) = match lstrip s with [] => [] | _ :: _ => lstrip s ++ [w] end.
Proof.
  intros Hw. induction s as [|x s IH]; simpl; [by rewrite Hw|].
  by destruct (is_space x).
Qed.

Lemma strip_cons_space s w : is_space w = true → strip (w :: s) = strip s.
Proof. intros Hw. unfold strip. simpl. by rewrite Hw. Qed.

Lemma strip_snoc_space s w : is_space w = true → strip (s ++ [w]) = strip s.
Proof.
  intros Hw. unfold strip. rewrite lstrip_snoc_space by done.
  destruct (lstrip s) eqn:E; [done|]. by rewrite rstrip_snoc_space.
Qed.

(** The code's cut of a line agrees with the specification's. *)
Lemma contains_char_cut line :
  contains_char colon line = false → cut_at_colon line = None.
Proof.
  unfold contains_char.
  induction line as [|x line IH]; cbn [existsb cut_at_colon]; [done|].
  rewrite (N.eqb_sym colon x).
  destruct (x =? colon)%N; cbn [orb]; [done|]. intros H. by rewrite IH.
Qed.

Lemma split1_cut line :
  contains_char colon line = true →
  ∃ a b, split1 colon line = [a; b] ∧ cut_at_colon line = Some (a, b).
Proof.
  unfold contains_char.
  induction line as [|x line IH]; cbn [existsb cut_at_colon split1]; [done|].
  rewrite (N.eqb_sym colon x).
  destruct (x =? colon)%N; cbn [orb]; [eauto|].
  intros (a & b & -> & ->)%IH. simpl. eauto.
Qed.

Lemma endswith_single q v : endswith [q] v = bool_decide (last v = Some q).
Proof.
  unfold endswith. rewrite <- head_reverse.
  change (reverse [q]) with [q].
  destruct (reverse v) as [|y r]; cbn [startswith head].
  - by rewrite bool_decide_eq_false_2.
  - rewrite andb_true_r. destruct (q =? y)%N eqn:E.
    + apply N.eqb_eq in E as ->. by rewrite bool_decide_eq_true_2.
    + apply N.eqb_neq in E. rewrite bool_decide_eq_false_2; [done|]. congruence.
Qed.

Lemma unquote_spec v : unquote v = spec_unquote v.
Proof.
  unfold unquote, spec_unquote, slice_1_m1. rewrite !endswith_single.
  destruct v as [|q v]; [done|]. cbn [startswith]. rewrite !andb_true_r.
  rewrite (N.eqb_sym dquote q), (N.eqb_sym squote q).
  destruct (q =? dquote)%N eqn:E1; simpl.
  - apply N.eqb_eq in E1 as ->. by case_bool_decide.
  - destruct (q =? squote)%N eqn:E2; simpl; [|done].
    apply N.eqb_eq in E2 as ->. by case_bool_decide.
Qed.

Lemma parse_line_spec m line : parse_line m line = Some (spec_entry m line).
Proof.
  unfold parse_line, spec_entry.
  destruct (contains_char colon line) eqn:E.
  - apply split1_cut in E as (a & b & -> & ->). simpl. by rewrite unquote_spec.
  - by rewrite contains_char_cut.
Qed.

Lemma parse_lines_spec lines m :
  parse_lines m lines = Some (fold_left spec_entry lines m).
Proof.
  revert m. induction lines as [|l lines IH]; intros m; simpl; [done|].
  rewrite parse_line_spec. simpl. apply IH.
Qed.

(** [split] on text with and without newlines *)
Lemma split_cons_nl s : split nl (nl :: s) = [] :: split nl s.
Proof. done. Qed.

Lemma split_cons_other c s :
  c ≠ nl →
  split nl (c :: s) = match split nl s with
                      | [] => [[c]]
                      | l :: ls => (c :: l) :: ls
                      end.
Proof. intros H%N.eqb_neq. cbn [split]. by rewrite H. Qed.

Lemma split_not_nil sep s : split sep s ≠ [].
Proof.
  destruct s as [|c s]; simpl; [done|].
  destruct (c =? sep)%N; [done|]. by destruct (split sep s).
Qed.

Lemma split_no_nl p : nl ∉ p → split nl p = [p].
Proof.
  induction p as [|c p IH]; [done|]. intros H.
  rewrite split_cons_other by set_solver. rewrite IH by set_solver. done.
Qed.

Lemma split_app_nl p s : nl ∉ p → split nl (p ++ nl :: s) = p :: split nl s.
Proof.
  induction p as [|c p IH]; [done|]. intros H. cbn [app].
  rewrite split_cons_other by set_solver. rewrite IH by set_solver. done.
Qed.

(** An entry does not depend on whitespace around its line. *)
Lemma spec_entry_cons_space m w l :
  is_space w = true → spec_entry m (w :: l) = spec_entry m l.
Proof.
  intros Hw. unfold spec_entry. cbn [cut_at_colon].
  pose proof (is_space_colon w Hw) as Hc%N.eqb_neq. rewrite Hc.
  destruct (cut_at_colon l) as [[k v]|]; simpl; [|done].
  by rewrite strip_cons_space.
Qed.

Lemma cut_at_colon_snoc l w :
  w ≠ colon →
  cut_at_colon (l ++ [w]) = (λ kv, (kv.1, kv.2 ++ [w])) <$> cut_at_colon l.
Proof.
  intros Hw%N.eqb_neq. induction l as [|x l IH]; cbn [app cut_at_colon].
  - by rewrite Hw.
  - destruct (x =? colon)%N; [done|]. rewrite IH.
    by destruct (cut_at_colon l) as [[k v]|].
Qed.

Lemma spec_entry_snoc_space m w l :
  is_space w = true → spec_entry m (l ++ [w]) = spec_entry m l.
Proof.
  intros Hw. unfold spec_entry.
  rewrite cut_at_colon_snoc by by apply is_space_colon.
  destruct (cut_at_colon l) as [[k v]|]; simpl; [|done].
  by rewrite strip_snoc_space.
Qed.

Lemma app_cons_snoc (p : pystr) c s : p ++ c :: s = (p ++ [c]) ++ s.
Proof. by rewrite <- app_assoc. Qed.

(** Whitespace after the last entry adds nothing. *)
Lemma entries_trailing_space ws p m :
  Forall (λ x, is_space x = true) ws → nl ∉ p →
  fold_left spec_entry (split nl (p ++ ws)) m = spec_entry m p.
Proof.
  intros Hws. revert p m. induction Hws as [|w ws Hw _ IH]; intros p m Hp.
  - rewrite app_nil_r, split_no_nl by done. done.
  - destruct (decide (w = nl)) as [->|Hn].
    + rewrite split_app_nl by done. cbn [fold_left].
      rewrite <- (app_nil_l ws), IH by set_solver. done.
    + rewrite (app_cons_snoc p w ws), IH by set_solver.
      by apply spec_entry_snoc_space.
Qed.

(** The block-wide [strip] of [parse_frontmatter] leaves the entries as
    they are. *)
Lemma entries_rstrip text p m :
  nl ∉ p →
  fold_left spec_entry (split nl (p ++ rstrip text)) m =
  fold_left spec_entry (split nl (p ++ text)) m.
Proof.
  revert p m. induction text as [|c text IH]; intros p m Hp; [done|].
  cbn [rstrip]. destruct (rstrip text) as [|y t] eqn:R.
  - apply rstrip_nil in R. destruct (is_space c) eqn:Ec.
    + rewrite app_nil_r, split_no_nl by done. cbn [fold_left].
      symmetry. apply entries_trailing_space; [by constructor | done].
    + assert (c ≠ nl) as Hc by (by intros ->).
      rewrite (app_cons_snoc p c text).
      rewrite (entries_trailing_space text (p ++ [c])); [|done|set_solver].
      rewrite split_no_nl by set_solver. done.
  - destruct (decide (c = nl)) as [->|Hc].
    + rewrite !split_app_nl by done. cbn [fold_left].
      rewrite <- (app_nil_l (y :: t)), <- (app_nil_l text).
      apply IH. set_solver.
    + rewrite (app_cons_snoc p c (y :: t)), (app_cons_snoc p c text).
      apply IH. set_solver.
Qed.

Lemma entries_lstrip text m :
  fold_left spec_entry (split nl (lstrip text)) m =
  fold_left spec_entry (split nl text) m.
Proof.
  revert m. induction text as [|c text IH]; intros m; [done|].
  cbn [lstrip]. destruct (is_space c) eqn:Ec; [|done].
  rewrite IH. destruct (decide (c = nl)) as [->|Hc].
  - by rewrite split_cons_nl.
  - rewrite split_cons_other by done.
    destruct (split nl text) as [|l ls] eqn:S.
    + by apply split_not_nil in S.
    + cbn [fold_left]. by rewrite spec_entry_cons_space.
Qed.

Lemma entries_strip text m :
  fold_left spec_entry (split nl (strip text)) m =
  fold_left spec_entry (split nl text) m.
Proof.
  unfold strip. rewrite <- (app_nil_l (rstrip _)), entries_rstrip by set_solver.
  apply entries_lstrip.
Qed.

Lemma unlines_cons l lines : unlines (l :: lines) = l ++ nl :: unlines lines.
Proof. unfold unlines. cbn [map concat]. by rewrite <- app_assoc. Qed.

Lemma entries_unlines lines m :
  Forall (λ l, nl ∉ l) lines →
  fold_left spec_entry (split nl (unlines lines)) m =
  fold_left spec_entry lines m.
Proof.
  intros H. revert m. induction H as [|l lines Hl _ IH]; intros m; [done|].
  rewrite unlines_cons, split_app_nl by done. cbn [fold_left]. apply IH.
Qed.

(** Where the search for the closing delimiter stops. *)
Lemma find_delim_skip_line l s :
  nl ∉ l →
  find (nl :: py "---" ++ [nl]) (l ++ nl :: s) =
  (λ i, List.length l + i) <$> find (nl :: py "---" ++ [nl]) (nl :: s).
Proof.
  induction l as [|c l IH]; intros Hl.
  - cbn [app]. generalize (find (nl :: py "---" ++ [nl]) (nl :: s)).
    by intros [i|].
  - assert (c ≠ nl) as Hc by set_solver. apply N.eqb_neq in Hc.
    specialize (IH ltac:(set_solver)).
    set (o := find (nl :: py "---" ++ [nl]) (nl :: s)) in *. clearbody o.
    cbn [app find startswith]. rewrite N.eqb_sym, Hc. cbn [andb].
    rewrite IH. by destruct o.
Qed.

Lemma startswith_closing l s :
  nl ∉ l → l ≠ py "---" → startswith (py "---" ++ [nl]) (l ++ nl :: s) = false.
Proof.
  intros Hl Hne. apply startswith_false. intros [t Ht].
  destruct l as [|a [|b [|c [|d l]]]]; try discriminate Ht.
  - injection Ht as -> -> -> _. done.
  - injection Ht as _ _ _ -> _. set_solver.
Qed.

Lemma find_delim_unlines lines tail :
  Forall (λ l, l ≠ py "---" ∧ nl ∉ l) lines →
  find (nl :: py "---" ++ [nl]) (nl :: unlines lines ++ py "---" ++ nl :: tail)
  = Some (List.length (unlines lines)).
Proof.
  induction 1 as [|l lines [Hne Hl] _ IH].
  - by apply find_here.
  - rewrite unlines_cons, <- app_assoc. cbn [app].
    change (find (nl :: py "---" ++ [nl])
              (nl :: l ++ nl :: unlines lines ++ py "---" ++ nl :: tail))
      with (if (nl =? nl)%N &&
               startswith (py "---" ++ [nl])
                 (l ++ nl :: unlines lines ++ py "---" ++ nl :: tail)
            then Some 0
            else S <$> find (nl :: py "---" ++ [nl])
                         (l ++ nl :: unlines lines ++ py "---" ++ nl :: tail)).
    rewrite startswith_closing, andb_false_r by done.
    rewrite find_delim_skip_line, IH by done. simpl.
    rewrite !length_app. simpl. f_equal. lia.
Qed.

(** C5 (as amended).  On a text whose first line is exactly [---] and
    which has a later line that is exactly [---] and is ended by a
    newline, [parse_frontmatter] returns the mapping the specification
    describes, read off the lines between the first line and the first
    such later line. *)
Theorem parse_frontmatter_refines_spec (lines : list pystr) (tail : pystr) :
  Forall (λ l, l ≠ py "---" ∧ nl ∉ l) lines →
  parse_frontmatter
    (py "---" ++ [nl] ++ unlines lines ++ py "---" ++ [nl] ++ tail)
  = Some (spec_frontmatter lines).
Proof.
  intros H. unfold parse_frontmatter.
  rewrite startswith_app. cbn [negb].
  change 3 with (List.length (py "---")) at 1. rewrite drop_app_length.
  unfold delim_re. rewrite search_lit.
  cbn [app]. rewrite find_delim_unlines by done. cbn [fmap option_fmap option_map mt_start].
  unfold slice. rewrite Nat.add_sub.
  change (drop 4 (py "---" ++ nl :: unlines lines ++ py "---" ++ nl :: tail))
    with (unlines lines ++ py "---" ++ nl :: tail).
  rewrite take_app_length, parse_lines_spec, entries_strip.
  rewrite entries_unlines; [done|].
  eapply Forall_impl; [exact H|]. by intros l [_ ?].
Qed.

Lemma parse_frontmatter_refines_spec_witness :
  parse_frontmatter
    (py "---" ++ [nl] ++ unlines [py "priority: High"; py " status : 'open' "]
       ++ py "---" ++ [nl] ++ py "# Title")
  = Some (spec_frontmatter [py "priority: High"; py " status : 'open' "]).
Proof.
  apply (parse_frontmatter_refines_spec
           [py "priority: High"; py " status : 'open' "] (py "# Title")).
  repeat (apply List.Forall_cons; [split; decide_by_compute|]).
  apply List.Forall_nil.
Defined.

(** C5, as stated, fails.  A closing line [---] that ends the text
    without a newline is a later line consisting solely of [---], yet the
    returned mapping is empty; and what follows [---] on the first line
    is read as an entry. *)
Lemma parse_frontmatter_counterexample :
  (let content := pyl ["---"; "a: b"; "---"] in
   startswith (py "---") content = true ∧
   split nl content = [py "---"; py "a: b"; py "---"] ∧
   spec_frontmatter [py "a: b"] !! py "a" = Some (py "b") ∧
   parse_frontmatter content = Some ∅) ∧
  (let content := pyl ["---x: 1"; "y: 2"; "---"; ""] in
   split nl content = [py "---x: 1"; py "y: 2"; py "---"; []] ∧
   spec_frontmatter [py "y: 2"] !! [] = None ∧
   (m ← parse_frontmatter content; m !! []) = Some (py "1")).
Proof. vm_compute. done. Qed.

End FrontmatterRefinement.

(** ** scan_issues, update_readme and main *)

Section MainFacts.

Variable expand_escapes : pystr → pystr → option pystr.
Variable lower : pystr → pystr.

Implicit Types (s t rest repl content : pystr) (st : mstate) (d : directory).

(** What [rstrip] removes is a run of whitespace at the end. *)
Lemma rstrip_split s :
  ∃ ws, s = rstrip s ++ ws ∧ Forall (λ x, is_space x = true) ws.
Proof.
  induction s as [|c s (ws & IH & Hws)]; simpl; [by exists []|].
  destruct (rstrip s) as [|y t] eqn:R.
  - destruct (is_space c) eqn:E.
    + exists (c :: s). split; [done|]. constructor; [done|]. by apply rstrip_nil.
    + exists ws. split; [|done]. simpl in IH. by rewrite <- IH.
  - exists ws. split; [|done]. by rewrite IH at 1.
Qed.

Lemma contains_char_app c s t :
  contains_char c (s ++ t) = contains_char c s || contains_char c t.
Proof. unfold contains_char. apply existsb_app. Qed.

Lemma rstrip_no_char c s :
  contains_char c s = false → contains_char c (rstrip s) = false.
Proof.
  destruct (rstrip_split s) as (ws & Hs & _). rewrite Hs at 1.
  rewrite contains_char_app. by intros [? _]%orb_false_elim.
Qed.

(** A template without backslash is taken literally. *)
Lemma expand_template_plain repl matched :
  contains_char backslash repl = false →
  expand_template expand_escapes repl matched = Some repl.
Proof. intros H. unfold expand_template. by rewrite H. Qed.

(** [re.sub] raises only through the template. *)
Lemma sub_scan_total expand r repl rest st skip :
  (∀ matched, is_Some (expand repl matched)) →
  is_Some (sub_scan expand r repl rest st skip).
Proof.
  intros He. revert st skip.
  induction rest as [|x rest IH]; intros st skip; cbn [sub_scan].
  - destruct skip; [|done].
    destruct (match_here r [] st) as [[a s']|]; [|done].
    destruct (He (take (m_pos s' - m_pos st) [])) as [out ->]. done.
  - destruct skip as [|n]; [|apply IH].
    destruct (match_here r (x :: rest) st) as [[a s']|].
    + destruct (He (take (m_pos s' - m_pos st) (x :: rest))) as [out ->].
      cbn [mbind option_bind].
      destruct (m_pos s' - m_pos st) as [|n].
      * destruct (IH (advance x st) 0) as [tl ->]. done.
      * destruct (IH (advance x st) n) as [tl ->]. done.
    + destruct (IH (advance x st) 0) as [tl ->]. done.
Qed.

Lemma update_readme_text_total content new_section :
  contains_char backslash new_section = false →
  ∃ new_content,
    update_readme_text expand_escapes content new_section = Some new_content.
Proof.
  intros Hb. unfold update_readme_text.
  destruct (search section_re content); [|destruct (search _ _); eauto].
  apply sub_scan_total. intros matched. rewrite expand_template_plain; [done|].
  rewrite contains_char_app, rstrip_no_char by done. done.
Qed.

(** The scan raises only on an entry it cannot read. *)
Lemma scan_file_total name content : ∃ i, scan_file name content = Some i.
Proof.
  unfold scan_file.
  destruct (parse_frontmatter_total content) as [fm ->].
  destruct (extract_title_total content) as [t ->]. simpl. eauto.
Qed.

Lemma scan_entries_total (entries : directory) :
  Forall (λ e, e.1 ∈ EXCLUDE_FILES ∨ is_Some e.2) entries →
  ∃ issues, scan_entries entries = Some issues.
Proof.
  induction 1 as [|[name text] entries He _ [issues IH]]; simpl; [eauto|].
  case_bool_decide as Hx; [eauto|]. simpl in He.
  destruct He as [He|[content ->]]; [done|]. simpl.
  destruct (scan_file_total name content) as [i ->]. simpl.
  rewrite IH. simpl. eauto.
Qed.


End MainFacts.



(** ** The region pattern of update_readme *)

Section RegionFacts.

Variable expand_escapes : pystr → pystr → option pystr.

Implicit Types (s t rest repl doc frag out : pystr) (st : mstate).

Lemma at_boundary_spec t : at_boundary t = true ↔ boundary_at t.
Proof.
  unfold boundary_at. destruct t as [|x t]; [by split; auto|].
  cbn [at_boundary]. rewrite andb_true_iff, startswith_true. split.
  - intros [[r Hr] Hc]. right. rewrite Hr in Hc |- *.
    change (drop 4 ((nl :: py "## ") ++ r)) with r in Hc.
    destruct r as [|c r]; [done|]. exists c, r. split; [done|].
    apply negb_true_iff, N.eqb_neq in Hc. done.
  - intros [?|(c & t' & Ht & Hc)]; [done|]. rewrite Ht. split.
    + by exists (c :: t').
    + change (drop 4 (nl :: py "## " ++ c :: t')) with (c :: t').
      by apply negb_true_iff, N.eqb_neq.
Qed.

(** The lookahead [(?=\n## [^#]|\Z)] *)
Lemma lookahead_spec t st (kont : mcont) :
  rmatch (RAhead (RAlt (RSeq (RLit (nl :: py "## ")) (RCls (CNotChar hash)))
                       REnd)) t st kont
  = if at_boundary t then kont t st else None.
Proof.
  cbn [rmatch]. rewrite rmatch_lit.
  destruct t as [|x t]; [done|]. cbn [at_boundary].
  destruct (startswith (nl :: py "## ") (x :: t)) eqn:E; [|done].
  cbn [andb].
  change (List.length (nl :: py "## ")) with 4.
  destruct (drop 4 (x :: t)) as [|c r]; [done|].
  cbn [cls_match]. by destruct (c =? hash)%N.
Qed.

Lemma region_len_le t : region_len t ≤ List.length t.
Proof.
  induction t as [|x t IH]; cbn [region_len]; [done|].
  destruct (at_boundary (x :: t)); simpl; lia.
Qed.

Lemma region_len_boundary t : at_boundary (drop (region_len t) t) = true.
Proof.
  induction t as [|x t IH]; cbn [region_len]; [done|].
  destruct (at_boundary (x :: t)) eqn:E; [done|]. exact IH.
Qed.

(** The lazy [.*?] under [re.DOTALL] before the lookahead. *)
Lemma star_lazy_region t st :
  star_lazy CDotAll t st
    (λ rest' st',
       rmatch (RAhead (RAlt (RSeq (RLit (nl :: py "## ")) (RCls (CNotChar hash)))
                            REnd)) rest' st'
         (λ rest'' st'', Some (rest'', st'')))
  = Some (drop (region_len t) t, advance_by (take (region_len t) t) st).
Proof.
  revert st. induction t as [|x t IH]; intros st.
  - cbn [star_lazy]. by rewrite lookahead_spec.
  - cbn [star_lazy region_len]. rewrite lookahead_spec.
    destruct (at_boundary (x :: t)); [done|].
    cbn [cls_match]. rewrite IH. done.
Qed.

(** A match of the region pattern at the current position. *)
Lemma match_section t st :
  match_here section_re t st =
  if startswith HEADING t then
    let n := List.length HEADING + region_len (drop (List.length HEADING) t) in
    Some (drop n t, advance_by (take n t) st)
  else None.
Proof.
  unfold match_here, section_re. cbn [rmatch]. rewrite rmatch_lit.
  destruct (startswith HEADING t) eqn:E; [|done].
  rewrite star_lazy_region. cbv zeta.
  apply startswith_true in E as [r ->].
  rewrite !drop_app_length, drop_app_add, take_app_add.
  by rewrite advance_by_app.
Qed.

Lemma heading_not_nil t : startswith HEADING t = true → t ≠ [].
Proof. by destruct t. Qed.

Lemma search_section_none rest st :
  search_from section_re rest st = None ↔ find HEADING rest = None.
Proof.
  revert st. induction rest as [|x rest IH]; intros st;
    cbn [search_from find]; rewrite match_section.
  - done.
  - destruct (startswith HEADING (x :: rest)); [done|].
    rewrite IH. by destruct (find HEADING rest).
Qed.

(** [re.sub] on the region pattern, with a template free of
    backslashes.  The scan does not depend on the match state. *)
Section SubSection.

Variable repl : pystr.
Hypothesis repl_plain : contains_char backslash repl = false.

Let scan := sub_scan (expand_template expand_escapes) section_re repl.

Lemma scan_nil st : scan [] st 0 = Some [].
Proof. unfold scan. cbn [sub_scan]. by rewrite match_section. Qed.

Lemma scan_state rest st st' skip : scan rest st skip = scan rest st' skip.
Proof.
  unfold scan. revert st st' skip.
  induction rest as [|x rest IH]; intros st st' skip; cbn [sub_scan].
  - destruct skip; [|done]. by rewrite !match_section.
  - destruct skip as [|n]; [|apply IH]. rewrite !match_section.
    destruct (startswith HEADING (x :: rest)).
    + cbv zeta. cbn [m_pos fst snd]. rewrite !advance_by_pos.
      rewrite !Nat.add_sub'.
      destruct (List.length (take _ (x :: rest))) as [|n].
      * by rewrite (IH (advance x st) (advance x st') 0).
      * by rewrite (IH (advance x st) (advance x st') n).
    + by rewrite (IH (advance x st) (advance x st')).
Qed.

Lemma scan_skip rest st n : scan rest st n = scan (drop n rest) st 0.
Proof.
  revert st n. induction rest as [|x rest IH]; intros st n.
  - rewrite drop_nil. destruct n; [done|]. by rewrite scan_nil.
  - destruct n as [|n]; [done|]. cbn [drop].
    change (scan (x :: rest) st (S n)) with (scan rest (advance x st) n).
    rewrite IH. apply scan_state.
Qed.

Lemma scan_match rest st :
  startswith HEADING rest = true →
  scan rest st 0 =
  tl ← scan (drop (List.length HEADING
                   + region_len (drop (List.length HEADING) rest)) rest) st 0;
  Some (repl ++ tl).
Proof.
  intros E. pose proof E as [r ->]%startswith_true.
  rewrite drop_app_length, drop_app_add.
  assert (∃ x r', HEADING ++ r = x :: r') as (x & r' & Hx) by by eexists _, _.
  unfold scan at 1. rewrite Hx. cbn [sub_scan]. rewrite <- Hx.
  rewrite match_section, E. cbv zeta. cbn [m_pos].
  rewrite drop_app_length, take_app_add, advance_by_pos, Nat.add_sub'.
  rewrite expand_template_plain by done. cbn [mbind option_bind].
  rewrite length_app, length_take_le by apply region_len_le.
  change (List.length HEADING + region_len r)
    with (S (List.length (tail HEADING) + region_len r)).
  fold scan. rewrite scan_skip, (scan_state _ (advance x st) st).
  replace r' with (tail HEADING ++ r) by (by injection Hx).
  by rewrite scan_skip, drop_app_add.
Qed.

Lemma scan_no_match x rest st :
  startswith HEADING (x :: rest) = false →
  scan (x :: rest) st 0 = tl ← scan rest st 0; Some (x :: tl).
Proof.
  intros E. unfold scan at 1. cbn [sub_scan]. rewrite match_section, E.
  fold scan. by rewrite (scan_state _ (advance x st) st).
Qed.

Lemma scan_prefix s i st :
  find HEADING s = Some i →
  scan s st 0 = tl ← scan (drop i s) st 0; Some (take i s ++ tl).
Proof.
  revert i. induction s as [|x s IH]; intros i; cbn [find].
  - destruct (startswith HEADING []) eqn:E; [done | done].
  - destruct (startswith HEADING (x :: s)) eqn:E.
    + intros [= <-]. cbn [drop take app].
      generalize (scan (x :: s) st 0). by intros [?|].
    + destruct (find HEADING s) as [j|]; [|done]. intros [= <-].
      rewrite scan_no_match by done. cbn [drop take].
      rewrite (IH j eq_refl).
      generalize (scan (drop j s) st 0). by intros [?|].
Qed.

Lemma scan_no_heading s st : find HEADING s = None → scan s st 0 = Some s.
Proof.
  induction s as [|x s IH]; cbn [find]; [by rewrite scan_nil|].
  destruct (startswith HEADING (x :: s)) eqn:E; [done|].
  destruct (find HEADING s); [done|]. intros _.
  rewrite scan_no_match by done. by rewrite IH.
Qed.

(** [re.sub] computes the replacement of the regions. *)
Lemma scan_replaced s out st :
  regions_replaced repl s out → scan s st 0 = Some out.
Proof.
  induction 1 as [s Hf|s i out Hf _ IH]; [by apply scan_no_heading|].
  rewrite (scan_prefix _ _ _ Hf).
  pose proof Hf as (Hs & _)%find_first_at.
  rewrite scan_match by done. rewrite !drop_drop.
  rewrite Nat.add_assoc, IH. done.
Qed.

End SubSection.

End RegionFacts.

(** ** update_readme: replacing the regions *)

Section ReplacerFacts.

Variable expand_escapes : pystr → pystr → option pystr.

Implicit Types (s t rest repl doc frag out pre body : pystr).

Lemma find_heading_length s i :
  find HEADING s = Some i →
  ∃ t, drop i s = HEADING ++ t ∧ i ≤ List.length s ∧
       s = take i s ++ HEADING ++ t.
Proof.
  intros (H1 & H2 & _)%find_first_at. apply startswith_true in H1 as [t Ht].
  exists t. split_and!; [done | done |]. by rewrite <- Ht, take_drop.
Qed.

(** Every text has its regions replaced in exactly one way. *)
Lemma regions_replaced_total repl s : ∃ out, regions_replaced repl s out.
Proof.
  remember (List.length s) as n eqn:Hn. revert s Hn.
  induction n as [n IH] using lt_wf_ind. intros s ->.
  destruct (find HEADING s) as [i|] eqn:Hf.
  - destruct (find_heading_length s i Hf) as (t & Hd & Hi & Hs).
    edestruct (IH (List.length
                     (drop (i + List.length HEADING
                            + region_len (drop (i + List.length HEADING) s)) s)))
      as [out Hout]; [|reflexivity|].
    + apply (f_equal List.length) in Hd.
      rewrite length_drop, length_app in Hd.
      rewrite length_drop. change (List.length HEADING) with 29 in *. lia.
    + eexists. by eapply replaced_some.
  - eexists. by apply replaced_none.
Qed.

(** The replace branch of [update_readme]. *)
Lemma update_readme_text_found doc frag out :
  find HEADING doc ≠ None →
  contains_char backslash frag = false →
  regions_replaced (rstrip frag ++ [nl]) doc out →
  update_readme_text expand_escapes doc frag = Some out.
Proof.
  intros Hf Hb Hr. unfold update_readme_text, search.
  destruct (search_from section_re doc st0) eqn:S.
  - unfold sub. eapply scan_replaced; [|done].
    rewrite contains_char_app, rstrip_no_char by done. done.
  - by apply search_section_none in S.
Qed.

(** The insert branches of [update_readme]. *)
Lemma update_readme_text_absent doc frag :
  find HEADING doc = None →
  update_readme_text expand_escapes doc frag =
  match find (nl :: py "## Integration") doc with
  | Some i => Some (take i doc ++ [nl] ++ frag ++ [nl] ++ drop i doc)
  | None => Some (rstrip doc ++ [nl; nl] ++ frag)
  end.
Proof.
  intros Hf. unfold update_readme_text, search.
  apply (search_section_none doc st0) in Hf. rewrite Hf.
  fold (search integration_re doc). unfold integration_re.
  rewrite search_lit. by destruct (find _ doc).
Qed.

(** [at_boundary] reads at most five characters. *)
Lemma at_boundary_prefix p a b :
  5 ≤ List.length p → at_boundary (p ++ a) = at_boundary (p ++ b).
Proof.
  intros Hp. destruct p as [|x1 [|x2 [|x3 [|x4 [|x5 p]]]]]; simpl in Hp; try lia.
  done.
Qed.

Lemma startswith_prefix_eq p a b :
  take (List.length p) a = take (List.length p) b →
  startswith p a = startswith p b.
Proof.
  revert a b. induction p as [|x p IH]; intros a b; simpl; [done|].
  destruct a as [|y a], b as [|z b]; simpl; try done.
  intros [= -> H]. by rewrite (IH a b).
Qed.

(** Texts that agree up to the end of the first occurrence of the
    heading have that first occurrence in common. *)
Lemma find_heading_prefix p a b :
  find HEADING (p ++ HEADING ++ a) = Some (List.length p) →
  find HEADING (p ++ HEADING ++ b) = Some (List.length p).
Proof.
  intros (H1 & H2 & H3)%find_first_at. apply find_first_at. split_and!.
  - rewrite drop_app_length. apply startswith_app.
  - rewrite length_app. lia.
  - intros j Hj. rewrite <- (H3 j Hj). apply startswith_prefix_eq.
    assert (∀ c, take (List.length HEADING) (drop j (p ++ HEADING ++ c))
                 = take (List.length HEADING) (drop j (p ++ HEADING))) as Hc.
    { intros c. rewrite (assoc_L (++) p HEADING).
      rewrite drop_app_le by (rewrite length_app; lia).
      apply take_app_le. rewrite length_drop, length_app. lia. }
    by rewrite !Hc.
Qed.

(** Replacing the regions of a text that starts at a boundary gives a
    text that starts at a boundary. *)
Lemma regions_replaced_boundary rb s out :
  at_boundary s = true →
  regions_replaced (HEADING ++ rb) s out →
  at_boundary out = true.
Proof.
  intros Hb. destruct 1 as [s Hf|s i out Hf _]; [done|].
  destruct (find_heading_length s i Hf) as (t & _ & Hi & Hs).
  rewrite Hs in Hb. rewrite <- Hb.
  rewrite <- !(assoc_L (++) HEADING), !(assoc_L (++) (take i s) HEADING).
  apply at_boundary_prefix. rewrite length_app.
  change (List.length HEADING) with 29. lia.
Qed.

Lemma region_len_exact n t :
  (∀ k, k < n → at_boundary (drop k t) = false) →
  at_boundary (drop n t) = true → n ≤ List.length t →
  region_len t = n.
Proof.
  revert t. induction n as [|n IH]; intros t Hk Hb Hn.
  - rewrite drop_0 in Hb. destruct t; cbn [region_len]; by rewrite Hb.
  - destruct t as [|x t]; [simpl in Hn; lia|].
    pose proof (Hk 0 ltac:(lia)) as H0. rewrite drop_0 in H0.
    cbn [region_len]. rewrite H0. f_equal. apply IH.
    + intros k Hlt. apply (Hk (S k)). lia.
    + done.
    + simpl in Hn. lia.
Qed.

Lemma rstrip_last_nonspace s a w : rstrip s = a ++ [w] → is_space w = false.
Proof.
  revert a. induction s as [|c s IH]; intros a; simpl; [by destruct a|].
  destruct (rstrip s) as [|y t].
  - destruct (is_space c) eqn:E; [by destruct a|].
    destruct a as [|? [|? ?]]; [|done..]. by intros [= <-].
  - destruct a as [|x a]; [done|]. intros [= <- H]. by apply (IH a).
Qed.

Lemma rstrip_app_nonspace p c t :
  is_space c = false → rstrip (p ++ c :: t) = p ++ c :: rstrip t.
Proof.
  intros Hc. induction p as [|x p IH]; cbn [app rstrip].
  - rewrite Hc. by destruct (rstrip t).
  - rewrite IH. by destruct p.
Qed.

Lemma rstrip_heading tl : rstrip (HEADING ++ tl) = HEADING ++ rstrip tl.
Proof.
  change HEADING with (py "## Current Issues by Priorit" ++ [121%N]).
  rewrite <- !app_assoc. cbn [app]. by rewrite rstrip_app_nonspace.
Qed.

(** Inside the replacement text no boundary is met before its end. *)
Lemma no_boundary_inside tl out k :
  no_inner_heading (HEADING ++ rstrip tl) →
  at_boundary out = true →
  k < List.length (rstrip tl ++ [nl]) →
  at_boundary (drop k ((rstrip tl ++ [nl]) ++ out)) = false.
Proof.
  intros Hno Hout Hk. rewrite length_app in Hk. simpl in Hk.
  destruct (at_boundary (drop k _)) eqn:E; [exfalso | done].
  rewrite <- app_assoc, drop_app_le in E by lia. cbn [app] in E.
  apply at_boundary_spec in E as [E|(c & t' & E & Hc)].
  { by destruct (drop k (rstrip tl)). }
  pose proof (take_drop k (rstrip tl)) as HT.
  destruct (drop k (rstrip tl)) as [|u1 [|u2 [|u3 [|u4 [|u5 U]]]]];
    try discriminate E.
  - injection E as ->. discriminate Hout.
  - injection E as -> -> -> -> _ _.
    assert (is_space 32%N = false) as Hsp; [|discriminate Hsp].
    apply (rstrip_last_nonspace tl (take k (rstrip tl) ++ [nl; hash; hash])).
    rewrite <- app_assoc. symmetry. exact HT.
  - injection E as -> -> -> -> -> _. apply Hc.
    apply (Hno (HEADING ++ take k (rstrip tl)) c U).
    rewrite <- app_assoc. f_equal. symmetry. exact HT.
Qed.

(** Replacing the regions a second time changes nothing. *)
Lemma regions_replaced_idem tl s out :
  no_inner_heading (HEADING ++ rstrip tl) →
  regions_replaced (HEADING ++ rstrip tl ++ [nl]) s out →
  regions_replaced (HEADING ++ rstrip tl ++ [nl]) out out.
Proof.
  intros Hno. induction 1 as [s Hf|s i out Hf Hrest IH];
    [by apply replaced_none|].
  destruct (find_heading_length s i Hf) as (t & Hd & Hi & Hs).
  assert (at_boundary out = true) as Hbo.
  { eapply regions_replaced_boundary; [|exact Hrest].
    rewrite <- drop_drop. apply region_len_boundary. }
  assert (List.length (take i s) = i) as Hlen by (rewrite length_take; lia).
  assert (find HEADING (take i s ++ HEADING ++ (rstrip tl ++ [nl]) ++ out)
          = Some i) as Hf'.
  { rewrite <- Hlen at 2. apply (find_heading_prefix _ t).
    by rewrite Hlen, <- Hs. }
  pose proof (replaced_some (HEADING ++ rstrip tl ++ [nl]) _ _ out Hf') as Hnew.
  rewrite take_app_length' in Hnew by done.
  assert (take i s ++ (HEADING ++ rstrip tl ++ [nl]) ++ out
          = take i s ++ HEADING ++ (rstrip tl ++ [nl]) ++ out) as Heq
    by (by rewrite <- !app_assoc).
  rewrite Heq in Hnew |- *. apply Hnew.
  replace (drop (i + List.length HEADING)
             (take i s ++ HEADING ++ (rstrip tl ++ [nl]) ++ out))
    with ((rstrip tl ++ [nl]) ++ out).
  2:{ rewrite (assoc_L (++) (take i s) HEADING), drop_app_length'; [done|].
      rewrite length_app. lia. }
  rewrite (region_len_exact (List.length (rstrip tl ++ [nl]))).
  - rewrite (assoc_L (++) (take i s) HEADING), (assoc_L (++) (take i s ++ HEADING)).
    rewrite drop_app_length'; [done|]. rewrite !length_app. lia.
  - intros k Hk. by apply no_boundary_inside.
  - by rewrite drop_app_length.
  - rewrite !length_app. lia.
Qed.

Lemma startswith_lookup p s q c :
  startswith p s = true → p !! q = Some c → s !! q = Some c.
Proof.
  intros [t ->]%startswith_true Hq. rewrite lookup_app_l; [done|].
  by apply lookup_lt_Some in Hq.
Qed.

Lemma find_some_not_none s i : find HEADING s = Some i → find HEADING s ≠ None.
Proof. by intros ->. Qed.

(** One region, and no heading text after it: the text before the
    region and the text from its boundary on are kept. *)
Lemma update_readme_text_region pre body rest frag :
  first_at HEADING (pre ++ HEADING ++ body ++ rest) (List.length pre) →
  (∀ k, k < List.length body → ¬ boundary_at (drop k (body ++ rest))) →
  boundary_at rest →
  ¬ occurs HEADING rest →
  contains_char backslash frag = false →
  update_readme_text expand_escapes (pre ++ HEADING ++ body ++ rest) frag
  = Some (pre ++ (rstrip frag ++ [nl]) ++ rest).
Proof.
  intros Hf%find_first_at Hbody Hrest Hno%find_none Hb.
  apply update_readme_text_found; [by rewrite Hf | done |].
  pose proof (replaced_some (rstrip frag ++ [nl]) _ _ rest Hf) as Hnew.
  rewrite take_app_length in Hnew. apply Hnew.
  replace (drop (List.length pre + List.length HEADING)
             (pre ++ HEADING ++ body ++ rest)) with (body ++ rest).
  2:{ rewrite (assoc_L (++) pre HEADING), drop_app_length'; [done|].
      by rewrite length_app. }
  rewrite (region_len_exact (List.length body)).
  - rewrite (assoc_L (++) pre HEADING), (assoc_L (++) (pre ++ HEADING)).
    rewrite drop_app_length' by (by rewrite !length_app).
    by apply replaced_none.
  - intros k Hk. specialize (Hbody k Hk).
    rewrite <- at_boundary_spec in Hbody. by destruct (at_boundary _).
  - rewrite drop_app_length. by apply at_boundary_spec.
  - rewrite length_app. lia.
Qed.

(** The replace branch, applied twice. *)
Lemma update_readme_text_found_twice doc frag i :
  find HEADING doc = Some i →
  first_line_is_heading frag →
  contains_char backslash frag = false →
  no_inner_heading (rstrip frag) →
  ∃ doc', update_readme_text expand_escapes doc frag = Some doc' ∧
          update_readme_text expand_escapes doc' frag = Some doc'.
Proof.
  intros Hf (tl & -> & _) Hb Hno. rewrite rstrip_heading in Hno.
  destruct (regions_replaced_total (rstrip (HEADING ++ tl) ++ [nl]) doc)
    as [out Hr].
  exists out. split.
  - apply update_readme_text_found; [by rewrite Hf | done | done].
  - apply update_readme_text_found; [|done|].
    + destruct Hr as [s Hn|s j out Hj _]; [congruence|].
      rewrite rstrip_heading, <- !app_assoc.
      destruct (occurs_find HEADING (take j s) (rstrip tl ++ [nl] ++ out))
        as (i' & -> & _). done.
    + rewrite rstrip_heading, <- app_assoc in Hr |- *.
      by apply (regions_replaced_idem tl doc).
Qed.

(** The append branch followed by the replace branch. *)
Lemma first_at_appended doc frag_tl :
  ¬ occurs HEADING doc →
  first_at HEADING ((rstrip doc ++ [nl; nl]) ++ HEADING ++ frag_tl)
    (List.length (rstrip doc ++ [nl; nl])).
Proof.
  intros Hno. split_and!.
  - rewrite drop_app_length. apply startswith_app.
  - rewrite !length_app. lia.
  - intros j Hj. rewrite length_app in Hj. simpl in Hj.
    destruct (startswith HEADING (drop j _)) eqn:E; [exfalso | done].
    destruct (decide (j + List.length HEADING ≤ List.length (rstrip doc)))
      as [Hin|Hout].
    + apply Hno. destruct (rstrip_split doc) as (ws & Hdoc & _).
      rewrite <- app_assoc, drop_app_le in E by lia.
      rewrite (startswith_prefix_eq _ _ (drop j (rstrip doc))) in E.
      2:{ apply take_app_le. rewrite length_drop. lia. }
      apply startswith_true in E as [t Ht].
      exists (take j (rstrip doc)), (t ++ ws).
      rewrite Hdoc at 1. rewrite <- (take_drop j (rstrip doc)) at 1.
      by rewrite Ht, <- !app_assoc.
    + set (m := Nat.max j (List.length (rstrip doc))).
      assert (∃ c, HEADING !! (m - j) = Some c) as [c Hc].
      { apply lookup_lt_is_Some_2. unfold m.
        change (List.length HEADING) with 29 in *. lia. }
      pose proof (startswith_lookup _ _ _ _ E Hc) as Hl.
      rewrite lookup_drop in Hl.
      replace (j + (m - j)) with m in Hl by (unfold m; lia).
      rewrite <- !app_assoc, lookup_app_r in Hl by (unfold m; lia).
      assert (c = nl) as ->.
      { destruct (m - List.length (rstrip doc)) as [|[|n]] eqn:Em;
          [by injection Hl | by injection Hl | unfold m in Em; lia]. }
      assert (nl ∈ HEADING) as Hin by (by eapply list_elem_of_lookup_2).
      revert Hin. decide_by_compute.
Qed.

Lemma inner_heading_free_spec s :
  inner_heading_free s = true → no_inner_heading s.
Proof.
  induction s as [|x s IH]; intros H a c b Heq; [by destruct a|].
  cbn [inner_heading_free] in H. apply andb_true_iff in H as [H1 H2].
  destruct a as [|y a].
  - destruct (decide (c = hash)) as [|Hc]; [done | exfalso].
    apply negb_true_iff in H1.
    assert (at_boundary (x :: s) = true) as H3; [|congruence].
    apply at_boundary_spec. right. rewrite Heq. eauto.
  - injection Heq as -> Heq. by apply (IH H2 a c b).
Qed.

(** C1 (as amended).  Let the fragment have the heading as its first
    line, hold no backslash and, once right-stripped, no newline
    followed by [## ] and a character other than [#].  Then applying the
    transform of [update_readme] twice gives what applying it once
    gives, whenever the first application replaces an existing region
    (the heading text occurs in the document), and also whenever it
    appends at the end of the document (neither the heading text nor the
    anchor [\n## Integration] occurs) and the fragment ends in exactly
    one newline after a character that is not whitespace. *)
Theorem update_readme_idempotent (doc frag : pystr) :
  first_line_is_heading frag →
  contains_char backslash frag = false →
  no_inner_heading (rstrip frag) →
  occurs HEADING doc ∨
    (¬ occurs (nl :: py "## Integration") doc ∧ frag = rstrip frag ++ [nl]) →
  ∃ doc', update_readme_text expand_escapes doc frag = Some doc' ∧
          update_readme_text expand_escapes doc' frag = Some doc'.
Proof.
  intros Hfirst Hb Hno Hcase.
  destruct (find HEADING doc) as [i|] eqn:Hf;
    [by apply (update_readme_text_found_twice doc frag i)|].
  destruct Hcase as [Hocc|[Hanchor Hfrag]]; [by apply find_none in Hf|].
  rewrite update_readme_text_absent by done.
  apply find_none in Hanchor. rewrite Hanchor.
  eexists. split; [done|].
  destruct Hfirst as (tl & Htl & _).
  assert (tl = rstrip tl ++ [nl]) as Htl'.
  { rewrite Htl, rstrip_heading, <- app_assoc in Hfrag.
    by apply app_inv_head in Hfrag. }
  rewrite Htl, rstrip_heading in Hno.
  pose proof (update_readme_text_region (rstrip doc ++ [nl; nl]) tl [] frag)
    as Hreg.
  rewrite !app_nil_r, <- Hfrag, <- Htl, <- !app_assoc in Hreg.
  apply Hreg; [| | by left | by apply find_none | done].
  - rewrite Htl, (assoc_L (++) (rstrip doc)). apply first_at_appended.
    by apply find_none.
  - intros k Hk. rewrite <- at_boundary_spec.
    pose proof (no_boundary_inside tl [] k Hno eq_refl) as Hnb.
    rewrite app_nil_r, <- Htl' in Hnb. by rewrite Hnb.
Qed.

(** C4 (as amended).  Let the heading text occur first at the end of
    [pre], let [body] be the text up to the next boundary (the end of
    the document, or a newline followed by [## ] and a character other
    than [#]), and let the heading text not occur in [rest], the text
    from that boundary on.  Then, for a fragment without backslash, the
    transform keeps [pre] and [rest] as they are and puts the
    right-stripped fragment and a newline in place of the heading and
    [body]. *)
Theorem update_readme_frame (pre body rest frag : pystr) :
  first_at HEADING (pre ++ HEADING ++ body ++ rest) (List.length pre) →
  (∀ k, k < List.length body → ¬ boundary_at (drop k (body ++ rest))) →
  boundary_at rest →
  ¬ occurs HEADING rest →
  contains_char backslash frag = false →
  update_readme_text expand_escapes (pre ++ HEADING ++ body ++ rest) frag
  = Some (pre ++ (rstrip frag ++ [nl]) ++ rest).
Proof. apply update_readme_text_region. Qed.

End ReplacerFacts.

Lemma update_readme_idempotent_witness :
  let esc : pystr → pystr → option pystr := λ _ _, None in
  let frag := pyl ["## Current Issues by Priority"; "";
                   "*Auto-updated: 2024-05-01 12:30*"; "";
                   "**High Priority:** None currently"; "";
                   "**Medium Priority:** None currently"; "";
                   "**Low Priority:**"; "- `leak.md` - Parser leak"; ""] in
  (∃ doc',
     update_readme_text esc
       (pyl ["# Debt"; "## Current Issues by Priority"; "old index"; "";
             "## Integration"; "notes"; ""]) frag = Some doc' ∧
     update_readme_text esc doc' frag = Some doc') ∧
  (∃ doc',
     update_readme_text esc (pyl ["# Debt"; "notes"; ""; ""]) frag = Some doc' ∧
     update_readme_text esc doc' frag = Some doc').
Proof.
  intros esc frag.
  assert (first_line_is_heading frag) as H1.
  { exists (drop 29 frag). split; [reflexivity|]. right. eexists. reflexivity. }
  assert (no_inner_heading (rstrip frag)) as H2.
  { apply inner_heading_free_spec. vm_compute. reflexivity. }
  split; apply (update_readme_idempotent esc _ frag H1 eq_refl H2).
  - left. eapply find_some_occurs. vm_compute. reflexivity.
  - right. split; [|vm_compute; reflexivity].
    apply find_none. vm_compute. reflexivity.
Defined.

(** C1, as stated, fails.  (1) The section generated for an empty issue
    list is inserted before the anchor with a newline before and after
    it; the second application finds the region, which now runs up to
    the anchor, and writes the section right-stripped with one newline:
    one blank line is gone.  (2) A fragment with a second [## ] line
    delimits its own region: the second application replaces only the
    part up to that line.  (3) A fragment that does not end in a newline
    is appended as it is and rewritten with a newline. *)
Lemma update_readme_not_idempotent :
  let frag := pyl ["## Current Issues by Priority"; "";
                   "*Auto-updated: 2024-05-01 12:30*"; "";
                   "**High Priority:** None currently"; "";
                   "**Medium Priority:** None currently"; "";
                   "**Low Priority:** None currently"; ""] in
  let once := pyl ["# Debt";
                   "## Current Issues by Priority"; "";
                   "*Auto-updated: 2024-05-01 12:30*"; "";
                   "**High Priority:** None currently"; "";
                   "**Medium Priority:** None currently"; "";
                   "**Low Priority:** None currently"; ""; "";
                   "## Integration"; "notes"; ""] in
  let twice := pyl ["# Debt";
                    "## Current Issues by Priority"; "";
                    "*Auto-updated: 2024-05-01 12:30*"; "";
                    "**High Priority:** None currently"; "";
                    "**Medium Priority:** None currently"; "";
                    "**Low Priority:** None currently"; "";
                    "## Integration"; "notes"; ""] in
  (generate_index_section ascii_lower (py "2024-05-01 12:30") [] = Some frag ∧
   first_line_is_heading frag ∧
   once ≠ twice ∧
   ∀ esc,
     update_readme_text esc (pyl ["# Debt"; "## Integration"; "notes"; ""]) frag
       = Some once ∧
     update_readme_text esc once frag = Some twice) ∧
  (let frag2 := pyl ["## Current Issues by Priority"; "## Notes"; "x"; ""] in
   let once2 := pyl ["## Current Issues by Priority"; "## Notes"; "x"; ""] in
   let twice2 := pyl ["## Current Issues by Priority"; "## Notes"; "x"; "";
                      "## Notes"; "x"; ""] in
   first_line_is_heading frag2 ∧ once2 ≠ twice2 ∧
   ∀ esc,
     update_readme_text esc (pyl ["## Current Issues by Priority"; "old"]) frag2
       = Some once2 ∧
     update_readme_text esc once2 frag2 = Some twice2) ∧
  (let frag3 := py "## Current Issues by Priority" in
   let once3 := pyl ["# Debt"; ""; "## Current Issues by Priority"] in
   let twice3 := pyl ["# Debt"; ""; "## Current Issues by Priority"; ""] in
   first_line_is_heading frag3 ∧ once3 ≠ twice3 ∧
   ∀ esc,
     update_readme_text esc (py "# Debt") frag3 = Some once3 ∧
     update_readme_text esc once3 frag3 = Some twice3).
Proof.
  intros frag once twice. split; [|split].
  - split_and!.
    + vm_compute. reflexivity.
    + exists (drop 29 frag). split; [reflexivity|]. right. eexists. reflexivity.
    + decide_by_compute.
    + intros esc. split; vm_compute; reflexivity.
  - intros frag2 once2 twice2. split_and!.
    + exists (drop 29 frag2). split; [reflexivity|]. right. eexists.
      reflexivity.
    + decide_by_compute.
    + intros esc. split; vm_compute; reflexivity.
  - intros frag3 once3 twice3. split_and!.
    + exists []. split; [reflexivity | by left].
    + decide_by_compute.
    + intros esc. split; vm_compute; reflexivity.
Qed.

Lemma update_readme_frame_witness :
  let esc : pystr → pystr → option pystr := λ _ _, None in
  let pre := pyl ["# Debt"; "intro"; ""] in
  let body := nl :: pyl ["old index"; "# Aside"] in
  let rest := nl :: pyl ["## Integration"; "notes"; ""] in
  let frag := pyl ["## Current Issues by Priority"; "new index"; ""; ""] in
  update_readme_text esc (pre ++ HEADING ++ body ++ rest) frag
  = Some (pre ++ (rstrip frag ++ [nl]) ++ rest).
Proof.
  intros esc pre body rest frag.
  apply (update_readme_frame esc pre body rest frag).
  - apply find_first_at. vm_compute. reflexivity.
  - intros k Hk Hb. apply at_boundary_spec in Hb.
    do 18 (destruct k as [|k]; [discriminate Hb|]).
    vm_compute in Hk. lia.
  - right. eexists _, _. split; [reflexivity | discriminate].
  - apply find_none. vm_compute. reflexivity.
  - reflexivity.
Defined.

(** C4, as stated, fails.  The region runs to the next line that opens
    with [## ], so a level-one heading after the section is replaced
    together with it; and every occurrence of the heading text opens a
    region, so more than one region can be rewritten. *)
Lemma update_readme_frame_counterexample :
  let frag := pyl ["## Current Issues by Priority"; "new"; ""] in
  (∀ esc,
     update_readme_text esc
       (pyl ["## Current Issues by Priority"; "old"; "# Top"; "text"; ""]) frag
     = Some (pyl ["## Current Issues by Priority"; "new"; ""])) ∧
  (∀ esc,
     update_readme_text esc
       (pyl ["## Current Issues by Priority"; "old"; "## Next";
             "see ## Current Issues by Priority above"; "more text"; ""]) frag
     = Some (pyl ["## Current Issues by Priority"; "new"; ""; "## Next";
                  "see ## Current Issues by Priority"; "new"; ""])).
Proof. intros frag. split; intros esc; vm_compute; reflexivity. Qed.

(** ** More on parse_frontmatter: what a parsed mapping holds *)

Section FrontmatterEntries.

Implicit Types (s t k v w line : pystr) (m : gmap pystr pystr).

Lemma lstrip_split s :
  ∃ ws, s = ws ++ lstrip s ∧ Forall (λ x, is_space x = true) ws.
Proof.
  induction s as [|c s (ws & IH & Hws)]; simpl; [by exists []|].
  destruct (is_space c) eqn:E.
  - exists (c :: ws). split; [simpl; by f_equal|]. by constructor.
  - by exists [].
Qed.

Lemma lstrip_head s c t : lstrip s = c :: t → is_space c = false.
Proof.
  induction s as [|x s IH]; simpl; [done|].
  destruct (is_space x) eqn:E; [done|]. by intros [= <- _].
Qed.

Lemma strip_split s :
  ∃ l r, s = l ++ strip s ++ r ∧ Forall (λ x, is_space x = true) l
         ∧ Forall (λ x, is_space x = true) r.
Proof.
  destruct (lstrip_split s) as (l & Hl & Hls).
  destruct (rstrip_split (lstrip s)) as (r & Hr & Hrs).
  exists l, r. unfold strip. by rewrite <- Hr.
Qed.

Lemma rstrip_idem s : rstrip (rstrip s) = rstrip s.
Proof.
  destruct (rstrip s) as [|x t] eqn:E using rev_ind; [done|].
  clear IHt. pose proof (rstrip_last_nonspace _ _ _ E) as Hx.
  by rewrite (rstrip_app_nonspace t x []).
Qed.

Lemma strip_idem s : strip (strip s) = strip s.
Proof.
  unfold strip. destruct (lstrip s) as [|c t] eqn:E; [done|].
  pose proof (lstrip_head _ _ _ E) as Hc.
  pose proof (rstrip_app_nonspace [] c t Hc) as R. cbn [app] in R.
  rewrite R. cbn [lstrip]. rewrite Hc.
  pose proof (rstrip_app_nonspace [] c (rstrip t) Hc) as R2. cbn [app] in R2.
  by rewrite R2, rstrip_idem.
Qed.

Lemma strip_elem s x : x ∈ strip s → x ∈ s.
Proof.
  destruct (strip_split s) as (l & r & E & _). intros H.
  rewrite E. set_solver.
Qed.

Lemma split_nl_free s l : l ∈ split nl s → nl ∉ l.
Proof.
  revert l. induction s as [|c s IH]; intros l; simpl.
  - intros ->%list_elem_of_singleton. set_solver.
  - destruct (c =? nl)%N eqn:E.
    + intros [->|H]%elem_of_cons; [set_solver|by apply IH].
    + apply N.eqb_neq in E. pose proof (split_not_nil nl s) as Hne.
      destruct (split nl s) as [|l0 ls]; [done|].
      intros [->|H]%elem_of_cons.
      * intros [?|?]%elem_of_cons; [done|]. by eapply IH; [left|].
      * apply IH. by right.
Qed.

Lemma cut_at_colon_spec line a b :
  cut_at_colon line = Some (a, b) → line = a ++ colon :: b ∧ colon ∉ a.
Proof.
  revert a b. induction line as [|c line IH]; intros a b; simpl; [done|].
  destruct (c =? colon)%N eqn:E.
  - apply N.eqb_eq in E. intros [= <- <-]. subst. split; [done|set_solver].
  - apply N.eqb_neq in E. destruct (cut_at_colon line) as [[a' b']|]; [|done].
    simpl. intros [= <- <-]. destruct (IH _ _ eq_refl) as [-> Ha].
    split; [done|]. set_solver.
Qed.

Lemma spec_unquote_elem v x : x ∈ spec_unquote v → x ∈ v.
Proof.
  unfold spec_unquote. destruct v as [|q v]; [done|].
  destruct (_ && _); [|done]. simpl.
  intros H. right. revert H. clear. induction v as [|y v IH]; simpl; [done|].
  destruct v; [set_solver|]. intros [->|H]%elem_of_cons; [left|right; auto].
Qed.

Lemma spec_entry_ok m line :
  nl ∉ line →
  (∀ k v, m !! k = Some v → entry_ok k v) →
  ∀ k v, spec_entry m line !! k = Some v → entry_ok k v.
Proof.
  intros Hl Hm k v. unfold spec_entry.
  destruct (cut_at_colon line) as [[a b]|] eqn:E; [|apply Hm].
  apply cut_at_colon_spec in E as [-> Ha].
  destruct (decide (k = strip a)) as [->|Hk].
  - rewrite lookup_insert_eq. intros [= <-]. split_and!.
    + apply strip_idem.
    + intros H%strip_elem. done.
    + intros H%strip_elem. set_solver.
    + intros H%spec_unquote_elem%strip_elem. set_solver.
  - rewrite lookup_insert_ne by done. apply Hm.
Qed.

Lemma fold_spec_entry_ok lines m :
  Forall (λ l, nl ∉ l) lines →
  (∀ k v, m !! k = Some v → entry_ok k v) →
  ∀ k v, fold_left spec_entry lines m !! k = Some v → entry_ok k v.
Proof.
  intros H. revert m. induction H as [|l lines Hl _ IH]; intros m Hm; simpl.
  - done.
  - apply IH. by apply spec_entry_ok.
Qed.

(** X1.  Whatever the text, every entry of the mapping that
    [parse_frontmatter] returns has a trimmed key without colon and
    without newline, and a value without newline. *)
Theorem parse_frontmatter_entries (content : pystr) (m : gmap pystr pystr)
    (k v : pystr) :
  parse_frontmatter content = Some m → m !! k = Some v →
  strip k = k ∧ (colon ∉ k) ∧ (nl ∉ k) ∧ (nl ∉ v).
Proof.
  unfold parse_frontmatter.
  destruct (negb _); [by intros [= <-]|].
  destruct (search _ _) as [em|]; [|by intros [= <-]].
  rewrite parse_lines_spec. intros [= <-]. apply fold_spec_entry_ok; [|done].
  apply Forall_forall. intros l. apply split_nl_free.
Qed.

End FrontmatterEntries.

Lemma parse_frontmatter_entries_witness :
  let k := py "priority" in
  let v := py "high" in
  strip k = k ∧ (colon ∉ k) ∧ (nl ∉ k) ∧ (nl ∉ v).
Proof.
  intros k v.
  apply (parse_frontmatter_entries
           (pyl ["---"; " priority :  high "; "note"; "---"; "# Title"])
           (<[py "priority" := py "high"]> ∅) k v).
  - vm_compute. reflexivity.
  - vm_compute. reflexivity.
Defined.

(** ** Writing a frontmatter block and reading it back *)

Section RoundTrip.

Implicit Types (s t k v w line : pystr) (m : gmap pystr pystr).

Lemma parse_frontmatter_block lines tail :
  Forall (λ l, l ≠ py "---" ∧ nl ∉ l) lines →
  parse_frontmatter (frontmatter_text lines tail)
  = Some (fold_left spec_entry lines ∅).
Proof.
  intros H. unfold parse_frontmatter, frontmatter_text.
  rewrite startswith_app. cbn [negb].
  change 3 with (List.length (py "---")) at 1. rewrite drop_app_length.
  unfold delim_re. rewrite search_lit.
  cbn [app]. rewrite find_delim_unlines by done.
  cbn [fmap option_fmap option_map mt_start].
  unfold slice. rewrite Nat.add_sub.
  change (drop 4 (py "---" ++ nl :: unlines lines ++ py "---" ++ nl :: tail))
    with (unlines lines ++ py "---" ++ nl :: tail).
  rewrite take_app_length, parse_lines_spec, entries_strip.
  rewrite entries_unlines; [done|].
  eapply Forall_impl; [exact H|]. by intros l [_ ?].
Qed.

Lemma cut_at_colon_app k t :
  colon ∉ k → cut_at_colon (k ++ colon :: t) = Some (k, t).
Proof.
  induction k as [|c k IH]; intros Hk; simpl.
  - reflexivity.
  - destruct (c =? colon)%N eqn:E.
    + apply N.eqb_eq in E. set_solver.
    + rewrite IH by set_solver. done.
Qed.

Lemma strip_quoted q v :
  is_space q = false → strip (q :: v ++ [q]) = q :: v ++ [q].
Proof.
  intros Hq. unfold strip. cbn [lstrip]. rewrite Hq.
  pose proof (rstrip_app_nonspace (q :: v) q [] Hq) as R. exact R.
Qed.

Lemma slice_quoted q v : slice_1_m1 (q :: v ++ [q]) = v.
Proof. unfold slice_1_m1. cbn [tail]. apply removelast_last. Qed.

Lemma endswith_quoted q v : endswith [q] (q :: v ++ [q]) = true.
Proof.
  unfold endswith. rewrite (reverse_cons (v ++ [q]) q), reverse_app.
  change (reverse [q]) with [q]. cbn [app startswith].
  by rewrite N.eqb_refl.
Qed.

Lemma unquote_writes v w : writes v w → unquote (strip w) = v ∧ (nl ∉ v → nl ∉ w).
Proof.
  intros [(-> & Hs & Hu)|[->| ->]].
  - by rewrite Hs.
  - rewrite strip_quoted by done. split.
    + unfold unquote. rewrite endswith_quoted. cbn [startswith].
      rewrite N.eqb_refl. cbn [andb]. apply slice_quoted.
    + intros H. rewrite elem_of_cons, elem_of_app, list_elem_of_singleton.
      intros [?|[?|?]]; done.
  - rewrite strip_quoted by done. split.
    + unfold unquote. rewrite endswith_quoted. cbn [startswith].
      rewrite N.eqb_refl.
      change (squote =? dquote)%N with false. cbn [andb]. apply slice_quoted.
    + intros H. rewrite elem_of_cons, elem_of_app, list_elem_of_singleton.
      intros [?|[?|?]]; done.
Qed.

Lemma spec_entry_line m k v w :
  strip k = k → colon ∉ k → writes v w →
  spec_entry m (entry_line k w) = <[k := v]> m.
Proof.
  intros Hk Hc Hw. unfold spec_entry, entry_line.
  change (py ": " ++ w) with (colon :: 32%N :: w).
  rewrite cut_at_colon_app by done. rewrite Hk, strip_cons_space by done.
  rewrite <- unquote_spec. by rewrite (proj1 (unquote_writes _ _ Hw)).
Qed.

Lemma entry_line_ok k w :
  nl ∉ k → nl ∉ w → entry_line k w ≠ py "---" ∧ nl ∉ entry_line k w.
Proof.
  intros Hk Hw. unfold entry_line. split.
  - intros E. assert (colon ∈ py "---") as H.
    { rewrite <- E. change (py ": " ++ w) with (colon :: 32%N :: w). set_solver. }
    revert H. decide_by_compute.
  - change (py ": " ++ w) with (colon :: 32%N :: w).
    rewrite elem_of_app, !elem_of_cons. intros [?|[?|[?|?]]]; done.
Qed.

Lemma fold_insert_list_to_map (kvs : list (pystr * pystr)) m :
  fold_left (λ m kv, <[kv.1 := kv.2]> m) kvs m
  = foldr (λ kv, <[kv.1 := kv.2]>) m (reverse kvs).
Proof.
  revert m. induction kvs as [|kv kvs IH]; intros m; simpl; [done|].
  rewrite IH, reverse_cons, foldr_app. done.
Qed.

(** X2.  Round trip.  A block written from a list of entries, one line
    [key: value] each, with trimmed keys free of colon and newline and
    values free of newline, each value written bare (when trimming and
    quote removal leave it alone) or between double or single quotes,
    is read back as the mapping of these entries, a later entry of a
    key replacing an earlier one. *)
Theorem parse_frontmatter_round_trip (kvs : list (pystr * pystr))
    (lines : list pystr) (tail : pystr) :
  Forall2 (λ kv line,
             strip kv.1 = kv.1 ∧ (colon ∉ kv.1) ∧ (nl ∉ kv.1) ∧ (nl ∉ kv.2) ∧
             ∃ w, writes kv.2 w ∧ line = entry_line kv.1 w) kvs lines →
  parse_frontmatter (frontmatter_text lines tail)
  = Some (list_to_map (reverse kvs)).
Proof.
  intros H. rewrite parse_frontmatter_block.
  - f_equal. unfold list_to_map. rewrite <- fold_insert_list_to_map.
    generalize (∅ : gmap pystr pystr).
    induction H as [|kv line kvs lines (Hk & Hc & _ & _ & w & Hw & ->) _ IH];
      intros m; simpl; [done|].
    rewrite (spec_entry_line m _ _ _ Hk Hc Hw). apply IH.
  - induction H as [|kv line kvs lines (Hk & Hc & Hn & Hv & w & Hw & ->) _ IH];
      constructor; [|done].
    apply entry_line_ok; [done|]. by apply (unquote_writes _ _ Hw).
Qed.

End RoundTrip.

Lemma parse_frontmatter_round_trip_witness :
  parse_frontmatter
    (frontmatter_text
       [py "priority: high";
        py "title: " ++ dquote :: py " padded " ++ [dquote];
        py "status: 'open'"; py "priority: low"]
       (py "# Body"))
  = Some (list_to_map
            (reverse [(py "priority", py "high"); (py "title", py " padded ");
                      (py "status", py "open"); (py "priority", py "low")])).
Proof.
  apply (parse_frontmatter_round_trip
           [(py "priority", py "high"); (py "title", py " padded ");
            (py "status", py "open"); (py "priority", py "low")]).
  repeat first
    [ apply List.Forall2_nil
    | apply List.Forall2_cons ].
  all: split_and!; try decide_by_compute.
  - exists (py "high"). split; [left; split_and!; reflexivity|reflexivity].
  - eexists. split; [right; left; reflexivity|reflexivity].
  - eexists. split; [right; right; reflexivity|reflexivity].
  - exists (py "low"). split; [left; split_and!; reflexivity|reflexivity].
Defined.

(** ** More on extract_title *)

Section TitleMore.

Implicit Types (s t rest body sep : pystr) (st : mstate) (kont : mcont).

Lemma plus_greedy_stop k rest st kont :
  (rest = [] ∨ ∃ x r, rest = x :: r ∧ cls_match k x = false) →
  plus_greedy k rest st kont = None.
Proof. intros [->|(x & r & -> & H)]; simpl; [done|]. by rewrite H. Qed.

(** A greedy repetition reads the whole run when the continuation
    accepts what follows it. *)
Lemma plus_greedy_max k w rest st kont res :
  w ≠ [] → Forall (λ x, cls_match k x = true) w →
  (rest = [] ∨ ∃ x r, rest = x :: r ∧ cls_match k x = false) →
  kont rest (advance_by w st) = Some res →
  plus_greedy k (w ++ rest) st kont = Some res.
Proof.
  intros Hne Hw Hrest. revert st. induction Hw as [|x w Hx Hw IH]; [done|].
  intros st Hk. cbn [app plus_greedy]. rewrite Hx.
  destruct w as [|y w].
  - cbn [app]. rewrite plus_greedy_stop by done. exact Hk.
  - rewrite (IH ltac:(done) (advance x st) Hk). done.
Qed.

Lemma match_title_here sep t rest st :
  (m_prev st = None ∨ m_prev st = Some nl) →
  sep ≠ [] → Forall (λ x, is_space x = true) sep →
  t ≠ [] → lstrip t = t → nl ∉ t →
  (rest = [] ∨ ∃ r, rest = nl :: r) →
  ∃ st', match_here title_re (hash :: sep ++ t ++ rest) st = Some (rest, st') ∧
         m_grp st' = Some (m_pos st + 1 + List.length sep,
                           m_pos st + 1 + List.length sep + List.length t).
Proof.
  intros Hp Hs1 Hs2 Ht1 Ht2 Ht3 Hrest.
  unfold match_here, title_re. cbn [rmatch].
  assert (∀ K : option mresult,
            match m_prev st with
            | Some p => if (p =? nl)%N then K else None
            | None => K
            end = K) as ->.
  { intros K. destruct Hp as [-> | ->]; done. }
  cbn [cls_match]. rewrite N.eqb_refl.
  eexists. split.
  - apply plus_greedy_max; [done | done | |].
    + right. destruct t as [|c t']; [done|]. exists c, (t' ++ rest).
      split; [done|]. cbn [cls_match]. by apply (lstrip_head (c :: t') c t').
    + apply plus_greedy_max; [done | | |].
      * apply Forall_forall. intros x Hx. cbn [cls_match].
        apply negb_true_iff, N.eqb_neq. intros ->. done.
      * destruct Hrest as [->|[r ->]]; [by left|]. right. exists nl, r. done.
      * cbn [rmatch]. destruct Hrest as [->|[r ->]]; reflexivity.
  - cbn [m_grp set_grp]. rewrite !advance_by_pos. simpl. do 2 f_equal; lia.
Qed.

(** Inside a line the title pattern cannot start. *)
Lemma search_title_inside l s st p :
  m_prev st = Some p → p ≠ nl → nl ∉ l →
  search_from title_re (l ++ nl :: s) st
  = search_from title_re s (advance_by (l ++ [nl]) st).
Proof.
  revert st p. induction l as [|c l IH]; intros st p Hp Hne Hl.
  - cbn [app search_from advance_by].
    unfold match_here, title_re. cbn [rmatch]. rewrite Hp.
    apply N.eqb_neq in Hne. by rewrite Hne.
  - cbn [app search_from advance_by].
    unfold match_here, title_re at 1. cbn [rmatch]. rewrite Hp.
    apply N.eqb_neq in Hne. rewrite Hne.
    apply (IH (advance c st) c); [done| |]; set_solver.
Qed.

(** A line that does not begin with [#] holds no match. *)
Lemma search_title_skip_line l s st :
  (m_prev st = None ∨ m_prev st = Some nl) →
  nl ∉ l → head l ≠ Some hash →
  search_from title_re (l ++ nl :: s) st
  = search_from title_re s (advance_by (l ++ [nl]) st).
Proof.
  intros Hp Hl Hh. destruct l as [|c l].
  - cbn [app search_from advance_by].
    unfold match_here, title_re. cbn [rmatch].
    destruct Hp as [-> | ->]; reflexivity.
  - cbn [app search_from advance_by].
    assert (match_here title_re (c :: l ++ nl :: s) st = None) as ->.
    { unfold match_here, title_re. cbn [rmatch cls_match].
      assert ((c =? hash)%N = false) as ->.
      { apply N.eqb_neq. intros ->. done. }
      destruct Hp as [-> | ->]; reflexivity. }
    apply (search_title_inside l s (advance c st) c); [done| |]; set_solver.
Qed.

Lemma search_title_skip_lines pre s st :
  (m_prev st = None ∨ m_prev st = Some nl) →
  Forall (λ l, (nl ∉ l) ∧ head l ≠ Some hash) pre →
  search_from title_re (unlines pre ++ s) st
  = search_from title_re s (advance_by (unlines pre) st) ∧
  (m_prev (advance_by (unlines pre) st) = None
   ∨ m_prev (advance_by (unlines pre) st) = Some nl).
Proof.
  intros Hp H. revert st Hp. induction H as [|l pre [Hl Hh] _ IH]; intros st Hp.
  - done.
  - rewrite unlines_cons, <- app_assoc. cbn [app].
    rewrite search_title_skip_line by done.
    rewrite (app_cons_snoc l nl (unlines pre)).
    rewrite !(advance_by_app (l ++ [nl]) (unlines pre)).
    apply IH. right. rewrite advance_by_app. done.
Qed.

Lemma lstrip_idem s : lstrip (lstrip s) = lstrip s.
Proof.
  destruct (lstrip s) as [|c t] eqn:E; [done|].
  cbn [lstrip]. by rewrite (lstrip_head _ _ _ E).
Qed.

(** X4.  The title is the first heading line.  When the text left by
    the frontmatter skip starts with lines that do not begin with [#]
    and then has a line made of [#], one or more whitespace characters
    and a text [t] that begins with a character other than whitespace,
    [extract_title] returns [t] trimmed. *)
Theorem extract_title_first_heading (content : pystr) (pre : list pystr)
    (sep t rest : pystr) :
  skip_frontmatter content = unlines pre ++ hash :: sep ++ t ++ rest →
  Forall (λ l, (nl ∉ l) ∧ head l ≠ Some hash) pre →
  sep ≠ [] → Forall (λ x, is_space x = true) sep →
  t ≠ [] → lstrip t = t → nl ∉ t →
  (rest = [] ∨ ∃ r, rest = nl :: r) →
  extract_title content = Some (strip t).
Proof.
  intros Hbody Hpre Hs1 Hs2 Ht1 Ht2 Ht3 Hrest.
  unfold extract_title. rewrite Hbody. unfold search.
  destruct (search_title_skip_lines pre (hash :: sep ++ t ++ rest) st0)
    as [-> Hp]; [by left | done |].
  destruct (match_title_here sep t rest (advance_by (unlines pre) st0))
    as (st' & M & G); try done.
  cbn [search_from]. rewrite M. cbn [mbind option_bind].
  unfold group1. cbn [mt_grp]. rewrite G.
  rewrite advance_by_pos. cbn [m_pos st0 Nat.add].
  replace (List.length (unlines pre) + 1 + List.length sep + List.length t
           - (List.length (unlines pre) + 1 + List.length sep))
    with (List.length t) by lia.
  replace (List.length (unlines pre) + 1 + List.length sep)
    with (List.length (unlines pre ++ hash :: sep))
    by (rewrite length_app; simpl; lia).
  replace (unlines pre ++ hash :: sep ++ t ++ rest)
    with ((unlines pre ++ hash :: sep) ++ t ++ rest)
    by (by rewrite <- app_assoc).
  rewrite drop_app_length, take_app_length. cbn.
  unfold strip. by rewrite Ht2.
Qed.

(** X3.  For a text with a frontmatter block, the text in which
    [extract_title] looks for the heading is what follows the closing
    line less its first character: the skip goes one character
    further than the block. *)
Theorem skip_frontmatter_block (lines : list pystr) (tail : pystr) :
  Forall (λ l, l ≠ py "---" ∧ nl ∉ l) lines →
  skip_frontmatter (frontmatter_text lines tail) = drop 1 tail.
Proof.
  intros H. unfold skip_frontmatter, frontmatter_text.
  rewrite startswith_app.
  change 3 with (List.length (py "---")) at 1. rewrite drop_app_length.
  unfold delim_re. rewrite search_lit.
  cbn [app]. rewrite find_delim_unlines by done.
  cbn [fmap option_fmap option_map mt_end].
  replace (List.length (unlines lines) + List.length (nl :: py "---" ++ [nl]) + 4)
    with (List.length (py "---" ++ nl :: unlines lines ++ py "---" ++ [nl]) + 1).
  2:{ rewrite !length_app. simpl. rewrite !length_app. simpl. lia. }
  replace (py "---" ++ nl :: unlines lines ++ py "---" ++ nl :: tail)
    with ((py "---" ++ nl :: unlines lines ++ py "---" ++ [nl]) ++ tail).
  2:{ rewrite <- !app_assoc. cbn [app]. by rewrite <- !app_assoc. }
  by rewrite <- drop_drop, drop_app_length.
Qed.

(** X5.  A title returned by [extract_title] is one trimmed line: it
    holds no newline and has no whitespace at either end. *)
Theorem extract_title_trimmed (content t : pystr) :
  extract_title content = Some t → (nl ∉ t) ∧ strip t = t.
Proof.
  destruct (extract_title_cases content)
    as [[_ ->]|(j & w & g & after & _ & _ & _ & _ & _ & Hg & _ & ->)];
    intros [= <-].
  - split; [decide_by_compute|reflexivity].
  - split; [|apply strip_idem].
    intros H%strip_elem. rewrite Forall_forall in Hg. by apply (Hg nl).
Qed.

End TitleMore.

Lemma skip_frontmatter_block_witness :
  skip_frontmatter
    (frontmatter_text [py "priority: High"; py "status: open"]
       (pyl [""; "# Fix race condition"; "Details..."]))
  = drop 1 (pyl [""; "# Fix race condition"; "Details..."]).
Proof.
  apply (skip_frontmatter_block [py "priority: High"; py "status: open"]).
  repeat (apply List.Forall_cons; [split; decide_by_compute|]).
  apply List.Forall_nil.
Defined.

Lemma extract_title_first_heading_witness :
  extract_title
    (frontmatter_text [py "priority: High"; py "status: open"]
       (pyl [""; "# Fix race condition"; "Details..."]))
  = Some (strip (py "Fix race condition"))
  ∧ extract_title (pyl ["intro"; ""; "#   Leak in parser  "; "# Second"])
    = Some (strip (py "Leak in parser  ")).
Proof.
  split.
  - apply (extract_title_first_heading _ [] [32%N] (py "Fix race condition")
             (nl :: py "Details..."));
      [vm_compute; reflexivity | apply List.Forall_nil | discriminate
      | repeat constructor | discriminate | reflexivity | decide_by_compute
      | right; eexists; reflexivity].
  - apply (extract_title_first_heading _ [py "intro"; []] (py "   ")
             (py "Leak in parser  ") (nl :: py "# Second"));
      [vm_compute; reflexivity
      | repeat (apply List.Forall_cons;
                [split; [decide_by_compute | discriminate]|]);
        apply List.Forall_nil
      | discriminate | repeat constructor | discriminate | reflexivity
      | decide_by_compute | right; eexists; reflexivity].
Defined.

Lemma extract_title_trimmed_witness :
  (nl ∉ py "Spaced title") ∧ strip (py "Spaced title") = py "Spaced title".
Proof.
  apply (extract_title_trimmed (pyl ["#  Spaced title  "; "more"])).
  vm_compute. reflexivity.
Defined.

(** ** More on scan_issues *)

Section ScanMore.

Implicit Types (d entries : directory) (issues : list issue).

Lemma scan_entries_spec entries :
  match scan_entries entries with
  | Some issues =>
      Forall2 (λ e i, ∃ content, e.2 = Some content
                                 ∧ scan_file e.1 content = Some i)
        (filter (λ e, e.1 ∉ EXCLUDE_FILES) entries) issues
  | None =>
      Exists (λ e, e.2 = None) (filter (λ e, e.1 ∉ EXCLUDE_FILES) entries)
  end.
Proof.
  unfold directory in *.
  induction entries as [|[name text] entries IH]; cbn [scan_entries].
  - constructor.
  - case_bool_decide as Hx.
    + rewrite filter_cons_False by (simpl; tauto). exact IH.
    + rewrite filter_cons_True by done.
      destruct text as [content|]; cbn [mbind option_bind].
      * destruct (scan_file_total name content) as [i Hi]. rewrite Hi.
        cbn [mbind option_bind].
        destruct (scan_entries entries) as [issues|]; cbn [mbind option_bind].
        -- constructor; [|done]. by exists content.
        -- by apply Exists_cons_tl.
      * by apply Exists_cons_hd.
Qed.

(** X6.  The scan is all or nothing and keeps the directory order:
    [scan_issues] returns a list exactly when every [.md] entry other
    than [README.md] and [_TEMPLATE.md] can be read, and the list then
    holds one record per such entry, in the order of the entries, each
    under the entry's name and made by [scan_file] from its text. *)
Theorem scan_issues_files (d : directory) :
  let entries := filter (λ e, e.1 ∉ EXCLUDE_FILES) (glob_md d) in
  (is_Some (scan_issues d) ↔ Forall (λ e, is_Some e.2) entries) ∧
  ∀ issues,
    scan_issues d = Some issues →
    Forall2 (λ e i, filename i = e.1 ∧
                    ∃ content, e.2 = Some content
                               ∧ scan_file e.1 content = Some i)
      entries issues.
Proof.
  intros entries. unfold entries, scan_issues. clear entries.
  pose proof (scan_entries_spec (glob_md d)) as H. unfold directory in *.
  destruct (scan_entries (glob_md d)) as [issues|]; split.
  - split; [intros _|by eauto].
    induction H as [|e i es is' (content & He & _) _ IH]; constructor; [|done].
    by rewrite He.
  - intros ? [= <-]. eapply Forall2_impl; [exact H|].
    intros e i (content & He & Hi). split; [|by eauto].
    unfold scan_file in Hi.
    destruct (parse_frontmatter content); [|done].
    destruct (extract_title content); [|done].
    by injection Hi as <-.
  - split; [by intros [? ?]|]. intros HF. exfalso.
    apply Exists_exists in H as (e & Hin & He).
    rewrite Forall_forall in HF. specialize (HF e Hin).
    rewrite He in HF. by destruct HF.
  - done.
Qed.

Lemma parse_frontmatter_none content :
  startswith (py "---") content = false
  ∨ ¬ occurs (nl :: py "---" ++ [nl]) (drop 3 content) →
  parse_frontmatter content = Some ∅ ∧ skip_frontmatter content = content.
Proof.
  unfold parse_frontmatter, skip_frontmatter.
  intros [-> | H]; [done|].
  rewrite (search_delim_none _ H). by destruct (startswith _ _).
Qed.

(** X7.  A file without frontmatter (no opening [---], or no closing
    line) is recorded with the defaults: priority [low], status [open],
    type [unknown], an empty discovery date; its title is looked for in
    the whole text. *)
Theorem scan_file_defaults (name content : pystr) :
  startswith (py "---") content = false
  ∨ ¬ occurs (nl :: py "---" ++ [nl]) (drop 3 content) →
  skip_frontmatter content = content ∧
  ∃ t, extract_title content = Some t ∧
       scan_file name content
       = Some {| filename := name; title := t; priority := py "low";
                 status := py "open"; type := py "unknown";
                 discovered := [] |}.
Proof.
  intros H. destruct (parse_frontmatter_none content H) as [Hp Hs].
  split; [done|].
  destruct (extract_title_total content) as [t Ht]. exists t.
  split; [done|]. unfold scan_file. rewrite Hp, Ht. reflexivity.
Qed.

End ScanMore.

Lemma scan_file_defaults_witness :
  skip_frontmatter (pyl ["# Leak"; "text"]) = pyl ["# Leak"; "text"] ∧
  ∃ t, extract_title (pyl ["# Leak"; "text"]) = Some t ∧
       scan_file (py "leak.md") (pyl ["# Leak"; "text"])
       = Some {| filename := py "leak.md"; title := t; priority := py "low";
                 status := py "open"; type := py "unknown";
                 discovered := [] |}.
Proof.
  apply (scan_file_defaults (py "leak.md") (pyl ["# Leak"; "text"])).
  left. vm_compute. reflexivity.
Defined.

(** ** More on generate_index_section: the buckets *)

Section GeneratorBuckets.

Variable lower : pystr → pystr.

Implicit Types (i : issue) (l issues : list issue)
  (bp : gmap pystr (list issue)) (p : pystr).

Lemma bucket_of_order i : bucket_of lower i ∈ PRIORITY_ORDER.
Proof.
  unfold bucket_of. case_bool_decide; [done|].
  unfold PRIORITY_ORDER. set_solver.
Qed.

Lemma group_issue_bucket bp i :
  three_keys bp →
  ∃ l, bp !! bucket_of lower i = Some l ∧
       group_issue lower bp i = Some (<[bucket_of lower i := l ++ [i]]> bp).
Proof.
  intros Hk. unfold group_issue, bucket_of.
  destruct (bp !! lower (priority i)) as [l|] eqn:E.
  - rewrite bool_decide_eq_true_2 by (apply Hk; eauto). eauto.
  - rewrite bool_decide_eq_false_2.
    2:{ intros Hin. apply Hk in Hin as [? Hin]. congruence. }
    assert (py "low" ∈ PRIORITY_ORDER) as Hlow
      by (unfold PRIORITY_ORDER; set_solver).
    destruct (proj2 (Hk _) Hlow) as [l Hl]. rewrite Hl. eauto.
Qed.

Lemma group_issues_buckets issues bp :
  three_keys bp →
  ∃ bp', group_issues lower bp issues = Some bp' ∧ three_keys bp' ∧
         ∀ p l, bp !! p = Some l →
                bp' !! p = Some (l ++ filter (λ i, bucket_of lower i = p) issues).
Proof.
  revert bp. induction issues as [|j issues IH]; intros bp Hk; cbn [group_issues].
  - exists bp. split_and!; [done | done |]. intros p l Hl.
    by rewrite filter_nil, app_nil_r.
  - destruct (group_issue_bucket bp j Hk) as (lj & Hlj & ->).
    cbn [mbind option_bind].
    destruct (IH (<[bucket_of lower j := lj ++ [j]]> bp)) as (bp' & -> & Hk' & H).
    { apply three_keys_insert; [done|]. apply bucket_of_order. }
    exists bp'. split_and!; [done | done |]. intros p l Hl.
    destruct (decide (bucket_of lower j = p)) as [<-|Hne].
    + rewrite filter_cons_True by done.
      rewrite (H (bucket_of lower j) (lj ++ [j])).
      * rewrite Hlj in Hl. injection Hl as ->. by rewrite <- app_assoc.
      * by rewrite lookup_insert_eq.
    + rewrite filter_cons_False by done. apply H.
      by rewrite lookup_insert_ne.
Qed.

Lemma by_priority_init_lookup p :
  p ∈ PRIORITY_ORDER → by_priority_init !! p = Some [].
Proof.
  unfold PRIORITY_ORDER. rewrite !elem_of_cons, elem_of_nil.
  intros [->|[->|[->|[]]]]; reflexivity.
Qed.

Lemma buckets_spec issues :
  ∃ bp, buckets lower issues = Some bp ∧ three_keys bp ∧
        ∀ p, p ∈ PRIORITY_ORDER →
             bp !! p = Some (sort_by_filename
                               (filter (λ i, bucket_of lower i = p) issues)).
Proof.
  destruct (group_issues_buckets issues by_priority_init (three_keys_init lower))
    as (bp & Hg & Hk & H).
  exists (sort_by_filename <$> bp). unfold buckets. rewrite Hg.
  split_and!; [done | by apply three_keys_fmap |].
  intros p Hp. rewrite lookup_fmap, (H p [] (by_priority_init_lookup p Hp)).
  done.
Qed.

(** X8.  Grouping is by the lower-cased priority, unknown ones going
    to [low]: for each of the three declared priorities the bucket is
    the list of the issues filed under it, in the order of the scan,
    sorted by file name. *)
Theorem buckets_characterised (issues : list issue) (p : pystr) :
  p ∈ PRIORITY_ORDER →
  ∃ by_priority,
    buckets lower issues = Some by_priority ∧
    by_priority !! p
    = Some (sort_by_filename (filter (λ i, bucket_of lower i = p) issues)).
Proof.
  intros Hp. destruct (buckets_spec issues) as (bp & Hb & _ & H).
  exists bp. split; [done|]. by apply H.
Qed.

(** *** The order of the file names *)

Lemma str_ltb_irrefl (a : pystr) : str_ltb a a = false.
Proof.
  induction a as [|x a IH]; simpl; [done|].
  by rewrite N.ltb_irrefl, N.eqb_refl, IH.
Qed.

Lemma str_ltb_trans (a b c : pystr) :
  str_ltb a b = true → str_ltb b c = true → str_ltb a c = true.
Proof.
  revert b c. induction a as [|x a IH]; intros [|y b] [|z c]; simpl; try done.
  rewrite !orb_true_iff, !andb_true_iff, !N.ltb_lt, !N.eqb_eq.
  intros [H1|[-> H1]] [H2|[-> H2]].
  - left. lia.
  - by left.
  - by left.
  - right. split; [done|]. by apply (IH b).
Qed.

Lemma str_ltb_total (a b : pystr) :
  str_ltb a b = false → str_ltb b a = false → a = b.
Proof.
  revert b. induction a as [|x a IH]; intros [|y b]; simpl; try done.
  rewrite !orb_false_iff, !andb_false_iff, !N.ltb_ge, !N.eqb_neq.
  intros [H1 H1'] [H2 H2'].
  assert (x = y) as -> by lia.
  f_equal. apply IH.
  - by destruct H1'.
  - by destruct H2'.
Qed.

Lemma filename_le_trans a b c :
  filename_le a b → filename_le b c → filename_le a c.
Proof.
  unfold filename_le. intros Hab Hbc.
  destruct (str_ltb (filename c) (filename a)) eqn:Hca; [|done].
  destruct (str_ltb (filename b) (filename c)) eqn:Hbc'.
  - by rewrite (str_ltb_trans _ _ _ Hbc' Hca) in Hab.
  - rewrite (str_ltb_total _ _ Hbc' Hbc) in Hab. congruence.
Qed.

Lemma str_ltb_asym (a b : pystr) : str_ltb a b = true → str_ltb b a = false.
Proof.
  intros H. destruct (str_ltb b a) eqn:E; [|done].
  pose proof (str_ltb_trans _ _ _ H E) as H'. by rewrite str_ltb_irrefl in H'.
Qed.

Lemma insert_by_filename_sorted x l :
  StronglySorted filename_le l →
  StronglySorted filename_le (insert_by_filename x l).
Proof.
  induction 1 as [|y l Hl IH Hy]; cbn [insert_by_filename].
  - by repeat constructor.
  - destruct (str_ltb (filename y) (filename x)) eqn:E.
    + constructor; [done|]. apply Forall_forall. intros z Hz.
      apply insert_by_filename_elem in Hz as [->|Hz].
      * unfold filename_le. by apply str_ltb_asym.
      * rewrite Forall_forall in Hy. by apply Hy.
    + constructor; [by constructor|]. constructor; [done|].
      eapply Forall_impl; [exact Hy|]. intros z Hz.
      by apply (filename_le_trans x y z).
Qed.

Lemma sort_by_filename_sorted l : StronglySorted filename_le (sort_by_filename l).
Proof.
  induction l as [|x l IH]; cbn [sort_by_filename]; [constructor|].
  by apply insert_by_filename_sorted.
Qed.

Lemma insert_by_filename_perm x l : insert_by_filename x l ≡ₚ x :: l.
Proof.
  induction l as [|y l IH]; cbn [insert_by_filename]; [done|].
  destruct (str_ltb _ _); [|done]. rewrite IH. apply Permutation_swap.
Qed.

Lemma sort_by_filename_perm l : sort_by_filename l ≡ₚ l.
Proof.
  induction l as [|x l IH]; cbn [sort_by_filename]; [done|].
  by rewrite insert_by_filename_perm, IH.
Qed.

(** Equal file names keep the order they had (the sort is stable). *)
Lemma insert_by_filename_stable x l n :
  filter (λ i, filename i = n) (insert_by_filename x l)
  = filter (λ i, filename i = n) (x :: l).
Proof.
  induction l as [|y l IH]; cbn [insert_by_filename]; [done|].
  destruct (str_ltb (filename y) (filename x)) eqn:E; [|done].
  assert (filename y ≠ filename x) as Hne.
  { intros Heq. rewrite Heq, str_ltb_irrefl in E. done. }
  destruct (decide (filename y = n)) as [Hy|Hy].
  - rewrite (filter_cons_True _ y) by done. rewrite IH.
    rewrite (filter_cons_False _ x) by congruence.
    rewrite (filter_cons_False _ x) by congruence.
    by rewrite (filter_cons_True _ y).
  - rewrite (filter_cons_False _ y) by done. rewrite IH.
    destruct (decide (filename x = n)) as [Hx|Hx].
    + rewrite !(filter_cons_True _ x) by done.
      by rewrite (filter_cons_False _ y).
    + rewrite !(filter_cons_False _ x) by done.
      by rewrite (filter_cons_False _ y).
Qed.

Lemma sort_by_filename_stable l n :
  filter (λ i, filename i = n) (sort_by_filename l)
  = filter (λ i, filename i = n) l.
Proof.
  induction l as [|x l IH]; cbn [sort_by_filename]; [done|].
  rewrite insert_by_filename_stable.
  destruct (decide (filename x = n)).
  - rewrite !(filter_cons_True _ x) by done. by rewrite IH.
  - rewrite !(filter_cons_False _ x) by done. by rewrite IH.
Qed.

(** X9.  Every bucket is in non-decreasing order of the file names
    (code point order), and issues of one file name keep the order the
    scan gave them: the sort is stable. *)
Theorem buckets_sorted (issues : list issue) (by_priority : gmap pystr (list issue))
    (p : pystr) (l : list issue) :
  buckets lower issues = Some by_priority →
  by_priority !! p = Some l →
  StronglySorted filename_le l ∧
  ∀ n, filter (λ i, filename i = n) l
       = filter (λ i, filename i = n ∧ bucket_of lower i = p) issues.
Proof.
  intros Hb Hl. destruct (buckets_spec issues) as (bp & Hb' & Hk & H).
  rewrite Hb in Hb'. injection Hb' as <-.
  assert (p ∈ PRIORITY_ORDER) as Hp by (apply Hk; eauto).
  rewrite (H p Hp) in Hl. injection Hl as <-.
  split; [apply sort_by_filename_sorted|].
  intros n. rewrite sort_by_filename_stable, list_filter_filter.
  apply list_filter_iff. tauto.
Qed.


(** *** The lines of the section *)

Lemma item_line_is_item i : is_item_line (item_line i).
Proof. unfold is_item_line, item_line. apply startswith_app. Qed.

Lemma filter_items_map l :
  filter is_item_line (map item_line l) = map item_line l.
Proof.
  induction l as [|i l IH]; cbn [map]; [done|].
  rewrite filter_cons_True by apply item_line_is_item. by rewrite IH.
Qed.

Lemma priority_lines_items bp p l ls :
  bp !! p = Some l → priority_lines bp p = Some ls →
  filter is_item_line ls = map item_line l.
Proof.
  unfold priority_lines. intros ->. cbn [mbind option_bind]. intros [= <-].
  rewrite filter_app. destruct l as [|x l]; [reflexivity|].
  rewrite filter_cons_False by (unfold is_item_line; by cbn).
  rewrite filter_items_map.
  rewrite (filter_cons_False _ []) by (unfold is_item_line; by cbn).
  by rewrite filter_nil, app_nil_r.
Qed.

Lemma filter_buckets_perm issues :
  filter (λ i, bucket_of lower i = py "high") issues
    ++ filter (λ i, bucket_of lower i = py "medium") issues
    ++ filter (λ i, bucket_of lower i = py "low") issues ≡ₚ issues.
Proof.
  induction issues as [|i issues IH]; [done|].
  pose proof (bucket_of_order i) as Hi. unfold PRIORITY_ORDER in Hi.
  rewrite !elem_of_cons, elem_of_nil in Hi.
  destruct Hi as [Hi|[Hi|[Hi|[]]]].
  - rewrite (filter_cons_True _ i) by done.
    rewrite !(filter_cons_False _ i) by (rewrite Hi; by intros [=]).
    cbn [app]. by rewrite IH.
  - rewrite (filter_cons_False _ i) by (rewrite Hi; by intros [=]).
    rewrite (filter_cons_True _ i) by done.
    rewrite (filter_cons_False _ i) by (rewrite Hi; by intros [=]).
    cbn [app]. rewrite <- Permutation_middle. by rewrite IH.
  - rewrite !(filter_cons_False _ i) by (rewrite Hi; by intros [=]).
    rewrite (filter_cons_True _ i) by done.
    rewrite app_assoc, <- Permutation_middle, <- app_assoc. by rewrite IH.
Qed.

Lemma index_lines_spec now issues :
  ∃ bp h m l sh sm sl,
    buckets lower issues = Some bp ∧
    bp !! py "high" = Some h ∧ bp !! py "medium" = Some m ∧
    bp !! py "low" = Some l ∧
    h ++ m ++ l ≡ₚ issues ∧
    priority_lines bp (py "high") = Some sh ∧
    priority_lines bp (py "medium") = Some sm ∧
    priority_lines bp (py "low") = Some sl ∧
    index_lines lower now issues
    = Some ([py "## Current Issues by Priority"; [];
             py "*Auto-updated: " ++ now ++ py "*"; []] ++ sh ++ sm ++ sl).
Proof.
  destruct (buckets_spec issues) as (bp & Hb & Hk & H).
  assert (∀ p, p ∈ PRIORITY_ORDER → p ∈ PRIORITY_ORDER) as Hin by done.
  pose proof (H (py "high") ltac:(unfold PRIORITY_ORDER; set_solver)) as Hh.
  pose proof (H (py "medium") ltac:(unfold PRIORITY_ORDER; set_solver)) as Hm.
  pose proof (H (py "low") ltac:(unfold PRIORITY_ORDER; set_solver)) as Hl.
  eexists bp, _, _, _, _, _, _. split_and!; [done | exact Hh | exact Hm | exact Hl | | | | |].
  - rewrite !sort_by_filename_perm. apply filter_buckets_perm.
  - unfold priority_lines. rewrite Hh. reflexivity.
  - unfold priority_lines. rewrite Hm. reflexivity.
  - unfold priority_lines. rewrite Hl. reflexivity.
  - unfold index_lines. rewrite Hb. cbn [mbind option_bind].
    unfold PRIORITY_ORDER. cbn [sections_lines].
    unfold priority_lines. rewrite Hh, Hm, Hl. cbn [mbind option_bind].
    by rewrite app_nil_r.
Qed.

(** X10.  No issue is lost and none is listed twice: the item lines
    among the lines of the generated section are, up to their order,
    the lines of the issues given, one line each. *)
Theorem index_lines_items (now : pystr) (issues : list issue)
    (lines : list pystr) :
  index_lines lower now issues = Some lines →
  filter is_item_line lines ≡ₚ map item_line issues.
Proof.
  destruct (index_lines_spec now issues)
    as (bp & h & m & l & sh & sm & sl & _ & Hh & Hm & Hl & Hperm
        & Hsh & Hsm & Hsl & ->).
  intros [= <-]. cbn [app].
  rewrite !filter_cons_False by (unfold is_item_line; by cbn).
  rewrite !filter_app.
  rewrite (priority_lines_items _ _ _ _ Hh Hsh).
  rewrite (priority_lines_items _ _ _ _ Hm Hsm).
  rewrite (priority_lines_items _ _ _ _ Hl Hsl).
  rewrite <- !map_app. by apply Permutation_map.
Qed.

(** *** The counts that [main] prints *)

(** X14.  The count that [main] prints for a priority is the number of
    issues of the bucket whose priority is spelled exactly as the
    lower-case key: it never exceeds the number of issues the section
    lists under that priority. *)
Theorem count_priority_in_bucket (issues : list issue) (p : pystr)
    (by_priority : gmap pystr (list issue)) (l : list issue) :
  lower p = p →
  buckets lower issues = Some by_priority →
  by_priority !! p = Some l →
  count_priority p issues = List.length (filter (λ i, priority i = p) l)
  ∧ count_priority p issues ≤ List.length l.
Proof.
  intros Hlow Hb Hl. destruct (buckets_spec issues) as (bp & Hb' & Hk & H).
  rewrite Hb in Hb'. injection Hb' as <-.
  assert (p ∈ PRIORITY_ORDER) as Hp by (apply Hk; eauto).
  rewrite (H p Hp) in Hl. injection Hl as <-.
  assert (count_priority p issues
          = List.length (filter (λ i, priority i = p)
                           (sort_by_filename
                              (filter (λ i, bucket_of lower i = p) issues))))
    as E.
  { unfold count_priority.
    rewrite (Permutation_length
               (filter_Permutation _ _ _ (sort_by_filename_perm _))).
    rewrite list_filter_filter. f_equal. apply list_filter_iff.
    intros i. split; [|tauto]. intros Hi. split; [done|].
    unfold bucket_of. rewrite Hi, Hlow. by rewrite bool_decide_eq_true_2. }
  split; [exact E|]. rewrite E. apply length_filter.
Qed.

End GeneratorBuckets.

Lemma buckets_characterised_witness :
  let a := {| filename := py "b.md"; title := py "B"; priority := py "HIGH";
              status := py "open"; type := py "bug"; discovered := [] |} in
  let b := {| filename := py "a.md"; title := py "A"; priority := py "high";
              status := py "open"; type := py "bug"; discovered := [] |} in
  let c := {| filename := py "c.md"; title := py "C"; priority := py "soon";
              status := py "open"; type := py "bug"; discovered := [] |} in
  ∃ by_priority,
    buckets ascii_lower [a; b; c] = Some by_priority ∧
    by_priority !! py "high"
    = Some (sort_by_filename
              (filter (λ i, bucket_of ascii_lower i = py "high") [a; b; c])).
Proof.
  intros a b c. apply (buckets_characterised ascii_lower [a; b; c] (py "high")).
  decide_by_compute.
Defined.

Lemma buckets_sorted_witness :
  let a := {| filename := py "b.md"; title := py "B"; priority := py "HIGH";
              status := py "open"; type := py "bug"; discovered := [] |} in
  let b := {| filename := py "a.md"; title := py "A"; priority := py "high";
              status := py "open"; type := py "bug"; discovered := [] |} in
  StronglySorted filename_le [b; a] ∧
  ∀ n, filter (λ i, filename i = n) [b; a]
       = filter (λ i, filename i = n ∧ bucket_of ascii_lower i = py "high")
           [a; b].
Proof.
  intros a b.
  apply (buckets_sorted ascii_lower [a; b]
           (<[py "high" := [b; a]]>
              (<[py "medium" := []]> (<[py "low" := []]> ∅)))
           (py "high") [b; a]).
  - vm_compute. reflexivity.
  - vm_compute. reflexivity.
Defined.

Lemma index_lines_items_witness :
  let a := {| filename := py "b.md"; title := py "B"; priority := py "low";
              status := py "open"; type := py "bug"; discovered := [] |} in
  let b := {| filename := py "a.md"; title := py "A"; priority := py "high";
              status := py "open"; type := py "bug"; discovered := [] |} in
  filter is_item_line
    [py "## Current Issues by Priority"; [];
     py "*Auto-updated: 2024-05-01 12:30*"; [];
     py "**High Priority:**"; py "- `a.md` - A"; [];
     py "**Medium Priority:** None currently"; [];
     py "**Low Priority:**"; py "- `b.md` - B"; []]
  ≡ₚ map item_line [a; b].
Proof.
  intros a b.
  apply (index_lines_items ascii_lower (py "2024-05-01 12:30") [a; b]).
  vm_compute. reflexivity.
Defined.

Lemma count_priority_in_bucket_witness :
  let a := {| filename := py "b.md"; title := py "B"; priority := py "HIGH";
              status := py "open"; type := py "bug"; discovered := [] |} in
  let b := {| filename := py "a.md"; title := py "A"; priority := py "high";
              status := py "open"; type := py "bug"; discovered := [] |} in
  count_priority (py "high") [a; b]
  = List.length (filter (λ i, priority i = py "high") [b; a])
  ∧ count_priority (py "high") [a; b] ≤ List.length [b; a].
Proof.
  intros a b.
  apply (count_priority_in_bucket ascii_lower [a; b] (py "high")
           (<[py "high" := [b; a]]>
              (<[py "medium" := []]> (<[py "low" := []]> ∅)))
           [b; a]).
  - vm_compute. reflexivity.
  - vm_compute. reflexivity.
  - vm_compute. reflexivity.
Defined.

(** ** More on update_readme and main *)

Section UpdateOutcomes.

Variable expand_escapes : pystr → pystr → option pystr.
Variable lower : pystr → pystr.

Implicit Types (s t doc frag : pystr) (d : list (pystr * option pystr)).

(** X11.  When the heading text does not occur in the document the
    new section goes in as it is, backslashes included: before the
    first [## Integration] heading that follows a newline, between two
    newlines, when there is one; else after the right-trimmed document
    and an empty line. *)
Theorem update_readme_text_inserts (doc frag : pystr) :
  ¬ occurs HEADING doc →
  (∀ i, first_at (nl :: py "## Integration") doc i →
        update_readme_text expand_escapes doc frag
        = Some (take i doc ++ [nl] ++ frag ++ [nl] ++ drop i doc)) ∧
  (¬ occurs (nl :: py "## Integration") doc →
   update_readme_text expand_escapes doc frag
   = Some (rstrip doc ++ [nl; nl] ++ frag)).
Proof.
  intros Hno%find_none.
  rewrite (update_readme_text_absent expand_escapes doc frag Hno). split.
  - intros i Hi%find_first_at. by rewrite Hi.
  - intros Ha%find_none. by rewrite Ha.
Qed.

(** X12.  After [update_readme]'s transform the document holds the
    new section, right-trimmed, whichever branch was taken (for a
    section without backslash). *)
Theorem update_readme_text_holds_section (doc frag doc' : pystr) :
  contains_char backslash frag = false →
  update_readme_text expand_escapes doc frag = Some doc' →
  occurs (rstrip frag) doc'.
Proof.
  intros Hb Hu. destruct (rstrip_split frag) as (ws & Hfrag & _).
  destruct (find HEADING doc) as [i|] eqn:Hf.
  - destruct (regions_replaced_total (rstrip frag ++ [nl]) doc) as [out Hr].
    rewrite (update_readme_text_found expand_escapes doc frag out) in Hu;
      [|by rewrite Hf | done | done].
    injection Hu as <-.
    destruct Hr as [s Hn|s j out Hj _]; [congruence|].
    exists (take j s), ([nl] ++ out). by rewrite <- !app_assoc.
  - rewrite (update_readme_text_absent expand_escapes doc frag Hf) in Hu.
    destruct (find (nl :: py "## Integration") doc) as [j|];
      injection Hu as <-.
    + exists (take j doc ++ [nl]), (ws ++ [nl] ++ drop j doc).
      rewrite Hfrag at 1. by rewrite <- !app_assoc.
    + exists (rstrip doc ++ [nl; nl]), ws.
      rewrite Hfrag at 1. by rewrite <- !app_assoc.
Qed.

(** *** What [main] does to the directory *)

Lemma write_readme_frame text d :
  Forall2 (λ e e', e'.1 = e.1 ∧ (e.1 ≠ README → e' = e)) d (write_readme text d).
Proof.
  induction d as [|e d IH]; cbn [write_readme map]; constructor; [|exact IH].
  case_bool_decide; [|done]. split; [done|]. by intros ?.
Qed.

Lemma same_frame d :
  Forall2 (λ e e', e'.1 = e.1 ∧ (e.1 ≠ README → e' = e)) d d.
Proof. induction d; constructor; auto. Qed.

Lemma main_directory now d :
  (main expand_escapes lower now d).1.1 = d
  ∨ ∃ text, (main expand_escapes lower now d).1.1 = write_readme text d.
Proof.
  unfold main. destruct (scan_issues d) as [issues|]; [|by left].
  destruct (generate_index_section lower now issues) as [s|]; [|by left].
  unfold update_readme.
  destruct (readme_entry d) as [[content|]|]; [|by left..].
  destruct (update_readme_text expand_escapes content s) as [new|]; [|by left].
  right. by exists new.
Qed.

(** X13.  However [main] ends, the directory has the same entries in
    the same order afterwards, and none but [README.md] has changed. *)
Theorem main_rewrites_only_readme (now : pystr) (d : directory) :
  Forall2 (λ e e', e'.1 = e.1 ∧ (e.1 ≠ README → e' = e))
    d (main expand_escapes lower now d).1.1.
Proof.
  destruct (main_directory now d) as [-> | [text ->]].
  - apply same_frame.
  - apply write_readme_frame.
Qed.

End UpdateOutcomes.

Lemma update_readme_text_inserts_witness :
  let esc : pystr → pystr → option pystr := λ _ _, None in
  let frag := pyl ["## Current Issues by Priority"; "a\b"; ""] in
  update_readme_text esc (pyl ["# Debt"; ""; "## Integration"; "notes"]) frag
  = Some (pyl ["# Debt"; ""; "## Current Issues by Priority"; "a\b"; "";
               ""; "## Integration"; "notes"])
  ∧ update_readme_text esc (pyl ["# Debt"; "notes"; ""; ""]) frag
    = Some (pyl ["# Debt"; "notes"; ""; "## Current Issues by Priority";
                 "a\b"; ""]).
Proof.
  intros esc frag. split.
  - apply (proj1 (update_readme_text_inserts esc
                    (pyl ["# Debt"; ""; "## Integration"; "notes"]) frag
                    ltac:(apply find_none; vm_compute; reflexivity)) 7).
    apply find_first_at. vm_compute. reflexivity.
  - apply (proj2 (update_readme_text_inserts esc
                    (pyl ["# Debt"; "notes"; ""; ""]) frag
                    ltac:(apply find_none; vm_compute; reflexivity))).
    apply find_none. vm_compute. reflexivity.
Defined.

Lemma update_readme_text_holds_section_witness :
  occurs (rstrip (pyl ["## Current Issues by Priority"; "new"; ""; ""]))
    (pyl ["# Debt"; "## Current Issues by Priority"; "new"; ""; "## Next"]).
Proof.
  apply (update_readme_text_holds_section (λ _ _, None)
           (pyl ["# Debt"; "## Current Issues by Priority"; "old"; "";
                 "## Next"])
           (pyl ["## Current Issues by Priority"; "new"; ""; ""])).
  - vm_compute. reflexivity.
  - vm_compute. reflexivity.
Defined.

(** ** Running main twice *)

Section MainTwice.

Variable expand_escapes : pystr → pystr → option pystr.
Variable lower : pystr → pystr.

Implicit Types (s t doc frag l a b u : pystr) (ls : list pystr)
  (d es : list (pystr * option pystr)) (i : issue).

Lemma app_nl_split l t a u :
  nl ∉ l → l ++ nl :: t = a ++ nl :: u →
  (a = l ∧ t = u) ∨ ∃ a', a = l ++ nl :: a' ∧ t = a' ++ nl :: u.
Proof.
  revert a. induction l as [|x l IH]; intros a Hl; cbn [app].
  - destruct a as [|y a]; cbn [app].
    + intros [= ->]. by left.
    + intros [= <- ->]. right. by exists a.
  - destruct a as [|y a]; cbn [app].
    + intros [= -> _]. set_solver.
    + intros [= <- E]. destruct (IH a) as [[-> ->]|(a' & -> & ->)];
        [set_solver | done | by left | right; by exists a'].
Qed.

Lemma join_nl_cons l ls :
  join_nl (l :: ls) = match ls with [] => l | _ :: _ => l ++ nl :: join_nl ls end.
Proof. by destruct ls. Qed.

Lemma join_nl_head l ls b :
  nl ∉ l → join_nl (l :: ls) = py "## " ++ b → startswith (py "## ") l = true.
Proof.
  intros Hl. rewrite join_nl_cons.
  assert (∀ r, l ++ r = py "## " ++ b → (r = [] ∨ ∃ r', r = nl :: r') →
               startswith (py "## ") l = true) as H.
  { intros r E Hr. apply startswith_true.
    destruct l as [|x1 [|x2 [|x3 l]]]; cbn [app] in E.
    - destruct Hr as [->|[r' ->]]; discriminate E.
    - destruct Hr as [->|[r' ->]]; discriminate E.
    - destruct Hr as [->|[r' ->]]; discriminate E.
    - injection E as -> -> -> _. by exists l. }
  destruct ls as [|l2 ls].
  - intros E. apply (H []); [by rewrite app_nil_r | by left].
  - intros E. apply (H _ E). right. eauto.
Qed.

(** No line after the first begins a region boundary. *)
Lemma join_nl_no_boundary ls a b :
  Forall (λ l, nl ∉ l) ls →
  Forall (λ l, startswith (py "## ") l = false) (tail ls) →
  join_nl ls ≠ a ++ nl :: py "## " ++ b.
Proof.
  revert a. induction ls as [|l ls IH]; intros a Hnl Hh.
  - cbn. by destruct a.
  - rewrite join_nl_cons. inversion_clear Hnl as [|? ? Hl Hls].
    cbn [tail] in Hh. destruct ls as [|l2 ls].
    + intros E. apply Hl. rewrite E. set_solver.
    + inversion_clear Hh as [|? ? Hl2 Hh'].
      intros E.
      destruct (app_nl_split _ _ _ _ Hl E) as [[-> E']|(a' & -> & E')].
      * inversion_clear Hls as [|? ? Hl2' _].
        apply join_nl_head in E'; [congruence | done].
      * apply (IH a'); [done | | done].
        cbn [tail]. clear -Hh'. by destruct ls.
Qed.

Lemma join_nl_no_inner_heading ls pre post :
  Forall (λ l, nl ∉ l) ls →
  Forall (λ l, startswith (py "## ") l = false) (tail ls) →
  join_nl ls = pre ++ post → no_inner_heading pre.
Proof.
  intros Hnl Hh E a c b ->. exfalso.
  apply (join_nl_no_boundary ls a (c :: b ++ post) Hnl Hh).
  rewrite E. rewrite <- !app_assoc. cbn [app]. by rewrite <- !app_assoc.
Qed.

Lemma item_line_plain i : issue_plain i → plain_line (item_line i).
Proof.
  intros [Hf Ht]. unfold item_line. split; [|by cbn].
  rewrite !elem_of_app. intros [H|[H|[H|H]]]; try done.
  - revert H. decide_by_compute.
  - revert H. decide_by_compute.
Qed.

Lemma priority_lines_plain (bp : gmap pystr (list issue)) p (l : list issue) ls :
  p ∈ PRIORITY_ORDER → bp !! p = Some l → Forall issue_plain l →
  priority_lines bp p = Some ls → Forall plain_line ls.
Proof.
  intros Hp Hl Hpl. unfold priority_lines. rewrite Hl.
  cbn [mbind option_bind]. intros [= <-].
  assert (plain_line []) as Hnil by (split; [set_solver|done]).
  assert (plain_line (py "**" ++ capitalize p ++ py " Priority:**")
          ∧ plain_line (py "**" ++ capitalize p ++ py " Priority:** None currently"))
    as [H1 H2].
  { unfold PRIORITY_ORDER in Hp. rewrite !elem_of_cons, elem_of_nil in Hp.
    destruct Hp as [->|[->|[->|[]]]]; split; split;
      solve [decide_by_compute | reflexivity]. }
  apply Forall_app. split; [|by apply Forall_singleton].
  destruct l as [|x l]; [by apply Forall_singleton|].
  constructor; [done|]. apply Forall_fmap.
  eapply Forall_impl; [exact Hpl|]. apply item_line_plain.
Qed.

Lemma generated_section_shape now (issues : list issue) s :
  nl ∉ now → Forall issue_plain issues →
  generate_index_section lower now issues = Some s →
  first_line_is_heading s ∧ no_inner_heading (rstrip s).
Proof.
  intros Hnow Hpl. unfold generate_index_section.
  destruct (index_lines_spec lower now issues)
    as (bp & h & m & l & sh & sm & sl & _ & Hh & Hm & Hl & Hperm
        & Hsh & Hsm & Hsl & ->).
  cbn [mbind option_bind]. intros [= <-].
  assert (Forall issue_plain (h ++ m ++ l)) as Hall by by rewrite Hperm.
  apply Forall_app in Hall as [Hph Hall]. apply Forall_app in Hall as [Hpm Hpll].
  assert (Forall plain_line (sh ++ sm ++ sl)) as Hlines.
  { rewrite !Forall_app. split_and!.
    - apply (priority_lines_plain bp (py "high") h); try done.
      unfold PRIORITY_ORDER; set_solver.
    - apply (priority_lines_plain bp (py "medium") m); try done.
      unfold PRIORITY_ORDER; set_solver.
    - apply (priority_lines_plain bp (py "low") l); try done.
      unfold PRIORITY_ORDER; set_solver. }
  split.
  - exists (nl :: join_nl ([] :: (py "*Auto-updated: " ++ now ++ py "*") :: []
                             :: sh ++ sm ++ sl)).
    split; [reflexivity|]. right. eauto.
  - destruct (rstrip_split
                (join_nl ([py "## Current Issues by Priority"; [];
                           py "*Auto-updated: " ++ now ++ py "*"; []]
                            ++ sh ++ sm ++ sl))) as (ws & E & _).
    apply (join_nl_no_inner_heading _ _ ws) with (3 := E).
    + cbn [app]. repeat constructor.
      * decide_by_compute.
      * set_solver.
      * rewrite !elem_of_app. intros [H|[H|H]]; try done;
          revert H; decide_by_compute.
      * set_solver.
      * eapply Forall_impl; [exact Hlines|]. by intros ? [? _].
    + cbn [app tail]. repeat constructor.
      eapply Forall_impl; [exact Hlines|]. by intros ? [_ ?].
Qed.


(** *** The directory after the README was rewritten *)

Lemma write_readme_twice text d :
  write_readme text (write_readme text d) = write_readme text d.
Proof.
  unfold write_readme. rewrite map_map. apply map_ext. intros [n c].
  cbn [fst]. destruct (bool_decide (n = README)) eqn:E; cbn [fst]; by rewrite E.
Qed.

Lemma readme_entry_written text d x :
  readme_entry d = Some x → readme_entry (write_readme text d) = Some (Some text).
Proof.
  unfold readme_entry. induction d as [|[n c] d IH]; cbn; [done|].
  case_bool_decide as H; cbn.
  - by rewrite bool_decide_eq_true_2.
  - rewrite bool_decide_eq_false_2 by done. exact IH.
Qed.

Lemma glob_md_written text d :
  glob_md (write_readme text d) = write_readme text (glob_md d).
Proof.
  unfold glob_md, directory, write_readme.
  induction d as [|[n c] d IH]; [done|]. cbn [map].
  assert ((if bool_decide ((n, c).1 = README) then ((n, c).1, Some text)
           else (n, c)).1 = n) as Hn by by case_bool_decide.
  destruct (decide (endswith (py ".md") n = true)) as [E|E].
  - rewrite filter_cons_True by (by rewrite Hn).
    rewrite (filter_cons_True _ (n, c)) by done.
    cbn [map]. by rewrite <- IH.
  - rewrite filter_cons_False by (by rewrite Hn).
    by rewrite (filter_cons_False _ (n, c)).
Qed.

Lemma scan_entries_written text es :
  scan_entries (write_readme text es) = scan_entries es.
Proof.
  induction es as [|[n c] es IH]; [done|]. cbn [write_readme map fst].
  case_bool_decide as H; cbn [scan_entries].
  - rewrite !bool_decide_eq_true_2; [exact IH|..];
      rewrite H; unfold EXCLUDE_FILES, README; set_solver.
  - fold (write_readme text es). by rewrite IH.
Qed.

Lemma scan_issues_written text d :
  scan_issues (write_readme text d) = scan_issues d.
Proof. unfold scan_issues. by rewrite glob_md_written, scan_entries_written. Qed.

(** What the scan puts into the records: the entry's name, and a title
    of one line. *)
Lemma scan_entries_plain es (issues : list issue) :
  Forall (λ e, nl ∉ e.1) es →
  scan_entries es = Some issues → Forall issue_plain issues.
Proof.
  intros Hes Hs. pose proof (scan_entries_spec es) as H. rewrite Hs in H.
  assert (Forall (λ e : pystr * option pystr, nl ∉ e.1)
            (filter (λ e, e.1 ∉ EXCLUDE_FILES) es)) as Hes'.
  { unfold directory in *. apply Forall_forall.
    intros e [_ He]%list_elem_of_filter.
    rewrite Forall_forall in Hes. by apply Hes. }
  clear Hes Hs. unfold directory in *.
  set (fl := filter (λ e : pystr * option pystr, e.1 ∉ EXCLUDE_FILES) es) in *.
  clearbody fl.
  induction H as [|e i es' is' (content & _ & Hi) _ IH]; [constructor|].
  inversion_clear Hes' as [|? ? He Hes''].
  constructor; [|by apply IH].
  unfold scan_file in Hi.
  destruct (parse_frontmatter content) as [fm|]; [|done].
  destruct (extract_title content) as [t|] eqn:Ht; [|done].
  injection Hi as <-. split; [exact He|]. cbn [title].
  destruct (extract_title_cases content)
    as [[_ E]|(j & w & grp & after & _ & _ & _ & _ & _ & Hg & _ & E)];
    rewrite E in Ht; injection Ht as <-.
  - decide_by_compute.
  - intros H'%strip_elem. rewrite Forall_forall in Hg. by apply (Hg nl).
Qed.


End MainTwice.


(** ** session-archive.py *)

Import SessionArchive.

Section ArchiveFacts.

Implicit Types (fs : gmap (list pystr) node) (cwd cur p q : list pystr)
  (c s : pystr) (t : datetime).

Lemma split_no_sep sep s : contains_char sep s = false → split sep s = [s].
Proof.
  unfold contains_char. induction s as [|x s IH]; cbn [existsb split]; [done|].
  rewrite (N.eqb_sym sep x). destruct (x =? sep)%N; [done|]. cbn [orb].
  intros H. by rewrite IH.
Qed.

(** A name without slash, other than [.], is a path of one component. *)
Lemma Path_single s :
  contains_char slash s = false → 2 ≤ List.length s → parts (Path s) = [s].
Proof.
  intros Hs Hl. unfold Path. cbn [parts]. rewrite split_no_sep by done.
  rewrite filter_cons_True; [done|].
  split; intros ->; simpl in Hl; lia.
Qed.

Lemma digit_stamp n : stamp_char (digit n).
Proof.
  unfold stamp_char, digit. intros H.
  apply (f_equal N.to_nat) in H. rewrite Nat2N.id in H.
  change (N.to_nat slash) with 47 in H. lia.
Qed.

Lemma decimal_from_stamp fuel n acc :
  Forall stamp_char acc → Forall stamp_char (decimal_from fuel n acc).
Proof.
  revert n acc. induction fuel as [|fuel IH]; intros n acc Hacc; simpl; [done|].
  destruct (n <? 10).
  - constructor; [apply digit_stamp | done].
  - apply IH. constructor; [apply digit_stamp | done].
Qed.

Lemma pad2_stamp n : Forall stamp_char (pad2 n).
Proof.
  unfold pad2. destruct (n <? 10).
  - repeat constructor; [done | apply digit_stamp].
  - by apply decimal_from_stamp.
Qed.

Lemma strftime_stamp t : Forall stamp_char (strftime t).
Proof.
  unfold strftime. repeat apply Forall_app_2;
    try apply pad2_stamp; try (by apply decimal_from_stamp);
    by repeat constructor.
Qed.

Lemma stamp_no_slash s : Forall stamp_char s → contains_char slash s = false.
Proof.
  unfold contains_char. induction 1 as [|x s Hx _ IH]; [done|].
  cbn [existsb]. rewrite IH, orb_false_r. apply N.eqb_neq.
  intros H. by apply Hx.
Qed.

(** The file name of the archive is a single path component. *)
Lemma filename_single t sid :
  contains_char slash sid = false →
  parts (Path (strftime t ++ py "_" ++ sid ++ py ".jsonl"))
  = [strftime t ++ py "_" ++ sid ++ py ".jsonl"].
Proof.
  intros Hs. apply Path_single.
  - rewrite !contains_char_app, Hs, (stamp_no_slash _ (strftime_stamp t)).
    done.
  - rewrite !length_app. simpl. lia.
Qed.

Lemma walk_name fs cur c comps :
  is_dir fs cur = true → c ≠ dotdot →
  walk fs cur (c :: comps) = walk fs (cur ++ [c]) comps.
Proof.
  intros Hd Hc. cbn [walk]. rewrite Hd. by rewrite bool_decide_eq_false_2.
Qed.

(** [find_project_root] returns the innermost location, the root apart,
    on the way up from the resolved start that holds [.memory-bank]. *)
Lemma search_up_nearest fs r cur :
  search_up fs r = Some cur →
  ∃ k, k < List.length r ∧ cur = reverse (drop k r) ∧
       path_exists fs [] (MkPath true (cur ++ [py ".memory-bank"])) = true ∧
       ∀ j, j < k →
            path_exists fs []
              (MkPath true (reverse (drop j r) ++ [py ".memory-bank"])) = false.
Proof.
  induction r as [|x r IH]; cbn [search_up]; [done|].
  destruct (path_exists fs [] (MkPath true (reverse (x :: r) ++ _))) eqn:E.
  - intros [= <-]. exists 0. split_and!; [simpl; lia | done | done | lia].
  - intros (k & Hk & -> & He & Hj)%IH. exists (S k).
    split_and!; [simpl; lia | done | done |].
    intros [|j] Hlt; [done|]. apply Hj. lia.
Qed.

Lemma is_dir_true fs p : is_dir fs p = true → node_at fs p = Some Dir.
Proof. unfold is_dir. by destruct (node_at fs p) as [[]|]. Qed.

Lemma is_dir_lookup fs p : fs !! p = Some Dir → is_dir fs p = true.
Proof. intros H. unfold is_dir, node_at. destruct p; [done | by rewrite H]. Qed.

Lemma well_formed_parent fs p n :
  well_formed fs → fs !! p = Some n → is_dir fs (removelast p) = true.
Proof. intros Hwf H. by destruct (Hwf p n H). Qed.

Lemma mkdir_from_dir fs cur c comps :
  node_at fs (cur ++ [c]) = Some Dir →
  mkdir_from fs cur (c :: comps) = mkdir_from fs (cur ++ [c]) comps.
Proof. intros H. cbn [mkdir_from]. by rewrite H. Qed.

Lemma mkdir_from_new fs cur c comps :
  node_at fs (cur ++ [c]) = None → is_dir fs cur = true →
  mkdir_from fs cur (c :: comps)
  = mkdir_from (<[cur ++ [c] := Dir]> fs) (cur ++ [c]) comps.
Proof. intros H Hd. cbn [mkdir_from]. by rewrite H, Hd. Qed.

Lemma node_at_cons fs x p : node_at fs (x :: p) = fs !! (x :: p).
Proof. done. Qed.

(** The outcome of [main] once the three file system steps are known. *)
Lemma main_finished (now : datetime) (data : gmap pystr pystr) fs cwd
    (fs1 fs2 : gmap (list pystr) node) :
  let session_id := get data (py "session_id") (py "unknown") in
  let transcript_path := Path (get data (py "transcript_path") []) in
  let project_root :=
    find_project_root fs cwd (Path (get data (py "cwd") (py "."))) in
  let destination_dir := project_root ++ [py ".memory-bank"; py "sessions"] in
  let filename :=
    strftime now ++ py "_" ++ short_id session_id ++ py ".jsonl" in
  mkdir_parents fs destination_dir = Some fs1 →
  path_exists fs1 cwd transcript_path = true →
  copy2 fs1 cwd transcript_path (destination_dir ++ parts (Path filename))
    = Some fs2 →
  main now (Some data) fs cwd =
  (fs2,
   [MsgArchived (default [] (last project_root)) filename
      (get data (py "reason") (py "unknown"))],
   Finished).
Proof.
  intros sid tp root dir filename Hm He Hc. unfold main.
  fold sid tp root. fold dir. rewrite Hm, He. cbn [negb].
  fold filename. by rewrite Hc.
Qed.

Section ArchiveExample.

Variables (now : datetime) (fs : gmap (list pystr) node) (cwd : list pystr)
  (content : pystr).

Hypothesis fs_wf : well_formed fs.
Hypothesis memory_bank : fs !! [py "proj"; py ".memory-bank"] = Some Dir.
Hypothesis transcript : fs !! [py "tmp"; py "t.jsonl"] = Some (File content).
Hypothesis sessions_free : ∀ c, fs !! example_sessions ≠ Some (File c).

Lemma example_proj_dir : is_dir fs [py "proj"] = true.
Proof. exact (well_formed_parent _ _ _ fs_wf memory_bank). Qed.

Lemma example_tmp_dir : is_dir fs [py "tmp"] = true.
Proof. exact (well_formed_parent _ _ _ fs_wf transcript). Qed.

Lemma example_root :
  find_project_root fs cwd (Path (py "/proj")) = [py "proj"].
Proof.
  unfold find_project_root.
  change (resolve cwd (Path (py "/proj"))) with [py "proj"].
  change (reverse [py "proj"]) with [py "proj"]. cbn [search_up].
  change (reverse [py "proj"]) with [py "proj"].
  unfold path_exists, locate. cbn [absolute parts app].
  rewrite walk_name; [|done|decide_by_compute].
  rewrite walk_name; [|apply example_proj_dir|decide_by_compute].
  cbn [walk app]. by destruct (bool_decide _).
Qed.

(** The destination directory after [mkdir]: there, and nothing else
    touched. *)
Lemma example_mkdir :
  ∃ fs1, mkdir_parents fs example_sessions = Some fs1 ∧
         fs1 !! example_sessions = Some Dir ∧
         ∀ p, p ≠ example_sessions → fs1 !! p = fs !! p.
Proof.
  unfold mkdir_parents, example_sessions.
  rewrite mkdir_from_dir by apply (is_dir_true _ _ example_proj_dir).
  rewrite mkdir_from_dir
    by apply (is_dir_true _ _ (is_dir_lookup _ _ memory_bank)).
  pose proof sessions_free as Hs. unfold example_sessions in Hs.
  cbn [app].
  destruct (fs !! [py "proj"; py ".memory-bank"; py "sessions"])
    as [[c|]|] eqn:E.
  - by destruct (Hs c).
  - exists fs. split; [|done]. by rewrite mkdir_from_dir.
  - rewrite mkdir_from_new; [|done|by apply is_dir_lookup].
    eexists. split; [done|]. cbn [app].
    split; [by rewrite lookup_insert_eq|].
    intros p Hp. by rewrite lookup_insert_ne.
Qed.

Hypothesis destination_free :
  fs !! (example_sessions ++ [strftime now ++ py "_abcdef12.jsonl"]) ≠ Some Dir.

Section AfterMkdir.

Variable fs1 : gmap (list pystr) node.
Hypothesis sessions_dir : fs1 !! example_sessions = Some Dir.
Hypothesis elsewhere : ∀ p, p ≠ example_sessions → fs1 !! p = fs !! p.

Lemma is_dir_elsewhere p :
  p ≠ example_sessions → is_dir fs1 p = is_dir fs p.
Proof.
  intros Hp. unfold is_dir, node_at. destruct p; [done|]. by rewrite elsewhere.
Qed.

Lemma example_transcript_located :
  locate fs1 cwd (Path (py "/tmp/t.jsonl")) = Some [py "tmp"; py "t.jsonl"].
Proof.
  change (Path (py "/tmp/t.jsonl")) with (MkPath true [py "tmp"; py "t.jsonl"]).
  unfold locate. cbn [absolute parts].
  rewrite walk_name; [|done|decide_by_compute].
  rewrite walk_name; [done| |decide_by_compute].
  cbn [app]. rewrite is_dir_elsewhere by decide_by_compute.
  apply example_tmp_dir.
Qed.

Lemma example_transcript_node :
  node_at fs1 [py "tmp"; py "t.jsonl"] = Some (File content).
Proof.
  rewrite node_at_cons, elsewhere by decide_by_compute. exact transcript.
Qed.

Lemma example_walk_sessions :
  walk fs1 [] example_sessions = Some example_sessions.
Proof.
  unfold example_sessions.
  rewrite walk_name; [|done|decide_by_compute].
  rewrite walk_name; [| |decide_by_compute].
  2:{ cbn [app]. rewrite is_dir_elsewhere by decide_by_compute.
      apply example_proj_dir. }
  rewrite walk_name; [done| |decide_by_compute].
  cbn [app]. rewrite is_dir_elsewhere by decide_by_compute.
  by apply is_dir_lookup.
Qed.

Lemma walk_app fs' cur a b :
  walk fs' cur (a ++ b) = q ← walk fs' cur a; walk fs' q b.
Proof.
  revert cur. induction a as [|x a IH]; intros cur; cbn [app walk]; [done|].
  destruct (is_dir fs' cur); [apply IH | done].
Qed.

Lemma example_filename_not_dotdot :
  strftime now ++ py "_abcdef12.jsonl" ≠ dotdot.
Proof.
  intros H. apply (f_equal List.length) in H. rewrite length_app in H.
  simpl in H. lia.
Qed.

Lemma example_destination_not_sessions :
  example_sessions ++ [strftime now ++ py "_abcdef12.jsonl"] ≠ example_sessions.
Proof. intros H. apply (f_equal List.length) in H. simpl in H. lia. Qed.

Lemma example_destination_not_dir :
  is_dir fs1 (example_sessions ++ [strftime now ++ py "_abcdef12.jsonl"])
  = false.
Proof.
  rewrite is_dir_elsewhere by apply example_destination_not_sessions.
  pose proof destination_free as H. unfold is_dir, example_sessions in *.
  cbn [app] in *. rewrite node_at_cons.
  destruct (fs !! [_; _; _; _]) as [[]|] eqn:E; try done.
Qed.

Lemma example_copy :
  copy2 fs1 cwd (Path (py "/tmp/t.jsonl"))
    (example_sessions ++ [strftime now ++ py "_abcdef12.jsonl"])
  = Some (<[example_sessions ++ [strftime now ++ py "_abcdef12.jsonl"]
            := File content]> fs1).
Proof.
  unfold copy2. rewrite example_transcript_located. cbn [mbind option_bind].
  rewrite example_transcript_node.
  assert (walk fs1 [] (example_sessions
                       ++ [strftime now ++ py "_abcdef12.jsonl"])
          = Some (example_sessions ++ [strftime now ++ py "_abcdef12.jsonl"]))
    as Hw.
  { rewrite walk_app, example_walk_sessions. cbn [mbind option_bind].
    rewrite walk_name; [done | by apply is_dir_lookup |].
    apply example_filename_not_dotdot. }
  rewrite Hw, example_destination_not_dir.
  unfold open_for_writing.
  rewrite removelast_last, example_walk_sessions, last_snoc.
  cbn [mbind option_bind].
  rewrite (is_dir_lookup _ _ sessions_dir), example_destination_not_dir.
  rewrite bool_decide_eq_false_2 by apply example_filename_not_dotdot.
  cbn [andb negb mbind option_bind].
  rewrite bool_decide_eq_false_2; [done|].
  unfold example_sessions. discriminate.
Qed.

End AfterMkdir.


End ArchiveExample.

(** [data.get] with the default written into the object. *)
Lemma get_insert_default (data : gmap pystr pystr) (k v k' d : pystr) :
  data !! k = None → (k' = k → d = v) →
  get (<[k := v]> data) k' d = get data k' d.
Proof.
  intros Hk Hd. unfold get. rewrite lookup_insert. case_decide as E.
  - subst k'. by rewrite Hk, Hd.
  - done.
Qed.

Lemma main_default (now : datetime) (data : gmap pystr pystr) fs cwd
    (k v : pystr) :
  (k, v) ∈ [(py "session_id", py "unknown"); (py "reason", py "unknown");
            (py "cwd", py "."); (py "transcript_path", [])] →
  data !! k = None →
  main now (Some (<[k := v]> data)) fs cwd = main now (Some data) fs cwd.
Proof.
  intros Hkv Hk. unfold main.
  repeat (apply elem_of_cons in Hkv as [[= -> ->]|Hkv]);
    [..|by apply elem_of_nil in Hkv];
    rewrite !get_insert_default
      by (done || (intros E; vm_compute in E; discriminate E));
    done.
Qed.

Lemma short_id_whole sid : List.length sid < 8 → short_id sid = sid.
Proof.
  intros H. unfold short_id.
  destruct (8 <=? List.length sid) eqn:E; [|done].
  apply Nat.leb_le in E. lia.
Qed.


End ArchiveFacts.

Lemma example_fs_well_formed : well_formed example_fs.
Proof.
  intros p n H%elem_of_map_to_list. vm_compute in H.
  repeat (apply elem_of_cons in H as [[= -> ->]|H]);
    [..|by apply elem_of_nil in H];
    (split; [discriminate | vm_compute; reflexivity]).
Qed.




(** ** More on find_project_root *)

Section ProjectRoot.

Implicit Types (fs : gmap (list pystr) node) (cwd cur p q r : list pystr)
  (start : path).

Lemma search_up_take r k :
  reverse (drop k (reverse r)) = take (List.length r - k) r.
Proof. by rewrite drop_reverse, reverse_involutive. Qed.

Lemma search_up_none fs r :
  search_up fs r = None →
  ∀ j, j < List.length r → has_memory_bank fs (reverse (drop j r)) = false.
Proof.
  induction r as [|x r IH]; cbn [search_up]; [simpl; lia|].
  destruct (path_exists fs [] (MkPath true (reverse (x :: r) ++ _))) eqn:E;
    [done|].
  intros H [|j] Hj; [exact E|]. apply IH; [done|]. simpl in Hj. lia.
Qed.

(** The ways [find_project_root] ends. *)
Lemma find_project_root_cases fs cwd start :
  let s := resolve cwd start in
  (find_project_root fs cwd start = s ∧
   ∀ n, 0 < n → n ≤ List.length s → has_memory_bank fs (take n s) = false)
  ∨ (∃ n, 0 < n ∧ n ≤ List.length s ∧
          find_project_root fs cwd start = take n s ∧
          has_memory_bank fs (take n s) = true ∧
          ∀ m, n < m → m ≤ List.length s → has_memory_bank fs (take m s) = false).
Proof.
  intros s. unfold find_project_root. fold s.
  destruct (search_up fs (reverse s)) as [cur|] eqn:E.
  - right. apply search_up_nearest in E as (k & Hk & -> & He & Hj).
    rewrite length_reverse in Hk. rewrite search_up_take in He |- *.
    exists (List.length s - k). split_and!; [lia | lia | done | done |].
    intros m Hm1 Hm2. specialize (Hj (List.length s - m) ltac:(lia)).
    rewrite search_up_take in Hj.
    replace (List.length s - (List.length s - m)) with m in Hj by lia.
    exact Hj.
  - left. split; [done|]. intros n Hn1 Hn2.
    pose proof (search_up_none fs _ E (List.length s - n)) as H.
    rewrite length_reverse, search_up_take in H.
    replace (List.length s - (List.length s - n)) with n in H by lia.
    apply H. lia.
Qed.

Lemma prefix_take_length q s : q `prefix_of` s → q = take (List.length q) s.
Proof. intros [k ->]. by rewrite take_app_length. Qed.



(** *** Resolved paths *)

Lemma normalize_snoc comps c :
  normalize (comps ++ [c])
  = if bool_decide (c = dotdot) then removelast (normalize comps)
    else normalize comps ++ [c].
Proof. unfold normalize. by rewrite fold_left_app. Qed.

Lemma removelast_no_dotdot p : dotdot ∉ p → dotdot ∉ removelast p.
Proof.
  intros H Hin. apply H. clear H. induction p as [|x p IH]; [done|].
  simpl in Hin. destruct p; [set_solver|].
  apply elem_of_cons in Hin as [->|Hin]; [left|right; auto].
Qed.

Lemma normalize_no_dotdot comps : dotdot ∉ normalize comps.
Proof.
  induction comps as [|c comps IH] using rev_ind; [set_solver|].
  rewrite normalize_snoc. case_bool_decide.
  - by apply removelast_no_dotdot.
  - set_solver.
Qed.

Lemma normalize_id p : dotdot ∉ p → normalize p = p.
Proof.
  induction p as [|c p IH] using rev_ind; [done|]. intros H.
  rewrite normalize_snoc, bool_decide_eq_false_2 by set_solver.
  rewrite IH; [done|set_solver].
Qed.

Lemma take_no_dotdot n p : dotdot ∉ p → dotdot ∉ take n p.
Proof.
  intros H Hin. apply H. rewrite <- (take_drop n p). set_solver.
Qed.

Lemma find_project_root_no_dotdot fs cwd start :
  dotdot ∉ find_project_root fs cwd start.
Proof.
  pose proof (normalize_no_dotdot
                ((if absolute start then [] else cwd) ++ parts start)) as Hs.
  fold (resolve cwd start) in Hs.
  destruct (find_project_root_cases fs cwd start)
    as [[-> _]|(n & _ & _ & -> & _ & _)]; [done|].
  by apply take_no_dotdot.
Qed.


End ProjectRoot.



(** ** More on the archiving main *)

Section ArchiveEffects.

Implicit Types (fs : gmap (list pystr) node) (cwd cur p q comps : list pystr)
  (c s : pystr) (n : node).

(** *** mkdir *)

Lemma node_at_snoc fs cur c : node_at fs (cur ++ [c]) = fs !! (cur ++ [c]).
Proof. by destruct cur. Qed.

Lemma is_dir_insert_other fs p q n :
  is_dir fs q = true → p ≠ [] → fs !! p = None →
  is_dir (<[p := n]> fs) q = true.
Proof.
  unfold is_dir, node_at. destruct q as [|x q]; [done|].
  intros H Hp Hn. rewrite lookup_insert_ne; [done|].
  intros ->. by rewrite Hn in H.
Qed.

Lemma mkdir_from_spec comps fs cur fs' :
  mkdir_from fs cur comps = Some fs' →
  is_dir fs cur = true →
  is_dir fs' (cur ++ comps) = true ∧
  (∀ q n, fs !! q = Some n → fs' !! q = Some n) ∧
  (∀ q n, fs' !! q = Some n →
          fs !! q = Some n ∨ (n = Dir ∧ q `prefix_of` cur ++ comps)).
Proof.
  revert fs cur. induction comps as [|c comps IH]; intros fs cur; cbn [mkdir_from].
  - intros [= <-] Hd. rewrite app_nil_r. split_and!; [done | done | by left].
  - rewrite node_at_snoc.
    replace (cur ++ c :: comps) with ((cur ++ [c]) ++ comps)
      by (by rewrite <- app_assoc).
    destruct (fs !! (cur ++ [c])) as [[content|]|] eqn:E; [done| |].
    + intros H Hd. apply IH in H; [done|]. by apply is_dir_lookup.
    + destruct (is_dir fs cur) eqn:Hd; [|done]. intros H _.
      apply IH in H as (H1 & H2 & H3); [|apply is_dir_lookup, lookup_insert_eq].
      split_and!; [done | |].
      * intros q n Hq. apply H2. rewrite lookup_insert_ne; [done|].
        intros <-. congruence.
      * intros q n Hq. destruct (H3 q n Hq) as [Hq'|Hq']; [|by right].
        rewrite lookup_insert in Hq'. case_decide as Eq; [|by left].
        injection Hq' as <-. right. split; [done|]. subst q.
        by apply prefix_app_r.
Qed.

Lemma mkdir_parents_spec fs p fs' :
  mkdir_parents fs p = Some fs' →
  is_dir fs' p = true ∧
  (∀ q n, fs !! q = Some n → fs' !! q = Some n) ∧
  (∀ q n, fs' !! q = Some n →
          fs !! q = Some n ∨ (n = Dir ∧ q `prefix_of` p)).
Proof. intros H. by apply (mkdir_from_spec p fs []) in H. Qed.

(** *** copy2 *)

Lemma open_for_writing_spec fs raw target :
  open_for_writing fs raw = Some target →
  target ≠ [] ∧ is_dir fs target = false ∧
  ∃ d c, walk fs [] (removelast raw) = Some d ∧ last raw = Some c ∧
         target = d ++ [c].
Proof.
  unfold open_for_writing.
  destruct (walk fs [] (removelast raw)) as [d|]; [|done].
  destruct (last raw) as [c|]; [|done]. cbn [mbind option_bind].
  destruct (is_dir fs d); [|done].
  destruct (bool_decide (c = dotdot)); [done|].
  destruct (is_dir fs (d ++ [c])) eqn:E; [done|]. cbn [andb negb].
  intros [= <-]. split_and!; [by destruct d | done | eauto].
Qed.

Lemma copy2_spec fs cwd src dst fs2 :
  copy2 fs cwd src dst = Some fs2 →
  ∃ q content dst' target,
    locate fs cwd src = Some q ∧ fs !! q = Some (File content) ∧
    open_for_writing fs dst' = Some target ∧ target ≠ q ∧
    (dst' = dst ∨ ∃ d, walk fs [] dst = Some d ∧ is_dir fs d = true) ∧
    fs2 = <[target := File content]> fs.
Proof.
  unfold copy2. destruct (locate fs cwd src) as [q|]; [|done].
  cbn [mbind option_bind].
  destruct (node_at fs q) as [[content|]|] eqn:Hq; [|done..].
  set (dst' := match walk fs [] dst with
               | Some d => if is_dir fs d then _ else dst
               | None => dst
               end).
  destruct (open_for_writing fs dst') as [target|] eqn:Ho; [|done].
  cbn [mbind option_bind]. case_bool_decide as Hne; [done|].
  intros [= <-]. exists q, content, dst', target.
  split_and!; try done.
  - destruct q; [done|exact Hq].
  - unfold dst'. destruct (walk fs [] dst) as [d|]; [|by left].
    destruct (is_dir fs d) eqn:Hd; [right; eauto | by left].
Qed.

Lemma is_dir_insert_file fs target content p :
  is_dir fs target = false → target ≠ [] →
  is_dir (<[target := File content]> fs) p = is_dir fs p.
Proof.
  intros Ht Hne. unfold is_dir, node_at in *. destruct p as [|x p]; [done|].
  destruct (decide (target = x :: p)) as [->|Hp].
  - rewrite lookup_insert_eq. by destruct (fs !! (x :: p)) as [[]|].
  - by rewrite lookup_insert_ne.
Qed.

(** *** What [main] leaves in place *)

Lemma main_cases (now : datetime) (data : gmap pystr pystr) fs cwd :
  let session_id := get data (py "session_id") (py "unknown") in
  let transcript_path := Path (get data (py "transcript_path") []) in
  let project_root :=
    find_project_root fs cwd (Path (get data (py "cwd") (py "."))) in
  let destination_dir := project_root ++ [py ".memory-bank"; py "sessions"] in
  let filename :=
    strftime now ++ py "_" ++ short_id session_id ++ py ".jsonl" in
  (mkdir_parents fs destination_dir = None ∧
   main now (Some data) fs cwd = (fs, [], Uncaught))
  ∨ (∃ fs1, mkdir_parents fs destination_dir = Some fs1 ∧
       ((path_exists fs1 cwd transcript_path = false ∧
         main now (Some data) fs cwd
         = (fs1, [MsgNotFound transcript_path], SysExit 1))
        ∨ (path_exists fs1 cwd transcript_path = true ∧
           copy2 fs1 cwd transcript_path
             (destination_dir ++ parts (Path filename)) = None ∧
           main now (Some data) fs cwd = (fs1, [MsgCopyFailed], SysExit 1))
        ∨ (∃ fs2, path_exists fs1 cwd transcript_path = true ∧
             copy2 fs1 cwd transcript_path
               (destination_dir ++ parts (Path filename)) = Some fs2 ∧
             main now (Some data) fs cwd
             = (fs2,
                [MsgArchived (default [] (last project_root)) filename
                   (get data (py "reason") (py "unknown"))],
                Finished)))).
Proof.
  intros sid tp root dir filename. unfold main.
  fold sid tp root. fold dir. fold filename.
  destruct (mkdir_parents fs dir) as [fs1|]; [right; exists fs1|by left].
  split; [done|].
  destruct (path_exists fs1 cwd tp); cbn [negb]; [|by left].
  right. destruct (copy2 fs1 cwd tp _) as [fs2|]; [right; exists fs2|left]; done.
Qed.

(** X19.  [main] removes nothing.  However it ends, every directory
    there was is still a directory, and every regular file there was
    is still a regular file (the copy may have replaced its content,
    at the destination only). *)
Theorem main_keeps_nodes (now : datetime) (stdin : option (gmap pystr pystr))
    (fs : gmap (list pystr) node) (cwd : list pystr) :
  let fs' := (main now stdin fs cwd).1.1 in
  (∀ q, fs !! q = Some Dir → fs' !! q = Some Dir) ∧
  (∀ q content, fs !! q = Some (File content) →
                ∃ content', fs' !! q = Some (File content')).
Proof.
  intros fs'. unfold fs'. clear fs'.
  destruct stdin as [data|]; [|by eauto].
  destruct (main_cases now data fs cwd)
    as [[_ ->]|(fs1 & Hm & [[_ ->]|[(_ & _ & ->)|(fs2 & _ & Hc & ->)]])];
    cbn [fst]; [by eauto|..];
    apply mkdir_parents_spec in Hm as (_ & Hkeep & _).
  - split; [by eauto|]. intros q c Hq. exists c. by apply Hkeep.
  - split; [by eauto|]. intros q c Hq. exists c. by apply Hkeep.
  - apply copy2_spec in Hc as (s & content & dst' & target & _ & _ & Ho & _ & _ & ->).
    apply open_for_writing_spec in Ho as (Hne & Hd & _).
    split.
    + intros q Hq. rewrite lookup_insert_ne; [by apply Hkeep|].
      intros ->. apply Hkeep, is_dir_lookup in Hq. congruence.
    + intros q c Hq. destruct (decide (target = q)) as [->|Hq'].
      * rewrite lookup_insert_eq. eauto.
      * rewrite lookup_insert_ne by done. exists c. by apply Hkeep.
Qed.

(** X20.  The destination directory is made before the transcript is
    looked at: whenever [main] ends otherwise than in an uncaught
    exception, also when it reports a missing transcript or a failed
    copy, [.memory-bank/sessions] under the project root is a directory
    afterwards. *)
Theorem main_makes_sessions_dir (now : datetime) (data : gmap pystr pystr)
    (fs : gmap (list pystr) node) (cwd : list pystr) :
  let destination_dir :=
    find_project_root fs cwd (Path (get data (py "cwd") (py ".")))
      ++ [py ".memory-bank"; py "sessions"] in
  let result := main now (Some data) fs cwd in
  result.2 ≠ Uncaught →
  is_dir result.1.1 destination_dir = true.
Proof.
  intros dir result. unfold result, dir. clear result dir.
  destruct (main_cases now data fs cwd)
    as [[_ ->]|(fs1 & Hm & [[_ ->]|[(_ & _ & ->)|(fs2 & _ & Hc & ->)]])];
    cbn [fst snd]; [done|..]; intros _;
    apply mkdir_parents_spec in Hm as (Hd & _ & _); [done | done |].
  apply copy2_spec in Hc as (s & content & dst' & target & _ & _ & Ho & _ & _ & ->).
  apply open_for_writing_spec in Ho as (Hne & Ht & _).
  by rewrite is_dir_insert_file.
Qed.


(** *** The archived copy *)

Lemma walk_plain fs cur comps d :
  dotdot ∉ comps → walk fs cur comps = Some d → d = cur ++ comps.
Proof.
  revert cur. induction comps as [|c comps IH]; intros cur Hc; cbn [walk].
  - intros [= <-]. by rewrite app_nil_r.
  - destruct (is_dir fs cur); [|done].
    rewrite bool_decide_eq_false_2 by set_solver.
    intros H%IH; [|set_solver]. by rewrite H, <- app_assoc.
Qed.

Lemma walk_is_dir_insert fs target content cur comps :
  is_dir fs target = false → target ≠ [] →
  walk (<[target := File content]> fs) cur comps = walk fs cur comps.
Proof.
  intros Ht Hne. revert cur. induction comps as [|c comps IH]; intros cur;
    cbn [walk]; [done|].
  by rewrite is_dir_insert_file, IH.
Qed.

Lemma filename_not_dotdot (t : datetime) sid :
  strftime t ++ py "_" ++ sid ++ py ".jsonl" ≠ dotdot.
Proof.
  intros H. apply (f_equal List.length) in H.
  rewrite !length_app in H.
  change (List.length (py ".jsonl")) with 6 in H.
  change (List.length dotdot) with 2 in H. lia.
Qed.

Lemma short_id_no_slash sid :
  contains_char slash sid = false → contains_char slash (short_id sid) = false.
Proof.
  unfold short_id. destruct (8 <=? List.length sid); [|done].
  intros H. rewrite <- (take_drop 8 sid), contains_char_app in H.
  by apply orb_false_iff in H as [? _].
Qed.

(** X21.  What a successful run has done.  When [main] ends normally,
    the transcript path names a regular file, left as it was, and a
    file of the same content stands at a target other than the source;
    apart from the target and the directories on the way to the
    destination directory, nothing has changed.  If the session id
    holds no slash and no directory is in the place of
    [<destination directory>/<stamp>_<short id>.jsonl], that is the
    target. *)
Theorem main_archived (now : datetime) (data : gmap pystr pystr)
    (fs fs' : gmap (list pystr) node) (cwd : list pystr)
    (msgs : list message) :
  let session_id := get data (py "session_id") (py "unknown") in
  let transcript_path := Path (get data (py "transcript_path") []) in
  let project_root :=
    find_project_root fs cwd (Path (get data (py "cwd") (py "."))) in
  let destination_dir := project_root ++ [py ".memory-bank"; py "sessions"] in
  let filename :=
    strftime now ++ py "_" ++ short_id session_id ++ py ".jsonl" in
  main now (Some data) fs cwd = (fs', msgs, Finished) →
  ∃ source content target,
    locate fs' cwd transcript_path = Some source ∧
    fs !! source = Some (File content) ∧
    fs' !! source = Some (File content) ∧
    fs' !! target = Some (File content) ∧
    target ≠ source ∧
    (∀ q, q ≠ target → ¬ q `prefix_of` destination_dir → fs' !! q = fs !! q) ∧
    (contains_char slash session_id = false →
     is_dir fs (destination_dir ++ [filename]) = false →
     target = destination_dir ++ [filename]).
Proof.
  intros sid tp root dir filename Hmain.
  destruct (main_cases now data fs cwd)
    as [[_ E]|(fs1 & Hm & [[_ E]|[(_ & _ & E)|(fs2 & _ & Hc & E)]])];
    rewrite E in Hmain; try discriminate Hmain.
  injection Hmain as <- _. fold sid tp root in Hc. fold dir in Hc, Hm.
  fold filename in Hc.
  apply mkdir_parents_spec in Hm as (Hdir & Hkeep & Hnew).
  pose proof Hc as Hc'.
  apply copy2_spec in Hc
    as (source & content & dst' & target & Hloc & Hsrc & Ho & Hne & Hdst & ->).
  pose proof Ho as Ho'.
  apply open_for_writing_spec in Ho as (Hne' & Ht & d & c & Hw & Hlast & ->).
  exists source, content, (d ++ [c]). split_and!.
  - unfold locate in *. by rewrite walk_is_dir_insert.
  - destruct (Hnew _ _ Hsrc) as [?|[? _]]; done.
  - by rewrite lookup_insert_ne.
  - by rewrite lookup_insert_eq.
  - done.
  - intros q Hq1 Hq2. rewrite lookup_insert_ne by done.
    destruct (fs1 !! q) as [n|] eqn:E1.
    + destruct (Hnew _ _ E1) as [?|[_ ?]]; done.
    + destruct (fs !! q) as [n|] eqn:E2; [|done].
      apply Hkeep in E2. congruence.
  - intros Hsid Hfree.
    assert (parts (Path filename) = [filename]) as Hparts.
    { apply filename_single. by apply short_id_no_slash. }
    rewrite Hparts in Hdst, Hc'.
    assert (dotdot ∉ dir) as Hdd.
    { unfold dir. rewrite elem_of_app.
      intros [H|H].
      - revert H. apply find_project_root_no_dotdot.
      - revert H. decide_by_compute. }
    assert (is_dir fs1 (dir ++ [filename]) = false) as Hfree1.
    { unfold is_dir in *. rewrite node_at_snoc in *.
      destruct (fs1 !! (dir ++ [filename])) as [[|]|] eqn:E1; try done.
      destruct (Hnew _ _ E1) as [E2|[_ Hp]]; [by rewrite E2 in Hfree|].
      apply prefix_length in Hp. rewrite length_app in Hp.
      cbn [List.length] in Hp. unfold dir, root in Hp. lia. }
    assert (dst' = dir ++ [filename]) as ->.
    { destruct Hdst as [->|(d0 & Hd0 & Hd0')]; [done|].
      apply walk_plain in Hd0.
      - rewrite app_nil_l in Hd0. subst d0. congruence.
      - rewrite elem_of_app, list_elem_of_singleton.
        intros [?|?]; [done|]. by eapply filename_not_dotdot. }
    rewrite removelast_last in Hw. rewrite last_snoc in Hlast.
    injection Hlast as <-.
    apply walk_plain in Hw; [|done]. by rewrite Hw.
Qed.

End ArchiveEffects.

Lemma main_makes_sessions_dir_witness :
  let now := DateTime 2024 5 1 12 30 in
  let data : gmap pystr pystr :=
    <[py "transcript_path" := py "/nowhere.jsonl"]>
      (<[py "cwd" := py "/proj"]> ∅) in
  let destination_dir :=
    find_project_root example_fs [py "home"]
      (Path (get data (py "cwd") (py ".")))
      ++ [py ".memory-bank"; py "sessions"] in
  let result := main now (Some data) example_fs [py "home"] in
  result.2 = SysExit 1 ∧
  is_dir example_fs destination_dir = false ∧
  is_dir result.1.1 destination_dir = true.
Proof.
  intros now data destination_dir result.
  assert (result.2 = SysExit 1) as H by (vm_compute; reflexivity).
  split_and!; [exact H | vm_compute; reflexivity |].
  apply (main_makes_sessions_dir now data example_fs [py "home"]).
  fold result. rewrite H. discriminate.
Defined.

Lemma main_archived_witness :
  let now := DateTime 2024 5 1 12 30 in
  let result := main now (Some example_input) example_fs [py "home"] in
  let destination_dir :=
    find_project_root example_fs [py "home"]
      (Path (get example_input (py "cwd") (py ".")))
      ++ [py ".memory-bank"; py "sessions"] in
  let filename :=
    strftime now
      ++ py "_" ++ short_id (get example_input (py "session_id") (py "unknown"))
      ++ py ".jsonl" in
  filename = py "2024-05-01_1230_abcdef12.jsonl" ∧
  ∃ source content target,
    locate result.1.1 [py "home"]
      (Path (get example_input (py "transcript_path") [])) = Some source ∧
    example_fs !! source = Some (File content) ∧
    result.1.1 !! source = Some (File content) ∧
    result.1.1 !! target = Some (File content) ∧
    target ≠ source ∧
    (∀ q, q ≠ target → ¬ q `prefix_of` destination_dir →
          result.1.1 !! q = example_fs !! q) ∧
    (contains_char slash (get example_input (py "session_id") (py "unknown"))
     = false →
     is_dir example_fs (destination_dir ++ [filename]) = false →
     target = destination_dir ++ [filename]).
Proof.
  intros now result destination_dir filename.
  split; [vm_compute; reflexivity|].
  apply (main_archived now example_input example_fs result.1.1 [py "home"]
           result.1.2).
  assert (result.2 = Finished) as H by (vm_compute; reflexivity).
  change (result = (result.1.1, result.1.2, Finished)).
  rewrite <- H. clear H. clearbody result.
  destruct result as [[fs' msgs] o]. reflexivity.
Defined.

(** ** generate-index.py *)

Import GenerateIndex.

(** *** Sorting *)

Section SortFacts.

Context {A : Type} (before : A → A → bool).

Lemma insert_sorted_perm x (l : list A) : insert_sorted before x l ≡ₚ x :: l.
Proof.
  induction l as [|y l IH]; cbn [insert_sorted]; [done|].
  destruct (before y x); [|done]. rewrite IH. apply Permutation_swap.
Qed.

Lemma sort_stable_perm (l : list A) : sort_stable before l ≡ₚ l.
Proof.
  induction l as [|x l IH]; cbn [sort_stable]; [done|].
  by rewrite insert_sorted_perm, IH.
Qed.

Lemma sort_stable_elem x (l : list A) : x ∈ sort_stable before l ↔ x ∈ l.
Proof. by rewrite sort_stable_perm. Qed.

Hypothesis before_asym : ∀ x y, before x y = true → before y x = false.
Hypothesis before_chain :
  ∀ x y z, before y x = false → before z y = false → before z x = false.

Lemma insert_sorted_sorted x (l : list A) :
  StronglySorted (λ a b, before b a = false) l →
  StronglySorted (λ a b, before b a = false) (insert_sorted before x l).
Proof.
  induction 1 as [|y l Hl IH Hy]; cbn [insert_sorted].
  - by repeat constructor.
  - destruct (before y x) eqn:E.
    + constructor; [done|]. apply Forall_forall. intros z Hz.
      rewrite insert_sorted_perm in Hz.
      apply elem_of_cons in Hz as [->|Hz]; [by apply before_asym|].
      rewrite Forall_forall in Hy. by apply Hy.
    + constructor; [by constructor|]. constructor; [done|].
      eapply Forall_impl; [exact Hy|]. intros z Hz.
      by apply (before_chain x y z).
Qed.

Lemma sort_stable_sorted (l : list A) :
  StronglySorted (λ a b, before b a = false) (sort_stable before l).
Proof.
  induction l as [|x l IH]; cbn [sort_stable]; [constructor|].
  by apply insert_sorted_sorted.
Qed.

End SortFacts.

(** *** Recently modified files *)

Section RecentFacts.

Variable strftime : pystr → datetime → pystr.

Implicit Types (a b c now cutoff : datetime) (f g : file_info)
  (files shown : list file_info).

Lemma earlier_asym a b : earlier a b = true → earlier b a = false.
Proof.
  unfold earlier.
  rewrite orb_true_iff, orb_false_iff, andb_true_iff, andb_false_iff.
  rewrite !Nat.ltb_lt, !Nat.ltb_ge, Nat.eqb_eq, Nat.eqb_neq. lia.
Qed.

Lemma earlier_chain a b c :
  earlier b a = false → earlier c b = false → earlier c a = false.
Proof.
  unfold earlier.
  rewrite !orb_false_iff, !andb_false_iff.
  rewrite !Nat.ltb_ge, !Nat.eqb_neq. lia.
Qed.

Lemma newest_first_sorted files :
  StronglySorted (λ f g, earlier (mtime f) (mtime g) = false)
    (newest_first files).
Proof.
  unfold newest_first.
  apply (sort_stable_sorted (λ y x, earlier (mtime x) (mtime y))).
  - intros x y. apply earlier_asym.
  - intros x y z H1 H2. by apply (earlier_chain _ (mtime y)).
Qed.

Lemma recent_files_elem cutoff files f :
  f ∈ recent_files cutoff files → f ∈ files ∧ earlier cutoff (mtime f) = true.
Proof.
  unfold recent_files, newest_first. intros H.
  assert (f ∈ filter (λ f, earlier cutoff (mtime f) = true) files) as Hf.
  { apply (sort_stable_elem (λ y x, earlier (mtime x) (mtime y))).
    rewrite <- (take_drop 10 (sort_stable _ _)). set_solver. }
  by apply list_elem_of_filter in Hf as [? ?].
Qed.

Lemma endswith_app p s : endswith p (s ++ p) = true.
Proof. unfold endswith. rewrite reverse_app. apply startswith_app. Qed.

(** The days between a file newer than the cutoff and now. *)
Lemma days_since_cutoff now cutoff a :
  minus_days now DAYS_RECENT = Some cutoff →
  earlier cutoff a = true → (days_between now a < 7)%Z.
Proof.
  unfold minus_days, DAYS_RECENT, earlier, days_between.
  destruct (7 <? toordinal now) eqn:E; [|done]. apply Nat.ltb_lt in E.
  intros [= <-]. cbn [toordinal time_of_day].
  rewrite orb_true_iff, andb_true_iff, !Nat.ltb_lt, Nat.eqb_eq.
  destruct (Nat.ltb_spec (time_of_day now) (time_of_day a)); lia.
Qed.

(** X26. Every file of the "Recently Modified" list (modified after
    [now - 7 days]) has the [**RECENT**] marker at the end of its entry
    line. *)
Theorem recent_files_are_marked now cutoff files f :
  minus_days now DAYS_RECENT = Some cutoff →
  f ∈ recent_files cutoff files →
  endswith (py " **RECENT**") (format_file_entry strftime f now) = true.
Proof.
  intros Hc [_ Hf]%recent_files_elem.
  pose proof (days_since_cutoff now cutoff (mtime f) Hc Hf) as Hd.
  unfold format_file_entry.
  assert ((days_between now (mtime f) <=? Z.of_nat DAYS_RECENT)%Z = true) as ->.
  { apply Z.leb_le. unfold DAYS_RECENT. lia. }
  rewrite !app_assoc. apply endswith_app.
Qed.

(** X25. The "Recently Modified" list: at most ten files, newest
    first, each one among the given files and modified after the
    cutoff; and a file modified after the cutoff is left out only when
    the list is full, with ten files none of which is older than it. *)
Theorem recent_files_newest cutoff files :
  let shown := recent_files cutoff files in
  List.length shown ≤ 10 ∧
  StronglySorted (λ f g, earlier (mtime f) (mtime g) = false) shown ∧
  (∀ f, f ∈ shown → f ∈ files ∧ earlier cutoff (mtime f) = true) ∧
  (∀ g, g ∈ files → earlier cutoff (mtime g) = true → g ∉ shown →
        List.length shown = 10 ∧
        ∀ f, f ∈ shown → earlier (mtime f) (mtime g) = false).
Proof.
  intros shown. unfold shown. clear shown. split_and!.
  - unfold recent_files. rewrite length_take. lia.
  - unfold recent_files.
    pose proof (newest_first_sorted
                  (filter (λ f, earlier cutoff (mtime f) = true) files)) as H.
    rewrite <- (take_drop 10 (newest_first _)) in H.
    by apply StronglySorted_app_1_l in H.
  - intros f. apply recent_files_elem.
  - intros g Hg Hgc Hgn. unfold recent_files in *.
    set (l := newest_first (filter (λ f, earlier cutoff (mtime f) = true) files))
      in *.
    assert (g ∈ l) as Hgl.
    { unfold l, newest_first. apply sort_stable_elem.
      by apply list_elem_of_filter. }
    rewrite <- (take_drop 10 l) in Hgl.
    apply elem_of_app in Hgl as [?|Hgd]; [done|].
    split.
    + rewrite length_take.
      assert (List.length (drop 10 l) ≠ 0) as Hn.
      { destruct (drop 10 l); [by apply elem_of_nil in Hgd | done]. }
      rewrite length_drop in Hn. lia.
    + intros f Hf.
      pose proof (newest_first_sorted
                    (filter (λ f, earlier cutoff (mtime f) = true) files)) as H.
      fold l in H. rewrite <- (take_drop 10 l) in H.
      by apply (StronglySorted_app_1_elem_of _ _ _ f g H).
Qed.

End RecentFacts.

Lemma recent_files_are_marked_witness :
  let now := Stamp 20 100 in
  let f := {| name := py "plan.md"; path := py "specs/plan.md"; size_kb := 3;
              mtime := Stamp 14 50 |} in
  endswith (py " **RECENT**")
    (format_file_entry (λ _ _, py "0001-01-14") f now) = true.
Proof.
  intros now f.
  apply (recent_files_are_marked (λ _ _, py "0001-01-14") now (Stamp 13 100)
           [f] f).
  - reflexivity.
  - vm_compute. apply list_elem_of_here.
Defined.

(** *** Dictionaries *)

Section DictFacts.

Context {V : Type}.

Implicit Types (d o : dict V) (k : pystr) (v : V).

Lemma dict_get_elem d k v : dict_get d k = Some v → (k, v) ∈ d.
Proof.
  induction d as [|[k' v'] d IH]; cbn [dict_get]; [done|].
  case_bool_decide as E; [|set_solver]. intros [= <-]. subst. set_solver.
Qed.

Lemma dict_get_None d k : dict_get d k = None ↔ k ∉ map fst d.
Proof.
  induction d as [|[k' v'] d IH]; cbn [dict_get map fst]; [set_solver|].
  case_bool_decide as E; [subst; set_solver|]. rewrite IH. set_solver.
Qed.

Lemma dict_get_set d k v k' :
  dict_get (dict_set d k v) k'
  = if bool_decide (k = k') then Some v else dict_get d k'.
Proof.
  induction d as [|[k0 v0] d IH]; cbn [dict_set dict_get]; [done|].
  destruct (decide (k0 = k)) as [->|E0].
  - rewrite (bool_decide_eq_true_2 (k = k)) by done. cbn [dict_get].
    by destruct (bool_decide (k = k')).
  - rewrite (bool_decide_eq_false_2 (k0 = k)) by done. cbn [dict_get].
    rewrite IH. destruct (decide (k0 = k')) as [->|E1].
    + rewrite (bool_decide_eq_true_2 (k' = k')) by done.
      by rewrite bool_decide_eq_false_2 by congruence.
    + by rewrite (bool_decide_eq_false_2 (k0 = k')) by done.
Qed.

Lemma dict_set_elem d k v k' v' :
  (k', v') ∈ dict_set d k v → (k' = k ∧ v' = v) ∨ (k', v') ∈ d.
Proof.
  induction d as [|[k0 v0] d IH]; cbn [dict_set].
  - intros [= -> ->]%list_elem_of_singleton. by left.
  - case_bool_decide as E0.
    + subst k0. intros [[= -> ->]|H]%elem_of_cons; [by left|].
      right. by right.
    + intros [[= -> ->]|H]%elem_of_cons; [right; by left|].
      destruct (IH H) as [?|?]; [by left|right; by right].
Qed.

Lemma dict_set_keys d k v k' :
  k' ∈ map fst (dict_set d k v) ↔ k' = k ∨ k' ∈ map fst d.
Proof.
  induction d as [|[k0 v0] d IH]; cbn [dict_set map fst]; [set_solver|].
  case_bool_decide as E0; cbn [map fst]; [subst; set_solver|].
  rewrite elem_of_cons, IH. set_solver.
Qed.

Lemma dict_set_NoDup d k v :
  NoDup (map fst d) → NoDup (map fst (dict_set d k v)).
Proof.
  induction d as [|[k0 v0] d IH]; cbn [dict_set map fst].
  - intros _. apply NoDup_singleton.
  - rewrite NoDup_cons. intros [H1 H2].
    case_bool_decide as E0; cbn [map fst]; apply NoDup_cons.
    + done.
    + split; [|by apply IH]. rewrite dict_set_keys. intros [?|?]; done.
Qed.

Lemma dict_update_cons d k v o :
  dict_update d ((k, v) :: o) = dict_update (dict_set d k v) o.
Proof. done. Qed.

Lemma dict_update_elem d o k v :
  (k, v) ∈ dict_update d o → (k, v) ∈ d ∨ (k, v) ∈ o.
Proof.
  revert d. induction o as [|[k0 v0] o IH]; intros d; [by left|].
  rewrite dict_update_cons. intros [H|H]%IH; [|right; by right].
  apply dict_set_elem in H as [[-> ->]|H]; [right; by left|by left].
Qed.

Lemma dict_update_keys d o k :
  k ∈ map fst (dict_update d o) ↔ k ∈ map fst d ∨ k ∈ map fst o.
Proof.
  revert d. induction o as [|[k0 v0] o IH]; intros d.
  - cbn. set_solver.
  - rewrite dict_update_cons, IH, dict_set_keys. cbn [map fst]. set_solver.
Qed.

Lemma dict_update_NoDup d o :
  NoDup (map fst d) → NoDup (map fst (dict_update d o)).
Proof.
  revert d. induction o as [|[k0 v0] o IH]; intros d H; [done|].
  rewrite dict_update_cons. by apply IH, dict_set_NoDup.
Qed.

Lemma dict_update_get_other d o k :
  k ∉ map fst o → dict_get (dict_update d o) k = dict_get d k.
Proof.
  revert d. induction o as [|[k0 v0] o IH]; intros d Hk; [done|].
  cbn [map fst] in Hk. rewrite dict_update_cons, IH by set_solver.
  rewrite dict_get_set. rewrite bool_decide_eq_false_2; [done|].
  set_solver.
Qed.

Lemma dict_update_get d o k v :
  NoDup (map fst o) → (k, v) ∈ o → dict_get (dict_update d o) k = Some v.
Proof.
  revert d. induction o as [|[k0 v0] o IH]; intros d Hn Hin.
  - by apply elem_of_nil in Hin.
  - cbn [map fst] in Hn. apply NoDup_cons in Hn as [Hk0 Hn].
    rewrite dict_update_cons.
    apply elem_of_cons in Hin as [[= -> ->]|Hin].
    + rewrite dict_update_get_other by done.
      rewrite dict_get_set. by rewrite bool_decide_eq_true_2.
    + by apply IH.
Qed.

End DictFacts.

Section DictListFacts.

Context {V : Type}.

Implicit Types (d : dict (list V)) (k : pystr) (x : V).

Lemma dict_append_elem d k x k' l :
  (k', l) ∈ dict_append d k x →
  (k', l) ∈ d ∨ (k' = k ∧ l = default [] (dict_get d k) ++ [x]).
Proof.
  unfold dict_append. intros [[-> ->]|H]%dict_set_elem; [by right|by left].
Qed.

Lemma dict_append_get d k x k' :
  dict_get (dict_append d k x) k'
  = if bool_decide (k = k') then Some (default [] (dict_get d k) ++ [x])
    else dict_get d k'.
Proof. unfold dict_append. apply dict_get_set. Qed.

End DictListFacts.

(** *** What a scan lists *)

Section ScanFacts.

Implicit Types (base parent : list pystr) (e : entry)
  (result : dict (list file_info)) (f : file_info) (folder : pystr).

Lemma sorted_items_elem {A : Type} (items : list (pystr * A)) x :
  x ∈ sorted_items items ↔ x ∈ items.
Proof. unfold sorted_items. apply sort_stable_elem. Qed.

Lemma scan_item_sound base children result item_name e sub folder files f :
  (item_name, e) ∈ children →
  (∀ folder files f, (folder, files) ∈ sub → f ∈ files →
                     listed_ok (base ++ [item_name]) e folder f) →
  (∀ folder files f, (folder, files) ∈ result → f ∈ files →
                     listed_ok base (Dir children) folder f) →
  (folder, files) ∈ scan_item base result (item_name, (e, sub)) → f ∈ files →
  listed_ok base (Dir children) folder f.
Proof.
  intros Hin Hsub Hres. cbn [scan_item].
  destruct (skipped item_name) eqn:Hsk; [apply Hres|].
  destruct e as [st_size st_mtime|ch|]; [| |apply Hres].
  - case_bool_decide as Hsuf; [|apply Hres]. cbn [get_file_info].
    intros [H|[-> ->]]%dict_append_elem Hf; [by eapply Hres|].
    apply elem_of_app in Hf as [Hf|Hf].
    + destruct (dict_get result (folder_key base)) as [l|] eqn:E;
        [|by apply elem_of_nil in Hf].
      apply dict_get_elem in E. by eapply Hres.
    + apply list_elem_of_singleton in Hf as ->.
      exists [], item_name, st_size. cbn [app mtime].
      split_and!; [|by apply Forall_singleton|done|by rewrite app_nil_r|done].
      eapply at_child; [done|constructor].
  - intros [H|H]%dict_update_elem Hf; [by eapply Hres|].
    destruct (Hsub _ _ _ H Hf)
      as (parent & fn & size & Hp & Hv & Hs & -> & Hfi).
    exists (item_name :: parent), fn, size. split_and!.
    + cbn [app]. by eapply at_child.
    + cbn [app]. by constructor.
    + done.
    + by rewrite <- app_assoc.
    + rewrite Hfi at 1. by rewrite <- !app_assoc.
Qed.

Lemma scan_entry_sound base e folder files f :
  (folder, files) ∈ scan_entry base e → f ∈ files →
  ∃ parent file_name st_size,
    at_path e (parent ++ [file_name]) (File st_size (mtime f)) ∧
    Forall (λ c, skipped c = false) (parent ++ [file_name]) ∧
    suffix file_name = py ".md" ∧
    folder = folder_key (base ++ parent) ∧
    f = {| name := file_name; path := path_str (base ++ parent ++ [file_name]);
           size_kb := st_size / 1024; mtime := mtime f |}.
Proof.
  change (∀ _ : (folder, files) ∈ scan_entry base e, f ∈ files →
                listed_ok base e folder f).
  revert base folder files f.
  induction e as [st_size st_mtime|children IH|] using entry_ind;
    intros base folder files f; cbn [scan_entry];
    [by intros ?%elem_of_nil | | by intros ?%elem_of_nil].
  set (scanned := sorted_items (map _ children)).
  assert (∀ item, item ∈ scanned →
            (item.1, item.2.1) ∈ children ∧
            item.2.2 = scan_entry (base ++ [item.1]) item.2.1) as Hitems.
  { intros item Hi. unfold scanned in Hi.
    apply (proj1 (sorted_items_elem _ _)) in Hi.
    apply list_elem_of_fmap in Hi as ([n c] & -> & Hc). done. }
  clearbody scanned. rename scanned into items.
  assert (∀ folder files f, (folder, files) ∈ ([] : dict (list file_info)) →
            f ∈ files → listed_ok base (Dir children) folder f) as Hres.
  { intros ? ? ? H. by apply elem_of_nil in H. }
  revert Hres. generalize ([] : dict (list file_info)) as result.
  revert folder files f.
  induction items as [|[n [c sub]] items IHi]; intros folder files f result Hres;
    cbn [fold_left]; [apply Hres|].
  apply IHi; [intros item Hi; apply Hitems; by right|].
  intros folder' files' f'.
  destruct (Hitems (n, (c, sub)) ltac:(by left)) as [Hc Hsub].
  cbn [fst snd] in Hc, Hsub.
  apply (scan_item_sound base children result n c sub); [done| |done].
  intros folder0 files0 f0. rewrite Hsub.
  rewrite Forall_forall in IH. apply (IH (n, c) Hc).
Qed.

(** X22. Whatever [scan_directory] lists is there: a file listed under
    a folder key is a Markdown file of the scanned directory, reached
    through names none of which is skipped, and it is listed under the
    key of its folder with its own name, path, size in KB and time. *)
Theorem scan_directory_sound base_dir base result folder files f :
  scan_directory base_dir base = Some result →
  (folder, files) ∈ result → f ∈ files →
  ∃ e parent file_name st_size,
    base_dir = Some e ∧
    at_path e (parent ++ [file_name]) (File st_size (mtime f)) ∧
    Forall (λ c, skipped c = false) (parent ++ [file_name]) ∧
    suffix file_name = py ".md" ∧
    folder = folder_key (base ++ parent) ∧
    f = {| name := file_name; path := path_str (base ++ parent ++ [file_name]);
           size_kb := st_size / 1024; mtime := mtime f |}.
Proof.
  destruct base_dir as [[st_size st_mtime|children|]|]; cbn [scan_directory];
    [done| |done|by intros [= <-] ?%elem_of_nil].
  intros Hscan Hin Hf. apply (inj Some) in Hscan. subst result.
  destruct (scan_entry_sound base (Dir children) folder files f Hin Hf)
    as (parent & file_name & st_size & H).
  by exists (Dir children), parent, file_name, st_size.
Qed.

End ScanFacts.

Lemma scan_directory_sound_witness :
  let plan := {| name := py "plan.md"; path := py "specs/plan.md";
                 size_kb := 2; mtime := Stamp 14 50 |} in
  ∃ e parent file_name st_size,
    Some (Dir [(py "specs", Dir [(py "plan.md", File 2048 (Stamp 14 50))])])
    = Some e ∧
    at_path e (parent ++ [file_name]) (File st_size (mtime plan)) ∧
    Forall (λ c, skipped c = false) (parent ++ [file_name]) ∧
    suffix file_name = py ".md" ∧
    py "specs" = folder_key ([] ++ parent) ∧
    plan = {| name := file_name; path := path_str ([] ++ parent ++ [file_name]);
              size_kb := st_size / 1024; mtime := mtime plan |}.
Proof.
  intros plan.
  apply (scan_directory_sound
           (Some (Dir [(py "specs",
                        Dir [(py "plan.md", File 2048 (Stamp 14 50))])]))
           [] [(py "specs", [plan])] (py "specs") [plan] plan).
  - vm_compute. reflexivity.
  - apply list_elem_of_here.
  - apply list_elem_of_here.
Defined.

(** *** What a scan does not miss *)

Section Completeness.

Implicit Types (base parent p : list pystr) (e : entry)
  (result sub : dict (list file_info)) (f x : file_info) (k folder n : pystr)
  (names : list pystr).

(** *** Folder keys *)

Lemma split_app_sep sep (p s : pystr) :
  sep ∉ p → split sep (p ++ sep :: s) = p :: split sep s.
Proof.
  induction p as [|c p IH]; intros Hp; cbn [app split].
  - by rewrite N.eqb_refl.
  - assert ((c =? sep)%N = false) as -> by (apply N.eqb_neq; set_solver).
    rewrite IH by set_solver. done.
Qed.

Lemma split_sep_free sep (p : pystr) : sep ∉ p → split sep p = [p].
Proof.
  induction p as [|c p IH]; intros Hp; cbn [split]; [done|].
  assert ((c =? sep)%N = false) as -> by (apply N.eqb_neq; set_solver).
  rewrite IH by set_solver. done.
Qed.

Lemma split_join_slash (l : list pystr) :
  l ≠ [] → Forall (λ c, slash ∉ c) l → split slash (join_slash l) = l.
Proof.
  intros Hne H. induction H as [|c l Hc Hl IH]; [done|].
  destruct l as [|c' l]; cbn [join_slash].
  - by apply split_sep_free.
  - rewrite split_app_sep by done. f_equal. by apply IH.
Qed.

Lemma join_slash_inj (l1 l2 : list pystr) :
  l1 ≠ [] → l2 ≠ [] →
  Forall (λ c, slash ∉ c) l1 → Forall (λ c, slash ∉ c) l2 →
  join_slash l1 = join_slash l2 → l1 = l2.
Proof.
  intros H1 H2 F1 F2 E.
  rewrite <- (split_join_slash l1), <- (split_join_slash l2) by done.
  by rewrite E.
Qed.

Lemma folder_key_join p : p ≠ [] → folder_key p = join_slash p.
Proof. by destruct p. Qed.

(** Two different sub-folders have different keys. *)
Lemma folder_key_sub_inj base n p n' p' :
  Forall (λ c, slash ∉ c) (base ++ n :: p) →
  Forall (λ c, slash ∉ c) (base ++ n' :: p') →
  folder_key (base ++ n :: p) = folder_key (base ++ n' :: p') → n = n'.
Proof.
  intros F1 F2. rewrite !folder_key_join by (by destruct base).
  intros E%join_slash_inj; [|by destruct base..|done|done].
  by apply app_inv_head in E as [= -> _].
Qed.

(** A sub-folder and the folder itself have different keys, unless the
    sub-folder is [root] at the top. *)
Lemma folder_key_sub_ne base n p :
  Forall (λ c, slash ∉ c) (base ++ n :: p) →
  (base = [] → n ≠ py "root") →
  folder_key (base ++ n :: p) ≠ folder_key base.
Proof.
  intros F Hroot. rewrite folder_key_join by (by destruct base).
  destruct base as [|b base].
  - cbn [app folder_key]. intros E.
    apply (join_slash_inj (n :: p) [py "root"]) in E;
      [|done|done|done|].
    + injection E as -> _. by apply Hroot.
    + apply Forall_singleton. decide_by_compute.
  - rewrite folder_key_join by done. intros E%join_slash_inj; [|done|done|done|].
    + apply (f_equal List.length) in E. rewrite length_app in E.
      simpl in E. lia.
    + apply Forall_app in F as [? _]. done.
Qed.

(** *** The keys of a scan *)

Lemma scan_item_NoDup base result item :
  NoDup (map fst result) → NoDup (map fst (scan_item base result item)).
Proof.
  intros H. destruct item as [n [c sub]]. cbn [scan_item].
  destruct (skipped n); [done|].
  destruct c as [st_size st_mtime|ch|]; [|by apply dict_update_NoDup|done].
  case_bool_decide; [|done]. cbn [get_file_info]. by apply dict_set_NoDup.
Qed.

Lemma fold_scan_NoDup base items result :
  NoDup (map fst result) →
  NoDup (map fst (fold_left (scan_item base) items result)).
Proof.
  revert result. induction items as [|item items IH]; intros result H;
    cbn [fold_left]; [done|].
  by apply IH, scan_item_NoDup.
Qed.

Lemma scan_entry_NoDup base e : NoDup (map fst (scan_entry base e)).
Proof.
  destruct e; cbn [scan_entry]; try apply NoDup_nil_2.
  apply fold_scan_NoDup. apply NoDup_nil_2.
Qed.

Lemma scan_item_keys base names result item :
  (∀ k, k ∈ map fst item.2.2 →
        ∃ p, k = folder_key ((base ++ [item.1]) ++ p)
             ∧ Forall (λ c, slash ∉ c) p) →
  (slash ∉ item.1) →
  keys_ok base names result →
  keys_ok base (names ++ [item.1]) (scan_item base result item).
Proof.
  destruct item as [n [c sub]]. cbn [fst snd]. intros Hsub Hn Hres.
  assert (keys_ok base (names ++ [n]) result) as Hres'.
  { intros k Hk. destruct (Hres k Hk) as [?|(n' & p & ? & ? & ?)]; [by left|].
    right. exists n', p. split_and!; [set_solver|done..]. }
  cbn [scan_item]. destruct (skipped n); [done|].
  destruct c as [st_size st_mtime|ch|]; [| |done].
  - case_bool_decide; [|done]. cbn [get_file_info]. intros k Hk.
    unfold dict_append in Hk. apply dict_set_keys in Hk as [->|Hk]; [by left|].
    by apply Hres'.
  - intros k Hk. apply dict_update_keys in Hk as [Hk|Hk]; [by apply Hres'|].
    destruct (Hsub k Hk) as (p & -> & Hp). right. exists n, p.
    split_and!; [set_solver | by rewrite <- app_assoc | by constructor].
Qed.

Lemma scan_entry_keys base e k :
  proper e → k ∈ map fst (scan_entry base e) →
  ∃ p, k = folder_key (base ++ p) ∧ Forall (λ c, slash ∉ c) p.
Proof.
  revert base k.
  induction e as [st_size st_mtime|children IH|] using entry_ind;
    intros base k Hproper; cbn [scan_entry];
    [by intros ?%elem_of_nil | | by intros ?%elem_of_nil].
  inversion_clear Hproper as [| |? Hnd Hch].
  set (scanned := sorted_items (map _ children)).
  assert (Forall (λ item, (slash ∉ item.1) ∧
                    ∀ k, k ∈ map fst item.2.2 →
                         ∃ p, k = folder_key ((base ++ [item.1]) ++ p)
                              ∧ Forall (λ c, slash ∉ c) p) scanned) as Hitems.
  { apply Forall_forall. intros item Hi. unfold scanned in Hi.
    apply (proj1 (sorted_items_elem _ _)) in Hi.
    apply list_elem_of_fmap in Hi as ([n c] & -> & Hc). cbn [fst snd].
    rewrite Forall_forall in Hch, IH.
    destruct (Hch _ Hc) as [Hn Hp]. split; [done|].
    intros k'. by apply (IH _ Hc). }
  clearbody scanned.
  assert (∀ names result,
            keys_ok base names result →
            keys_ok base (names ++ map fst scanned)
              (fold_left (scan_item base) scanned result)) as Hfold.
  { induction Hitems as [|item items [Hn Hsub] _ IHi]; intros names result Hres;
      cbn [fold_left map].
    - by rewrite app_nil_r.
    - rewrite cons_middle, app_assoc.
      apply (IHi (names ++ [item.1]) (scan_item base result item)).
      by apply scan_item_keys. }
  intros Hk.
  destruct (Hfold [] [] ltac:(by intros ? ?%elem_of_nil) k Hk)
    as [->|(n & p & _ & -> & Hp)].
  - exists []. by rewrite app_nil_r.
  - by exists (n :: p).
Qed.


Lemma item_ok_keys base item k :
  item_ok base item → k ∈ map fst item.2.2 →
  ∃ p, k = folder_key ((base ++ [item.1]) ++ p)
       ∧ Forall (λ c, slash ∉ c) p.
Proof.
  intros (_ & Hproper & Hsub) Hk. rewrite Hsub in Hk.
  by apply scan_entry_keys in Hk.
Qed.

(** *** What a turn of the loop keeps *)

Lemma grows_refl base result : grows base result result.
Proof. by split. Qed.

Lemma grows_trans base r1 r2 r3 :
  grows base r1 r2 → grows base r2 r3 → grows base r1 r3.
Proof. intros [A1 B1] [A2 B2]. split; eauto. Qed.

(** The keys of a sub-directory's scan are neither the folder's own
    key nor the keys of the sub-directories met before. *)
Lemma sub_keys_fresh base names result item k :
  Forall (λ c, slash ∉ c) base →
  item_ok base item → item.1 ∉ names →
  (base = [] → item.1 ≠ py "root") →
  keys_ok base names result →
  k ∈ map fst item.2.2 →
  k ≠ folder_key base ∧ (k ∈ map fst result → k = folder_key base).
Proof.
  destruct item as [n [c sub]].
  intros Hbase (Hn & Hproper & Hsub) Hfresh Hroot Hres Hk.
  cbn [fst snd] in *. subst sub.
  apply scan_entry_keys in Hk as (p & -> & Hp); [|done].
  rewrite <- app_assoc. cbn [app].
  assert (Forall (λ c, slash ∉ c) (base ++ n :: p)) as Hall.
  { apply Forall_app. split; [done|]. by constructor. }
  split; [by apply folder_key_sub_ne|].
  intros Hin. destruct (Hres _ Hin) as [?|(n' & p' & Hn' & E & Hp')]; [done|].
  apply folder_key_sub_inj in E; [|done|by apply Forall_app]. by subst.
Qed.

Lemma scan_item_grows base names result item :
  Forall (λ c, slash ∉ c) base →
  item_ok base item → item.1 ∉ names → no_root_item base item →
  keys_ok base names result →
  grows base result (scan_item base result item).
Proof.
  intros Hbase Hok Hfresh Hroot Hres.
  destruct item as [n [c sub]]. cbn [scan_item].
  destruct (skipped n); [apply grows_refl|].
  destruct c as [st_size st_mtime|ch|]; [| |apply grows_refl].
  - case_bool_decide; [|apply grows_refl]. cbn [get_file_info]. split.
    + intros x (files & Hget & Hx). eexists. rewrite dict_append_get.
      rewrite bool_decide_eq_true_2 by done. split; [done|].
      rewrite Hget. cbn. set_solver.
    + intros k v Hk Hget. rewrite dict_append_get.
      by rewrite bool_decide_eq_false_2.
  - assert (∀ k, k ∈ map fst result → k ∉ map fst sub ∨ k = folder_key base)
      as Hold.
    { intros k Hk. destruct (decide (k ∈ map fst sub)) as [Hs|]; [|by left].
      right.
      by apply (sub_keys_fresh base names result (n, (Dir ch, sub)) k)
        in Hs as [_ Hs]; [apply Hs|done|done|done|
                          intros Hb; by apply (Hroot Hb ch)|done]. }
    assert (folder_key base ∉ map fst sub) as Hown.
    { intros Hs.
      by apply (sub_keys_fresh base names result (n, (Dir ch, sub)))
        in Hs as [Hs _]; [|done|done|done|
                          intros Hb; by apply (Hroot Hb ch)|done]. }
    split.
    + intros x (files & Hget & Hx). exists files.
      by rewrite dict_update_get_other.
    + intros k v Hk Hget. rewrite dict_update_get_other; [done|].
      destruct (Hold k) as [?|?]; [|done|done].
      apply dict_get_elem in Hget. apply list_elem_of_fmap. by exists (k, v).
Qed.

(** One run of the loop over items that are fine and differ in name. *)
Lemma fold_scan_grows base items names result :
  Forall (λ c, slash ∉ c) base →
  Forall (item_ok base) items → Forall (no_root_item base) items →
  NoDup (names ++ map fst items) →
  keys_ok base names result →
  grows base result (fold_left (scan_item base) items result).
Proof.
  intros Hbase Hitems. revert names result.
  induction Hitems as [|item items Hok _ IH]; intros names result Hroot Hnd Hres;
    cbn [fold_left]; [apply grows_refl|].
  apply Forall_cons in Hroot as [Hroot1 Hroot].
  cbn [map] in Hnd. rewrite cons_middle, app_assoc in Hnd.
  assert (item.1 ∉ names) as Hfresh.
  { apply NoDup_app in Hnd as [Hnd _]. apply NoDup_app in Hnd as (_ & Hnd & _).
    intros Hin. apply (Hnd _ Hin). set_solver. }
  eapply grows_trans; [by eapply scan_item_grows|].
  apply (IH (names ++ [item.1])); [done|done|].
  apply (scan_item_keys base names result item);
    [intros k0; by apply item_ok_keys|apply Hok|done].
Qed.

(** What the turn of an item files is there at the end of the loop. *)
Lemma fold_scan_keeps base items1 item items2 :
  Forall (λ c, slash ∉ c) base →
  Forall (item_ok base) (items1 ++ item :: items2) →
  Forall (no_root_item base) (items1 ++ item :: items2) →
  NoDup (map fst (items1 ++ item :: items2)) →
  let before := fold_left (scan_item base) items1 [] in
  grows base (scan_item base before item)
    (fold_left (scan_item base) (items1 ++ item :: items2) [])
  ∧ keys_ok base (map fst items1) before.
Proof.
  intros Hbase Hok Hroot Hnd before.
  assert (∀ items names result,
            Forall (item_ok base) items →
            keys_ok base names result →
            keys_ok base (names ++ map fst items)
              (fold_left (scan_item base) items result)) as Hkeys.
  { induction items as [|i items IHi]; intros names result Hi Hres;
      cbn [fold_left map]; [by rewrite app_nil_r|].
    apply Forall_cons in Hi as [Hi1 Hi].
    rewrite cons_middle, app_assoc.
    apply (IHi (names ++ [i.1]) (scan_item base result i)); [done|].
    apply (scan_item_keys base names result i);
      [intros k0; by apply item_ok_keys|apply Hi1|done]. }
  apply Forall_app in Hok as [Hok1 Hok2].
  apply Forall_cons in Hok2 as [Hoki Hok2].
  apply Forall_app in Hroot as [Hroot1 Hroot2].
  apply Forall_cons in Hroot2 as [Hrooti Hroot2].
  assert (keys_ok base (map fst items1) before) as Hbefore.
  { apply (Hkeys items1 [] []); [done|]. by intros ? ?%elem_of_nil. }
  split; [|done].
  rewrite fold_left_app. cbn [fold_left]. fold before.
  rewrite map_app in Hnd. cbn [map] in Hnd.
  apply (fold_scan_grows base items2 (map fst items1 ++ [item.1]));
    [done|done|done| |].
  - by rewrite <- app_assoc.
  - apply (scan_item_keys base (map fst items1) before item);
      [intros k0; by apply item_ok_keys|apply Hoki|done].
Qed.


Lemma at_path_nil_inv e e' : at_path e [] e' → e' = e.
Proof. by inversion 1. Qed.

Lemma at_path_cons_inv e n p e' :
  at_path e (n :: p) e' →
  ∃ children c, e = Dir children ∧ (n, c) ∈ children ∧ at_path c p e'.
Proof. inversion 1; subst. by eexists _, _. Qed.

Lemma scan_entry_complete base e parent file_name st_size st_mtime :
  proper e → Forall (λ c, slash ∉ c) base → no_root_folder base e →
  at_path e (parent ++ [file_name]) (File st_size st_mtime) →
  Forall (λ c, skipped c = false) (parent ++ [file_name]) →
  suffix file_name = py ".md" →
  ∃ files,
    dict_get (scan_entry base e) (folder_key (base ++ parent)) = Some files ∧
    {| name := file_name; path := path_str (base ++ parent ++ [file_name]);
       size_kb := st_size / 1024; mtime := st_mtime |} ∈ files.
Proof.
  revert base parent.
  induction e as [sz mt|children IH|] using entry_ind;
    intros base parent Hproper Hbase Hroot Hat Hvis Hmd.
  - destruct parent; cbn [app] in Hat;
      by apply at_path_cons_inv in Hat as (? & ? & ? & _).
  - inversion_clear Hproper as [| |? Hnd Hch].
    set (g := λ item : pystr * entry,
                (item.1, (item.2, scan_entry (base ++ [item.1]) item.2))).
    cbn [scan_entry]. fold g.
    set (scanned := sorted_items (map g children)).
    assert (∀ i, i ∈ scanned → ∃ item, item ∈ children ∧ i = g item) as Hfrom.
    { intros i Hi. apply (proj1 (sorted_items_elem _ _)) in Hi.
      apply list_elem_of_fmap in Hi as (item & -> & Hi). by exists item. }
    assert (Forall (item_ok base) scanned) as Hok.
    { apply Forall_forall. intros i (item & Hi & ->)%Hfrom.
      rewrite Forall_forall in Hch. destruct (Hch _ Hi). by split_and!. }
    assert (Forall (no_root_item base) scanned) as Hnoroot.
    { apply Forall_forall. intros i ([n' c'] & Hi & ->)%Hfrom Hb ch.
      cbn [g fst snd]. intros -> ->.
      by apply (Hroot Hb children ch). }
    assert (NoDup (map fst scanned)) as Hnames.
    { unfold scanned, sorted_items. rewrite sort_stable_perm.
      unfold g. rewrite map_map. cbn [fst]. done. }
    assert (∀ n c, (n, c) ∈ children → skipped n = false →
              ∃ before,
                grows base (scan_item base before (g (n, c)))
                  (fold_left (scan_item base) scanned [])
                ∧ (∀ k, k ∈ map fst (g (n, c)).2.2 → k ≠ folder_key base))
      as Hturn.
    { intros n c Hc Hn.
      assert (g (n, c) ∈ scanned) as Hin.
      { apply sorted_items_elem, list_elem_of_fmap. by exists (n, c). }
      apply list_elem_of_split in Hin as (items1 & items2 & Hsplit).
      rewrite Hsplit in Hok, Hnoroot, Hnames |- *.
      destruct (fold_scan_keeps base items1 (g (n, c)) items2 Hbase Hok Hnoroot
                  Hnames) as [Hgrows Hbefore].
      eexists. split; [exact Hgrows|].
      intros k Hk.
      assert (item_ok base (g (n, c))) as Hoki.
      { apply Forall_app in Hok as [_ Hok].
        by apply Forall_cons in Hok as [? _]. }
      destruct c as [| ch |];
        [by apply elem_of_nil in Hk| |by apply elem_of_nil in Hk].
      eapply (sub_keys_fresh base (map fst items1) _ (g (n, Dir ch)));
        [done|done| | |done|done].
      - rewrite map_app in Hnames. cbn [map] in Hnames.
        apply NoDup_app in Hnames as (_ & Hnames & _).
        intros Hin. apply (Hnames _ Hin). apply list_elem_of_here.
      - intros Hb E. cbn [g fst] in E. subst n.
        by apply (Hroot Hb children ch). }
    destruct parent as [|n parent']; cbn [app] in Hat, Hvis;
      apply at_path_cons_inv in Hat as (children' & c & [= <-] & Hc & Hp);
      apply Forall_cons in Hvis as [Hn Hvis];
      destruct (Hturn _ _ Hc Hn) as (before & [Hown Hother] & Hkeys).
    + apply at_path_nil_inv in Hp as <-. rewrite app_nil_r.
      apply Hown. unfold g. cbn [fst snd scan_item]. rewrite Hn.
      rewrite bool_decide_eq_true_2 by done. cbn [get_file_info].
      eexists. rewrite dict_append_get, bool_decide_eq_true_2 by done.
      split; [done|]. rewrite elem_of_app. right. apply list_elem_of_here.
    + rewrite Forall_forall in IH, Hch.
      destruct (Hch _ Hc) as [Hslash Hproper]. cbn [fst snd] in *.
      destruct (IH _ Hc (base ++ [n]) parent') as (files & Hget & Hfile);
        [done| |by intros [_ ?]%app_nil|done|done|done|].
      { apply Forall_app. split; [done|]. by apply Forall_singleton. }
      cbn [fst snd] in Hget, Hfile.
      rewrite <- !app_assoc in Hget, Hfile. cbn [app] in Hget, Hfile.
      exists files. split; [|done].
      assert ((folder_key (base ++ n :: parent'), files)
              ∈ scan_entry (base ++ [n]) c) as Hsub
        by by apply dict_get_elem.
      apply Hother.
      * apply Hkeys. cbn [g fst snd]. apply list_elem_of_fmap.
        by eexists (_, files).
      * assert (∃ ch, c = Dir ch) as [ch ->].
        { destruct parent'; cbn [app] in Hp;
            apply at_path_cons_inv in Hp as (? & ? & ? & _); by eexists. }
        unfold g. cbn [fst snd scan_item]. rewrite Hn.
        apply dict_update_get; [apply scan_entry_NoDup|done].
  - destruct parent; cbn [app] in Hat;
      by apply at_path_cons_inv in Hat as (? & ? & ? & _).
Qed.

Lemma has_root_folder_false base e :
  (base = [] → has_root_folder e = false) → no_root_folder base e.
Proof.
  intros H Hb children ch -> Hin. specialize (H Hb). cbn [has_root_folder] in H.
  assert (existsb (λ item : pystr * entry,
                     match item.2 with
                     | Dir _ => bool_decide (item.1 = py "root")
                     | _ => false
                     end) children = true) as E; [|congruence].
  apply existsb_exists. exists (py "root", Dir ch).
  split; [by apply list_elem_of_In|]. cbn [fst snd].
  by apply bool_decide_eq_true_2.
Qed.

(** X23. [scan_directory] misses no file: every Markdown file that no
    skipped name hides is listed, under the key of its folder, with its
    name, path, size in KB and time.  This is so for a tree as a file
    system has it (no slash in a name, no two entries of a directory
    under one name) and, when the scan starts at the directory the paths
    are relative to, if no directory named [root] stands at its top:
    the key of such a directory is the key of the top folder's own
    files. *)
Theorem scan_directory_complete base e parent file_name st_size st_mtime :
  proper e → Forall (λ c, slash ∉ c) base →
  (base = [] → has_root_folder e = false) →
  at_path e (parent ++ [file_name]) (File st_size st_mtime) →
  Forall (λ c, skipped c = false) (parent ++ [file_name]) →
  suffix file_name = py ".md" →
  ∃ result files,
    scan_directory (Some e) base = Some result ∧
    dict_get result (folder_key (base ++ parent)) = Some files ∧
    {| name := file_name; path := path_str (base ++ parent ++ [file_name]);
       size_kb := st_size / 1024; mtime := st_mtime |} ∈ files.
Proof.
  intros Hproper Hbase Hroot%has_root_folder_false Hat Hvis Hmd.
  destruct (scan_entry_complete base e parent file_name st_size st_mtime)
    as (files & Hget & Hf); [done..|].
  assert (∃ children, e = Dir children) as [children ->].
  { destruct parent; cbn [app] in Hat;
      apply at_path_cons_inv in Hat as (children & ? & -> & _);
      by exists children. }
  by exists (scan_entry base (Dir children)), files.
Qed.

End Completeness.

(** A concrete tree is proper. *)
Ltac prove_proper :=
  repeat first
    [ apply proper_file
    | apply proper_other
    | apply proper_dir; [decide_by_compute|]
    | apply Forall_nil_2
    | apply Forall_cons; split; [split; [decide_by_compute|]|] ].

Lemma scan_directory_complete_witness :
  let e := Dir [(py "README.md", File 100 (Stamp 15 0));
                (py "specs", Dir [(py "plan.md", File 2048 (Stamp 14 50))])] in
  ∃ result files,
    scan_directory (Some e) [] = Some result ∧
    dict_get result (folder_key ([] ++ [py "specs"])) = Some files ∧
    {| name := py "plan.md";
       path := path_str ([] ++ [py "specs"] ++ [py "plan.md"]);
       size_kb := 2048 / 1024; mtime := Stamp 14 50 |} ∈ files.
Proof.
  intros e.
  apply (scan_directory_complete [] e [py "specs"] (py "plan.md") 2048
           (Stamp 14 50)).
  - prove_proper.
  - apply Forall_nil_2.
  - reflexivity.
  - eapply at_child; [apply list_elem_of_further, list_elem_of_here|].
    eapply at_child; [apply list_elem_of_here|apply at_here].
  - decide_by_compute.
  - vm_compute. reflexivity.
Defined.

(** *** A folder named root *)

Section RootFolder.

Implicit Types (base parent p : list pystr) (e : entry)
  (result sub : dict (list file_info)) (f : file_info) (k folder n : pystr).

Lemma str_ltb_chain (x y z : pystr) :
  str_ltb y x = false → str_ltb z y = false → str_ltb z x = false.
Proof.
  intros Hyx Hzy. destruct (str_ltb z x) eqn:Hzx; [|done].
  destruct (str_ltb x y) eqn:Hxy.
  - by rewrite (str_ltb_trans _ _ _ Hzx Hxy) in Hzy.
  - rewrite (str_ltb_total _ _ Hxy Hyx) in Hzx. congruence.
Qed.

Lemma sorted_items_sorted {A : Type} (items : list (pystr * A)) :
  StronglySorted (λ a b, str_ltb b.1 a.1 = false) (sorted_items items).
Proof.
  apply (sort_stable_sorted (λ y x : pystr * A, str_ltb y.1 x.1)).
  - intros x y. apply str_ltb_asym.
  - intros x y z. apply str_ltb_chain.
Qed.

Lemma dict_get_NoDup {V : Type} (d : dict V) k v :
  NoDup (map fst d) → (k, v) ∈ d → dict_get d k = Some v.
Proof.
  induction d as [|[k' v'] d IH]; cbn [map fst dict_get];
    [by intros _ ?%elem_of_nil|].
  rewrite NoDup_cons. intros [Hk' Hd] [[= -> ->]|Hin]%elem_of_cons.
  - by rewrite bool_decide_eq_true_2.
  - rewrite bool_decide_eq_false_2; [by apply IH|].
    intros ->. apply Hk'. apply list_elem_of_fmap. by exists (k, v).
Qed.

(** The path of a file below a sub-folder has a slash. *)
Lemma path_str_slash c parent file_name :
  slash ∈ path_str (c :: parent ++ [file_name]).
Proof.
  unfold path_str.
  destruct (parent ++ [file_name]) as [|c' l] eqn:E; [by destruct parent|].
  cbn [join_slash]. rewrite elem_of_app. right. apply list_elem_of_here.
Qed.

(** The files filed under [root] while the loop runs over items that
    are neither [n] nor [root]. *)
Lemma fold_scan_root_paths n items result :
  Forall (item_ok []) items →
  n ∉ map fst items → py "root" ∉ map fst items →
  (∀ files f, dict_get result (py "root") = Some files → f ∈ files →
              path f ≠ n) →
  ∀ files f,
    dict_get (fold_left (scan_item []) items result) (py "root") = Some files →
    f ∈ files → path f ≠ n.
Proof.
  intros Hitems. revert result.
  induction Hitems as [|item items Hok _ IH]; intros result Hn Hroot Hres;
    cbn [fold_left]; [done|].
  cbn [map] in Hn, Hroot.
  apply not_elem_of_cons in Hn as [Hn1 Hn].
  apply not_elem_of_cons in Hroot as [Hroot1 Hroot].
  apply IH; [done|done|]. clear IH.
  destruct item as [c [e sub]]. cbn [fst snd] in *. cbn [scan_item].
  destruct (skipped c); [done|].
  destruct e as [st_size st_mtime|ch|]; [| |done].
  - case_bool_decide; [|done]. cbn [get_file_info folder_key].
    intros files f. rewrite dict_append_get, bool_decide_eq_true_2 by done.
    intros [= <-] [Hf|Hf%list_elem_of_singleton]%elem_of_app.
    + destruct (dict_get result (py "root")) as [old|] eqn:E;
        [by apply (Hres old)|by apply elem_of_nil in Hf].
    + subst f. cbn [path app]. unfold path_str. cbn [join_slash]. done.
  - intros files f. rewrite dict_update_get_other; [apply Hres|].
    intros Hk.
    destruct (sub_keys_fresh [] [] [] (c, (Dir ch, sub)) (py "root"))
      as [Hk' _].
    + apply Forall_nil_2.
    + done.
    + by intros ?%elem_of_nil.
    + intros _ E. by apply Hroot1.
    + by intros ? ?%elem_of_nil.
    + done.
    + by apply Hk'.
Qed.

(** X24. A directory named [root] at the top of the scan takes the
    place of the top folder: when it holds a Markdown file of its own,
    no top-level file whose name sorts before [root] is listed
    anywhere in the result. *)
Theorem root_folder_hides children ch md md_size md_mtime n st_size st_mtime
    result :
  proper (Dir children) →
  (py "root", Dir ch) ∈ children →
  (md, File md_size md_mtime) ∈ ch →
  skipped md = false → suffix md = py ".md" →
  (n, File st_size st_mtime) ∈ children →
  str_ltb n (py "root") = true →
  scan_directory (Some (Dir children)) [] = Some result →
  ∀ folder files f, (folder, files) ∈ result → f ∈ files → path f ≠ n.
Proof.
  intros Hproper Hrootdir Hmd Hvis Hsuffix Hn Hlt Hscan folder files f Hin Hf.
  cbn [scan_directory] in Hscan. apply (inj Some) in Hscan. subst result.
  pose proof Hproper as Hproper'.
  inversion_clear Hproper' as [| |? Hnd Hch]. rewrite Forall_forall in Hch.
  destruct (Hch _ Hn) as [Hslash _]. cbn [fst] in Hslash.
  destruct (scan_entry_sound [] (Dir children) folder files f Hin Hf)
    as (parent & file_name & sz & _ & _ & _ & -> & Ef).
  destruct parent as [|c parent].
  2: { rewrite Ef. cbn [path app]. intros E. apply Hslash. rewrite <- E.
       apply path_str_slash. }
  cbn [app folder_key] in Hin. clear Ef sz file_name.
  apply (dict_get_NoDup _ _ _ (scan_entry_NoDup _ _)) in Hin.
  revert files f Hin Hf.
  cbn [scan_entry].
  set (g := λ item : pystr * entry,
              (item.1, (item.2, scan_entry ([] ++ [item.1]) item.2))).
  set (scanned := sorted_items (map g children)).
  assert (∀ i, i ∈ scanned → ∃ item, item ∈ children ∧ i = g item) as Hfrom.
  { intros i Hi. apply (proj1 (sorted_items_elem _ _)) in Hi.
    apply list_elem_of_fmap in Hi as (item & -> & Hi). by exists item. }
  assert (Forall (item_ok []) scanned) as Hok.
  { apply Forall_forall. intros i (item & Hi & ->)%Hfrom.
    destruct (Hch _ Hi). by split_and!. }
  assert (NoDup (map fst scanned)) as Hnames.
  { unfold scanned, sorted_items. rewrite sort_stable_perm.
    unfold g. rewrite map_map. cbn [fst]. done. }
  pose proof (sorted_items_sorted (map g children)) as Hsorted.
  fold scanned in Hsorted.
  assert (g (n, File st_size st_mtime) ∈ scanned) as Hnin.
  { apply sorted_items_elem, list_elem_of_fmap. by eexists (_, _). }
  assert (g (py "root", Dir ch) ∈ scanned) as Hrin.
  { apply sorted_items_elem, list_elem_of_fmap. by eexists (_, _). }
  apply list_elem_of_split in Hrin as (items1 & items2 & Hsplit).
  rewrite Hsplit in Hok, Hnames, Hsorted, Hnin |- *.
  apply StronglySorted_app_1_r in Hsorted.
  apply StronglySorted_inv in Hsorted as [_ Hafter].
  rewrite map_app in Hnames. cbn [map] in Hnames.
  apply NoDup_app in Hnames as (_ & Hdisj & Hnames).
  apply NoDup_cons in Hnames as [Hroot2 _].
  assert (n ≠ py "root") as Hne.
  { intros ->. by rewrite str_ltb_irrefl in Hlt. }
  assert (n ∉ map fst items2) as Hn2.
  { intros Hin2.
    apply elem_of_app in Hnin as [Hnin|Hnin].
    - apply (Hdisj n); [|by right].
      apply list_elem_of_fmap. by eexists; split; [|exact Hnin].
    - apply list_elem_of_fmap in Hin2 as (i & Hi1 & Hi2).
      rewrite Forall_forall in Hafter. specialize (Hafter _ Hi2).
      cbn [g fst] in Hafter. rewrite <- Hi1 in Hafter. congruence. }
  apply Forall_app in Hok as [_ Hok]. apply Forall_cons in Hok as [Hokr Hok].
  rewrite fold_left_app. cbn [fold_left].
  apply fold_scan_root_paths; [done|done|done|].
  unfold g. cbn [fst snd scan_item].
  assert (skipped (py "root") = false) as -> by (vm_compute; reflexivity).
  destruct (scan_entry_complete [py "root"] (Dir ch) [] md md_size md_mtime)
    as (files_r & Hget & _); [by destruct (Hch _ Hrootdir)| |done| |
                               by repeat constructor|done|].
  { apply Forall_singleton. decide_by_compute. }
  { cbn [app]. apply (at_child ch md _ [] _ Hmd). constructor. }
  cbn [app folder_key join_slash] in Hget.
  intros files f Hfiles Hf.
  rewrite (dict_update_get _ _ (py "root") files_r) in Hfiles;
    [|apply scan_entry_NoDup|by apply dict_get_elem].
  injection Hfiles as <-.
  apply dict_get_elem in Hget.
  destruct (scan_entry_sound _ _ _ _ _ Hget Hf)
    as (parent & file_name & sz & _ & _ & _ & _ & ->).
  cbn [path app]. intros E. apply Hslash. rewrite <- E. apply path_str_slash.
Qed.

End RootFolder.

Lemma root_folder_hides_witness :
  let note := {| name := py "note.md"; path := py "root/note.md";
                 size_kb := 2; mtime := Stamp 14 50 |} in
  str_ltb (py "README.md") (py "root") = true ∧
  path note ≠ py "README.md".
Proof.
  intros note. split; [reflexivity|].
  refine (root_folder_hides
           [(py "README.md", File 100 (Stamp 15 0));
            (py "root", Dir [(py "note.md", File 2048 (Stamp 14 50))])]
           [(py "note.md", File 2048 (Stamp 14 50))]
           (py "note.md") 2048 (Stamp 14 50)
           (py "README.md") 100 (Stamp 15 0)
           [(py "root", [note])] _ _ _ _ _ _ _ _ (py "root") [note] note _ _).
  - prove_proper.
  - apply list_elem_of_further, list_elem_of_here.
  - apply list_elem_of_here.
  - reflexivity.
  - vm_compute. reflexivity.
  - apply list_elem_of_here.
  - reflexivity.
  - vm_compute. reflexivity.
  - apply list_elem_of_here.
  - apply list_elem_of_here.
Defined.

(** *** The index *)

Section IndexFacts.

Variable strftime : pystr → datetime → pystr.

Implicit Types (now : datetime) (development_dir docs_dir : option entry)
  (e : entry) (lines : list pystr).

Lemma scan_directory_None d base :
  scan_directory d base = None ↔ not_a_directory d = true.
Proof. by destruct d as [[| |]|]. Qed.



Lemma elem_of_concat {A : Type} (x : A) (ls : list (list A)) :
  x ∈ concat ls ↔ ∃ l, l ∈ ls ∧ x ∈ l.
Proof.
  induction ls as [|l ls IH]; cbn [concat].
  - split; [by intros ?%elem_of_nil|]. by intros (? & ?%elem_of_nil & _).
  - rewrite elem_of_app, IH. split.
    + intros [?|(l' & ? & ?)]; [exists l|exists l']; set_solver.
    + intros (l' & [->|?]%elem_of_cons & ?); [by left|right; by exists l'].
Qed.

(** A file under a relative path with at least one component stands in
    a directory. *)
Lemma at_path_snoc_dir e parent file_name e' :
  at_path e (parent ++ [file_name]) e' → ∃ children, e = Dir children.
Proof.
  destruct parent; cbn [app];
    intros (children & ? & -> & _)%at_path_cons_inv; by exists children.
Qed.

(** X28. Every Markdown file of the development directory that no
    skipped name hides has its entry line in the index, whenever the
    index is generated: for a tree as a file system has it, without a
    directory named [root] at its top. *)
Theorem index_lines_lists_file now docs_dir lines e parent file_name
    st_size st_mtime :
  index_lines strftime now (Some e) docs_dir = Some lines →
  proper e → has_root_folder e = false →
  at_path e (parent ++ [file_name]) (File st_size st_mtime) →
  Forall (λ c, skipped c = false) (parent ++ [file_name]) →
  suffix file_name = py ".md" →
  format_file_entry strftime
    {| name := file_name; path := path_str (parent ++ [file_name]);
       size_kb := st_size / 1024; mtime := st_mtime |} now ∈ lines.
Proof.
  intros Hlines Hproper Hroot Hat Hvis Hmd.
  destruct (at_path_snoc_dir _ _ _ _ Hat) as [children ->].
  destruct (scan_entry_complete [] (Dir children) parent file_name st_size
              st_mtime) as (files & Hget & Hf);
    [done|done|by apply has_root_folder_false|done..|].
  cbn [app] in Hget, Hf.
  unfold index_lines in Hlines. cbn [scan_directory mbind option_bind] in Hlines.
  set (dev_files := scan_entry [] (Dir children)) in *.
  destruct (match docs_dir with Some _ => _ | None => _ end) as [docs|];
    cbn [mbind option_bind] in Hlines; [|done].
  destruct (minus_days now DAYS_RECENT) as [cutoff|];
    cbn [mbind option_bind] in Hlines; [|done].
  apply (inj Some) in Hlines. rewrite <- Hlines. clear Hlines.
  do 2 (rewrite elem_of_app; right). rewrite elem_of_app. left.
  rewrite elem_of_app. right. rewrite elem_of_app. left.
  apply elem_of_concat.
  exists (dev_folder_lines strftime now (folder_key parent) files).
  split.
  - apply list_elem_of_fmap. exists (folder_key parent).
    rewrite Hget. split; [done|].
    apply sort_stable_elem, list_elem_of_fmap.
    exists (folder_key parent, files). split; [done|].
    by apply dict_get_elem.
  - unfold dev_folder_lines. destruct files as [|f0 files0] eqn:E;
      [by apply elem_of_nil in Hf|]. rewrite <- E in *.
    rewrite elem_of_app. right. rewrite elem_of_app. left.
    apply list_elem_of_fmap. eexists. split; [done|].
    by apply sort_stable_elem.
Qed.

End IndexFacts.

Lemma index_lines_lists_file_witness :
  let strftime := λ (_ : pystr) (_ : datetime), py "0001-01-14" in
  let e := Dir [(py "README.md", File 100 (Stamp 15 0));
                (py "specs", Dir [(py "plan.md", File 2048 (Stamp 14 50))])] in
  format_file_entry strftime
    {| name := py "plan.md"; path := path_str ([py "specs"] ++ [py "plan.md"]);
       size_kb := 2048 / 1024; mtime := Stamp 14 50 |} (Stamp 20 100)
  ∈ default [] (index_lines strftime (Stamp 20 100) (Some e) None).
Proof.
  intros strftime e.
  apply (index_lines_lists_file strftime (Stamp 20 100) None
           (default [] (index_lines strftime (Stamp 20 100) (Some e) None))
           e [py "specs"] (py "plan.md") 2048 (Stamp 14 50)).
  - vm_compute. reflexivity.
  - prove_proper.
  - reflexivity.
  - eapply at_child; [apply list_elem_of_further, list_elem_of_here|].
    eapply at_child; [apply list_elem_of_here|apply at_here].
  - decide_by_compute.
  - vm_compute. reflexivity.
Defined.
